(** * Derived-metrics pipeline of the affordable-housing dashboard

    A shallow embedding of the data transformations found in
    [generate_data_simple.py], [partner_template.py],
    [create_visualizations_altair.py] and [app.py]:

    - the per-city coverage record (ratio of subsidized units to severely
      cost-burdened renters),
    - the roll-up by city type with percentage shares and label offsets,
    - the cumulative series of expiring units,
    - the merge of the two annualized price-index series.

    pandas frames are lists of rows, an [int64] column holds integers that
    wrap around modulo 2^64, a [float64] value is a rational rounded to 53
    significant bits (or an infinity, or NaN), and a [groupby] lists its
    groups in ascending key order, as pandas does by default. *)

From Stdlib Require Import ZArith List Bool Lia String Ascii DecimalString.
From Stdlib Require Import QArith Qabs Qround Qpower Qreduction Lqa.
From Stdlib Require Import Permutation Sorted OrdersEx RelationClasses Morphisms.
Import ListNotations.

Local Open Scope Z_scope.

(** ** 64-bit integer columns *)

Module Int64.

Definition modulus : Z := 2 ^ 64.
Definition min_int : Z := - 2 ^ 63.
Definition max_int : Z := 2 ^ 63 - 1.

(** Two's-complement reduction, as numpy does on overflow. *)
Definition wrap (z : Z) : Z := (z + 2 ^ 63) mod modulus - 2 ^ 63.

Definition in_range (z : Z) : Prop := min_int <= z <= max_int.

Definition add (a b : Z) : Z := wrap (a + b).
Definition sub (a b : Z) : Z := wrap (a - b).

(** Sum of a column, accumulated from the left in [int64]. *)
Definition sum (l : list Z) : Z := fold_left add l 0.

(** The sum of the same column in unbounded integers. *)
Definition exact_sum (l : list Z) : Z := fold_right Z.add 0 l.

Lemma wrap_range z : in_range (wrap z).
Proof.
  unfold in_range, wrap, min_int, max_int, modulus.
  pose proof (Z.mod_pos_bound (z + 2 ^ 63) (2 ^ 64) ltac:(lia)). lia.
Qed.

Lemma wrap_id z : in_range z -> wrap z = z.
Proof.
  unfold in_range, wrap, min_int, max_int, modulus. intros H.
  rewrite Z.mod_small by lia. lia.
Qed.

Lemma wrap_add_l a b : wrap (wrap a + b) = wrap (a + b).
Proof.
  unfold wrap, modulus.
  replace ((a + 2 ^ 63) mod 2 ^ 64 - 2 ^ 63 + b + 2 ^ 63)
    with ((a + 2 ^ 63) mod 2 ^ 64 + b) by lia.
  rewrite Zplus_mod_idemp_l. f_equal. f_equal. lia.
Qed.

Lemma wrap_add_r a b : wrap (a + wrap b) = wrap (a + b).
Proof. rewrite (Z.add_comm a), wrap_add_l. f_equal. lia. Qed.

Lemma add_comm a b : add a b = add b a.
Proof. unfold add. f_equal. lia. Qed.

Lemma add_assoc a b c : add (add a b) c = add a (add b c).
Proof.
  unfold add. rewrite wrap_add_l, wrap_add_r. f_equal. lia.
Qed.

Lemma add_exact a b : in_range (a + b) -> add a b = a + b.
Proof. apply wrap_id. Qed.

Lemma fold_add_wrap (l : list Z) (acc : Z) :
  fold_left add l (wrap acc) = wrap (acc + exact_sum l).
Proof.
  revert acc. induction l as [|a l IH]; intros acc; simpl.
  - now rewrite Z.add_0_r.
  - unfold add at 2. rewrite wrap_add_l, IH. f_equal. lia.
Qed.

Lemma sum_wrap (l : list Z) : sum l = wrap (exact_sum l).
Proof.
  unfold sum. change 0 with (wrap 0) at 1. now rewrite fold_add_wrap.
Qed.

Lemma exact_sum_nonneg (l : list Z) : Forall (fun z => 0 <= z) l -> 0 <= exact_sum l.
Proof. induction 1; simpl; lia. Qed.

(** Without overflow the column sum is the exact sum. *)
Lemma sum_exact (l : list Z) : in_range (exact_sum l) -> sum l = exact_sum l.
Proof. intros R. rewrite sum_wrap. now apply wrap_id. Qed.

End Int64.

(** ** Ordered keys

    A [groupby] or a [sort_values] compares keys: strings by code point,
    integers by value, pairs lexicographically. *)

Class Ord (K : Type) := {
  cmp : K -> K -> comparison;
  cmp_eq : forall a b, cmp a b = Eq <-> a = b;
  cmp_antisym : forall a b, cmp b a = CompOpp (cmp a b);
  cmp_trans : forall a b c, cmp a b = Lt -> cmp b c = Lt -> cmp a c = Lt
}.

Definition lt {K} `{Ord K} (a b : K) : Prop := cmp a b = Lt.
Definition eqb_key {K} `{Ord K} (a b : K) : bool :=
  match cmp a b with Eq => true | _ => false end.

#[export, refine] Instance Ord_Z : Ord Z := {| cmp := Z.compare |}.
Proof.
  - intros a b. apply Z.compare_eq_iff.
  - intros a b. apply Z.compare_antisym.
  - intros a b c. rewrite !Z.compare_lt_iff. lia.
Defined.

Lemma string_lt_irrefl (a : string) : ~ String_as_OT.lt a a.
Proof. exact (StrictOrder_Irreflexive (R:=String_as_OT.lt) a). Qed.

Lemma string_lt_trans (a b c : string) :
  String_as_OT.lt a b -> String_as_OT.lt b c -> String_as_OT.lt a c.
Proof. exact (StrictOrder_Transitive (R:=String_as_OT.lt) a b c). Qed.

#[export, refine] Instance Ord_string : Ord string :=
  {| cmp := String_as_OT.compare |}.
Proof.
  - intros a b. destruct (String_as_OT.compare_spec a b) as [E|L|L];
      unfold String_as_OT.eq in *; split;
      try congruence; intros; subst; exfalso; eapply string_lt_irrefl; eauto.
  - intros a b.
    destruct (String_as_OT.compare_spec a b) as [E|L|L];
      destruct (String_as_OT.compare_spec b a) as [E'|L'|L'];
      unfold String_as_OT.eq in *; subst; simpl;
      try reflexivity; exfalso;
      try (eapply string_lt_irrefl; eassumption);
      eapply string_lt_irrefl, string_lt_trans; eassumption.
  - intros a b c. apply string_lt_trans.
Defined.

(** Lexicographic comparison of a pair of keys, first component first. *)
Definition cmp_pair {A B} `{Ord A} `{Ord B} (p q : A * B) : comparison :=
  match cmp (fst p) (fst q) with
  | Eq => cmp (snd p) (snd q)
  | c => c
  end.

#[export, refine] Instance Ord_pair {A B} `{Ord A} `{Ord B} : Ord (A * B) :=
  {| cmp := cmp_pair |}.
Proof.
  - intros [a1 b1] [a2 b2]. unfold cmp_pair. simpl.
    destruct (cmp a1 a2) eqn:E.
    + apply cmp_eq in E. subst. rewrite cmp_eq. split; congruence.
    + split; [discriminate|]. intros X. inversion X; subst.
      assert (cmp a2 a2 = Eq) by now apply cmp_eq. congruence.
    + split; [discriminate|]. intros X. inversion X; subst.
      assert (cmp a2 a2 = Eq) by now apply cmp_eq. congruence.
  - intros [a1 b1] [a2 b2]. unfold cmp_pair. simpl.
    rewrite (cmp_antisym a1 a2). destruct (cmp a1 a2); simpl; auto.
    apply cmp_antisym.
  - intros [a1 b1] [a2 b2] [a3 b3]. unfold cmp_pair. simpl.
    destruct (cmp a1 a2) eqn:E12; try discriminate;
      destruct (cmp a2 a3) eqn:E23; try discriminate; intros H1 H2.
    + apply cmp_eq in E12, E23. subst.
      assert (E : cmp a3 a3 = Eq) by now apply cmp_eq.
      rewrite E. eapply cmp_trans; eassumption.
    + apply cmp_eq in E12. subst. now rewrite E23.
    + apply cmp_eq in E23. subst. now rewrite E12.
    + now rewrite (cmp_trans _ _ _ E12 E23).
Defined.

Section OrdFacts.
Context {K : Type} `{Ord K}.

Lemma cmp_refl (a : K) : cmp a a = Eq.
Proof. now apply cmp_eq. Qed.

Lemma cmp_gt_lt (a b : K) : cmp a b = Gt <-> cmp b a = Lt.
Proof.
  rewrite (cmp_antisym b a). destruct (cmp b a); simpl; split; congruence.
Qed.

Lemma lt_irrefl (a : K) : ~ lt a a.
Proof. unfold lt. rewrite cmp_refl. discriminate. Qed.

Lemma lt_trans (a b c : K) : lt a b -> lt b c -> lt a c.
Proof. apply cmp_trans. Qed.

Lemma eqb_key_true (a b : K) : eqb_key a b = true <-> a = b.
Proof.
  unfold eqb_key. rewrite <- cmp_eq. destruct (cmp a b); split; congruence.
Qed.

Lemma eqb_key_refl (a : K) : eqb_key a a = true.
Proof. now apply eqb_key_true. Qed.

Lemma eqb_key_false (a b : K) : eqb_key a b = false <-> a <> b.
Proof.
  rewrite <- eqb_key_true. destruct (eqb_key a b); split; congruence.
Qed.

Lemma eqb_key_lt (a b : K) : cmp a b = Lt -> eqb_key a b = false.
Proof. unfold eqb_key. now intros ->. Qed.

Lemma eqb_key_gt (a b : K) : cmp a b = Gt -> eqb_key a b = false.
Proof. unfold eqb_key. now intros ->. Qed.

Lemma key_eq_dec (a b : K) : {a = b} + {a <> b}.
Proof.
  destruct (eqb_key a b) eqn:E.
  - left. now apply eqb_key_true.
  - right. now apply eqb_key_false.
Defined.
End OrdFacts.

(** ** Frames keyed by an ordered key

    [groupby] is pandas' [DataFrame.groupby] with its default [sort=True]:
    one group per distinct key, groups in ascending key order, and inside a
    group the values in the order of the rows they come from. *)

Section Frames.
Context {K : Type} `{Ord K} {A : Type}.

Fixpoint upsert (k : K) (a : A) (acc : list (K * list A)) : list (K * list A) :=
  match acc with
  | [] => [(k, [a])]
  | (k', l) :: rest =>
      match cmp k k' with
      | Lt => (k, [a]) :: acc
      | Eq => (k', l ++ [a]) :: rest
      | Gt => (k', l) :: upsert k a rest
      end
  end.

Definition groupby_from (acc : list (K * list A)) (rows : list (K * A)) :=
  fold_left (fun acc r => upsert (fst r) (snd r) acc) rows acc.

Definition groupby (rows : list (K * A)) : list (K * list A) :=
  groupby_from [] rows.

(** First row of a frame whose key is [k]. *)
Fixpoint get {B : Type} (k : K) (l : list (K * B)) : option B :=
  match l with
  | [] => None
  | (k', b) :: rest => if eqb_key k k' then Some b else get k rest
  end.

(** The values of the rows whose key is [k], in row order. *)
Definition values_of (k : K) (rows : list (K * A)) : list A :=
  map snd (filter (fun r => eqb_key k (fst r)) rows).

(** Keys in the order in which each is first seen. *)
Fixpoint first_seen (ks : list K) : list K :=
  match ks with
  | [] => []
  | k :: rest => k :: filter (fun k' => negb (eqb_key k k')) (first_seen rest)
  end.

(** Stable insertion sort of rows by ascending key: [sort_values]. *)
Fixpoint insert_row {B : Type} (r : K * B) (l : list (K * B)) : list (K * B) :=
  match l with
  | [] => [r]
  | r' :: rest =>
      match cmp (fst r) (fst r') with
      | Gt => r' :: insert_row r rest
      | _ => r :: l
      end
  end.

Definition sort_values {B : Type} (l : list (K * B)) : list (K * B) :=
  fold_right insert_row [] l.

Definition keys {B : Type} (l : list (K * B)) : list K := map fst l.

(** Strictly ascending keys: sorted, and no key twice. *)
Definition ascending {B : Type} (l : list (K * B)) : Prop :=
  StronglySorted lt (keys l).

Lemma ascending_cons {B : Type} (k : K) (b : B) l :
  ascending ((k, b) :: l) <->
  ascending l /\ Forall (lt k) (keys l).
Proof.
  unfold ascending. simpl. split.
  - intros S. inversion S; auto.
  - intros [S F]. now constructor.
Qed.

Lemma get_none_of_lt {B : Type} (k : K) (l : list (K * B)) :
  Forall (lt k) (keys l) -> get k l = None.
Proof.
  induction l as [|[k' b] l IH]; simpl; intros F; auto.
  inversion F as [|? ? L F']; subst.
  destruct (eqb_key k k') eqn:E.
  - apply eqb_key_true in E. subst. now apply lt_irrefl in L.
  - auto.
Qed.

Lemma get_in_keys {B : Type} (k : K) (l : list (K * B)) :
  In k (keys l) <-> get k l <> None.
Proof.
  induction l as [|[k' b] l IH]; simpl.
  - intuition.
  - destruct (eqb_key k k') eqn:E.
    + apply eqb_key_true in E. subst. split; [discriminate | auto].
    + rewrite <- IH. split; [intros [X|X]|]; auto.
      subst. rewrite eqb_key_refl in E. discriminate.
Qed.

(** Two frames with strictly ascending keys and the same content are the
    same frame. *)
Lemma ascending_ext {B : Type} (l1 l2 : list (K * B)) :
  ascending l1 -> ascending l2 ->
  (forall k, get k l1 = get k l2) -> l1 = l2.
Proof.
  revert l2. induction l1 as [|[k1 b1] l1 IH]; intros [|[k2 b2] l2] S1 S2 E.
  - reflexivity.
  - specialize (E k2). simpl in E. rewrite eqb_key_refl in E. discriminate.
  - specialize (E k1). simpl in E. rewrite eqb_key_refl in E. discriminate.
  - apply ascending_cons in S1, S2. destruct S1 as [S1 F1], S2 as [S2 F2].
    assert (k1 = k2) as ->.
    { pose proof (E k1) as E1. pose proof (E k2) as E2. simpl in E1, E2.
      rewrite eqb_key_refl in E1, E2.
      destruct (cmp k1 k2) eqn:C.
      - now apply cmp_eq.
      - exfalso. unfold eqb_key in E1. rewrite C in E1.
        rewrite get_none_of_lt in E1; [discriminate|].
        eapply Forall_impl; [|exact F2]. intros a. now apply lt_trans.
      - exfalso. apply cmp_gt_lt in C. unfold eqb_key in E2. rewrite C in E2.
        rewrite get_none_of_lt in E2; [discriminate|].
        eapply Forall_impl; [|exact F1]. intros a. now apply lt_trans. }
    pose proof (E k2) as E2. simpl in E2. rewrite eqb_key_refl in E2.
    inversion E2; subst. f_equal. apply IH; auto.
    intros k. specialize (E k). simpl in E.
    destruct (eqb_key k k2) eqn:Ek; auto.
    apply eqb_key_true in Ek. subst.
    now rewrite !get_none_of_lt.
Qed.

(** *** Content and order of [upsert] and [groupby] *)

Lemma keys_upsert k a acc x :
  In x (keys (upsert k a acc)) <-> x = k \/ In x (keys acc).
Proof.
  induction acc as [|[k' l] acc IH]; simpl.
  - intuition.
  - destruct (cmp k k') eqn:C; simpl.
    + apply cmp_eq in C. subst. intuition.
    + intuition.
    + rewrite IH. intuition.
Qed.

Lemma ascending_upsert k a acc :
  ascending acc -> ascending (upsert k a acc).
Proof.
  induction acc as [|[k' l] acc IH]; simpl; intros S.
  - apply ascending_cons. split; constructor.
  - destruct (cmp k k') eqn:C.
    + apply ascending_cons in S. now apply ascending_cons.
    + apply ascending_cons. split; auto. simpl. constructor; auto.
      apply ascending_cons in S. destruct S as [_ F].
      eapply Forall_impl; [|exact F]. intros x. now apply lt_trans.
    + apply ascending_cons in S. destruct S as [S F].
      apply ascending_cons. split; auto.
      apply Forall_forall. intros x Hx. apply keys_upsert in Hx.
      destruct Hx as [->|Hx].
      * now apply cmp_gt_lt.
      * rewrite Forall_forall in F. auto.
Qed.

Lemma get_upsert k a acc k' :
  ascending acc ->
  get k' (upsert k a acc) =
    if eqb_key k' k
    then Some (match get k acc with Some l => l ++ [a] | None => [a] end)
    else get k' acc.
Proof.
  induction acc as [|[k0 l] acc IH]; simpl; intros S.
  - destruct (eqb_key k' k); reflexivity.
  - apply ascending_cons in S. destruct S as [S F].
    destruct (cmp k k0) eqn:C; simpl.
    + apply cmp_eq in C. subst. rewrite eqb_key_refl.
      destruct (eqb_key k' k0); reflexivity.
    + rewrite (eqb_key_lt _ _ C).
      rewrite (get_none_of_lt k acc).
      * destruct (eqb_key k' k); reflexivity.
      * eapply Forall_impl; [|exact F]. intros x. now apply lt_trans.
    + rewrite (eqb_key_gt _ _ C). rewrite IH by assumption.
      destruct (eqb_key k' k0) eqn:E0, (eqb_key k' k) eqn:E1; auto.
      apply eqb_key_true in E0, E1. subst. rewrite cmp_refl in C. discriminate.
Qed.

Lemma ascending_groupby_from acc rows :
  ascending acc -> ascending (groupby_from acc rows).
Proof.
  revert acc. induction rows as [|r rows IH]; simpl; intros acc S; auto.
  apply IH. now apply ascending_upsert.
Qed.

Lemma ascending_groupby rows : ascending (groupby rows).
Proof. apply ascending_groupby_from. constructor. Qed.

Lemma get_groupby_from acc rows k :
  ascending acc ->
  get k (groupby_from acc rows) =
    match get k acc, values_of k rows with
    | None, [] => None
    | None, l => Some l
    | Some l0, l => Some (l0 ++ l)
    end.
Proof.
  revert acc. induction rows as [|[k' a] rows IH]; intros acc S.
  - simpl. destruct (get k acc); auto. now rewrite app_nil_r.
  - simpl. rewrite IH by now apply ascending_upsert.
    rewrite get_upsert by assumption. unfold values_of. simpl.
    destruct (eqb_key k k') eqn:E.
    + apply eqb_key_true in E. subst. simpl.
      destruct (get k' acc); simpl; auto. now rewrite <- app_assoc.
    + reflexivity.
Qed.

Lemma get_groupby rows k :
  get k (groupby rows) =
    match values_of k rows with [] => None | l => Some l end.
Proof.
  unfold groupby. rewrite get_groupby_from by constructor. reflexivity.
Qed.

Lemma values_of_nil_iff k (rows : list (K * A)) :
  values_of k rows = [] <-> ~ In k (keys rows).
Proof.
  unfold values_of, keys. induction rows as [|[k' a] rows IH]; simpl.
  - intuition.
  - destruct (eqb_key k k') eqn:E; simpl.
    + apply eqb_key_true in E. subst. split; [discriminate|]. intuition.
    + rewrite IH. split; [intros N [X|X]|]; auto.
      subst. rewrite eqb_key_refl in E. discriminate.
Qed.

Lemma keys_groupby rows k :
  In k (keys (groupby rows)) <-> In k (keys rows).
Proof.
  rewrite get_in_keys, get_groupby.
  pose proof (values_of_nil_iff k rows) as V.
  destruct (values_of k rows).
  - split; [congruence|]. intros I. exfalso. now apply (proj1 V).
  - split; [|discriminate]. intros _.
    destruct (in_dec key_eq_dec k (keys rows)) as [I|N]; auto.
    apply (proj2 V) in N. discriminate.
Qed.
End Frames.

Section FrameSorting.
Context {K : Type} `{Ord K}.

(** An aggregation ([sum], [mean]) applied to every group. *)
Definition agg {A B : Type} (f : list A -> B) (g : list (K * list A)) : list (K * B) :=
  map (fun kl => (fst kl, f (snd kl))) g.

Lemma keys_agg {A B} (f : list A -> B) g : keys (agg f g) = keys g.
Proof. unfold keys, agg. rewrite map_map. reflexivity. Qed.

Lemma get_agg {A B} (f : list A -> B) g k :
  get k (agg f g) = option_map f (get k g).
Proof.
  induction g as [|[k' l] g IH]; simpl; auto.
  destruct (eqb_key k k'); auto.
Qed.

Lemma ascending_agg {A B} (f : list A -> B) g :
  ascending g -> ascending (agg f g).
Proof. unfold ascending. now rewrite keys_agg. Qed.

Lemma insert_row_perm {B} (r : K * B) l : Permutation (insert_row r l) (r :: l).
Proof.
  induction l as [|r' l IH]; simpl; auto.
  destruct (cmp (fst r) (fst r')); auto.
  rewrite IH. apply perm_swap.
Qed.

Lemma sort_values_perm {B} (l : list (K * B)) : Permutation (sort_values l) l.
Proof.
  induction l as [|r l IH]; simpl; auto.
  rewrite insert_row_perm. now constructor.
Qed.

Lemma insert_row_ascending {B} (r : K * B) l :
  ascending l -> ~ In (fst r) (keys l) -> ascending (insert_row r l).
Proof.
  destruct r as [k b]. simpl.
  induction l as [|[k' b'] l IH]; simpl; intros S N.
  - apply ascending_cons. split; constructor.
  - destruct (cmp k k') eqn:C.
    + apply cmp_eq in C. subst. exfalso. auto.
    + apply ascending_cons. split; auto. simpl. constructor; auto.
      apply ascending_cons in S. destruct S as [_ F].
      eapply Forall_impl; [|exact F]. intros x. now apply lt_trans.
    + apply ascending_cons in S. destruct S as [S F].
      apply ascending_cons. split; [apply IH; auto|].
      apply Forall_forall. intros x Hx.
      assert (P : Permutation (keys (insert_row (k, b) l)) (k :: keys l)).
      { unfold keys. rewrite insert_row_perm. reflexivity. }
      apply (Permutation_in _ P) in Hx. destruct Hx as [<-|Hx].
      * now apply cmp_gt_lt.
      * rewrite Forall_forall in F. auto.
Qed.

Lemma sort_values_ascending {B} (l : list (K * B)) :
  NoDup (keys l) -> ascending (sort_values l).
Proof.
  induction l as [|r l IH]; simpl; intros N.
  - constructor.
  - inversion N; subst. apply insert_row_ascending; auto.
    intros I. apply H2.
    eapply Permutation_in; [|exact I].
    unfold keys. now rewrite sort_values_perm.
Qed.

Lemma insert_row_sorted {B} (k : K) (b : B) l :
  Forall (lt k) (keys l) -> insert_row (k, b) l = (k, b) :: l.
Proof.
  destruct l as [|[k' b'] l]; simpl; auto.
  intros F. inversion F; subst. unfold lt in *. simpl.
  now replace (cmp k k') with Lt.
Qed.

(** Sorting a frame whose keys already ascend changes nothing. *)
Lemma sort_values_id {B} (l : list (K * B)) :
  ascending l -> sort_values l = l.
Proof.
  induction l as [|[k b] l IH]; simpl; intros S; auto.
  apply ascending_cons in S. destruct S as [S F].
  rewrite IH by assumption. now apply insert_row_sorted.
Qed.

Lemma get_in {B} (k : K) (b : B) l :
  NoDup (keys l) -> In (k, b) l -> get k l = Some b.
Proof.
  induction l as [|[k' b'] l IH]; simpl; intros N I; [contradiction|].
  inversion N; subst. destruct I as [E|I].
  - inversion E; subst. now rewrite eqb_key_refl.
  - destruct (eqb_key k k') eqn:E.
    + apply eqb_key_true in E. subst. exfalso. apply H2.
      change k' with (fst (k', b)). now apply in_map.
    + auto.
Qed.

Lemma get_some_in {B} (k : K) (b : B) l :
  get k l = Some b -> In (k, b) l.
Proof.
  induction l as [|[k' b'] l IH]; simpl; [discriminate|].
  destruct (eqb_key k k') eqn:E.
  - apply eqb_key_true in E. intros X. inversion X; subst. auto.
  - auto.
Qed.

Lemma get_perm {B} (l1 l2 : list (K * B)) k :
  Permutation l1 l2 -> NoDup (keys l1) -> get k l1 = get k l2.
Proof.
  intros P N.
  assert (N2 : NoDup (keys l2)).
  { eapply Permutation_NoDup; [|exact N]. unfold keys. now rewrite P. }
  destruct (get k l1) as [b|] eqn:G1.
  - symmetry. apply get_in; auto.
    eapply Permutation_in; [exact P|]. now apply get_some_in.
  - destruct (get k l2) as [b|] eqn:G2; auto.
    apply get_some_in in G2. apply Permutation_sym in P.
    apply (Permutation_in _ P) in G2.
    apply get_in in G2; auto. congruence.
Qed.

Lemma first_seen_in (ks : list K) k : In k (first_seen ks) <-> In k ks.
Proof.
  induction ks as [|k0 ks IH]; simpl; [tauto|].
  rewrite filter_In, IH.
  destruct (key_eq_dec k0 k) as [->|N].
  - tauto.
  - split; [tauto|]. intros [X|X]; [tauto|]. right. split; auto.
    apply negb_true_iff. now apply eqb_key_false.
Qed.

Lemma first_seen_nodup (ks : list K) : NoDup (first_seen ks).
Proof.
  induction ks as [|k0 ks IH]; simpl; constructor.
  - rewrite filter_In. intros [_ X].
    rewrite eqb_key_refl in X. discriminate.
  - now apply NoDup_filter.
Qed.
(** A strictly ascending list of keys is determined by its elements. *)
Lemma ascending_keys_unique (l1 l2 : list K) :
  StronglySorted lt l1 -> StronglySorted lt l2 ->
  (forall k, In k l1 <-> In k l2) -> l1 = l2.
Proof.
  intros S1 S2 E.
  assert (K1 : forall l : list K, keys (map (fun k => (k, tt)) l) = l).
  { intros l. unfold keys. rewrite map_map. apply map_id. }
  rewrite <- (K1 l1), <- (K1 l2). f_equal.
  apply ascending_ext.
  - unfold ascending. now rewrite K1.
  - unfold ascending. now rewrite K1.
  - intros k.
    pose proof (get_in_keys k (map (fun k => (k, tt)) l1)) as G1.
    pose proof (get_in_keys k (map (fun k => (k, tt)) l2)) as G2.
    rewrite K1 in G1, G2. specialize (E k).
    destruct (get k (map (fun k => (k, tt)) l1)) as [[]|],
             (get k (map (fun k => (k, tt)) l2)) as [[]|]; auto; exfalso.
    + apply (proj1 G2); [|reflexivity]. apply E, G1. discriminate.
    + apply (proj1 G1); [|reflexivity]. apply E, G2. discriminate.
Qed.

End FrameSorting.

(** ** Exceptions

    A Python computation returns a value or raises. *)

Module Py.

Inductive exception : Type :=
| ZeroDivisionError
| TypeError
| ValueError
| OverflowError
| KeyError
| DateParseError.

Inductive result (A : Type) : Type :=
| Ok (a : A)
| Raise (e : exception).
Arguments Ok {A} a.
Arguments Raise {A} e.

Definition bind {A B} (m : result A) (k : A -> result B) : result B :=
  match m with
  | Ok a => k a
  | Raise e => Raise e
  end.

Notation "x <- m ;; k" := (bind m (fun x => k))
  (at level 61, m at next level, right associativity).

Fixpoint mapM {A B} (f : A -> result B) (l : list A) : result (list B) :=
  match l with
  | [] => Ok []
  | a :: rest => b <- f a ;; bs <- mapM f rest ;; Ok (b :: bs)
  end.

Lemma mapM_ok {A B} (f : A -> result B) (P : B -> Prop) (l : list A) :
  (forall a, exists b, f a = Ok b /\ P b) ->
  exists bs, mapM f l = Ok bs /\ Forall P bs /\ List.length bs = List.length l.
Proof.
  intros H. induction l as [|a l [bs [E [F L]]]]; simpl.
  - exists []. repeat split; constructor.
  - destruct (H a) as [b [Eb Pb]]. rewrite Eb, E. simpl.
    exists (b :: bs). repeat split; simpl; auto.
Qed.

Lemma mapM_inv {A B} (f : A -> result B) (l : list A) (bs : list B) :
  mapM f l = Ok bs -> forall b, In b bs -> exists a, In a l /\ f a = Ok b.
Proof.
  revert bs. induction l as [|a l IH]; simpl; intros bs E b I.
  - inversion E; subst. contradiction.
  - destruct (f a) as [b0|] eqn:Ea; simpl in E; [|discriminate].
    destruct (mapM f l) as [bs0|] eqn:El; simpl in E; [|discriminate].
    inversion E; subst. destruct I as [->|I].
    + exists a. auto.
    + destruct (IH bs0 eq_refl b I) as [a' [Ia Ea']]. exists a'. auto.
Qed.

End Py.

(** ** Cumulative series of expiring units

    [create_visualizations_altair.py], lines 188-192, and [app.py], lines
    402-425. *)

Module Cumulative.

Import Py.

(** A row of [expiring_units.csv]. *)
Record expiration_event := {
  city : string;
  year : Z;
  expiring_units : Z;
  policy_type : string
}.

(** A row of the cumulative table. *)
Record cumulative_row := {
  c_city : string;
  c_year : Z;
  c_expiring : Z;
  c_cumulative : Z
}.

Definition triple : Type := (string * Z) * Z.

Definition triples (rows : list expiration_event) : list triple :=
  map (fun e => ((city e, year e), expiring_units e)) rows.

(** [groupby(['city', 'year']).agg({'expiring_units': 'sum'}).reset_index()] *)
Definition summary (rows : list expiration_event) : list triple :=
  agg Int64.sum (groupby (triples rows)).

Definition set_total (tot : string -> Z) (c : string) (t : Z) : string -> Z :=
  fun c' => if String.eqb c' c then t else tot c'.

(** [groupby('city')['expiring_units'].cumsum()]: each row gets the total
    of its city's rows up to and including itself, in frame order. *)
Fixpoint cumsum_from (tot : string -> Z) (l : list triple) : list cumulative_row :=
  match l with
  | [] => []
  | ((c, y), v) :: rest =>
      let t := Int64.add (tot c) v in
      {| c_city := c; c_year := y; c_expiring := v; c_cumulative := t |}
        :: cumsum_from (set_total tot c t) rest
  end.

Definition groupby_cumsum (l : list triple) : list cumulative_row :=
  cumsum_from (fun _ => 0) l.

(** Lines 188-192 on a table that has rows: sum per (city, year), sort,
    running total per city. *)
Definition cumulative_table (rows : list expiration_event) : list cumulative_row :=
  groupby_cumsum (sort_values (summary rows)).

(** [expiring_cumulative] of [create_visualizations_altair.py].  A file
    without a record gives columns without a numeric type, on which the
    [cumsum] of line 192 raises a [TypeError]. *)
Definition expiring_cumulative (rows : list expiration_event)
  : result (list cumulative_row) :=
  match rows with
  | [] => Raise TypeError
  | _ => Ok (cumulative_table rows)
  end.

(** The rows of the selected year range, [app.py], lines 396-399. *)
Definition df_filtered (year_range : Z * Z) (rows : list expiration_event) :=
  filter (fun e => (fst year_range <=? year e) && (year e <=? snd year_range)) rows.

(** [df_cumulative] of [app.py]: the same table on the rows of the
    selected year range.  A list without a record gives a frame without
    columns, and the page stops with a [KeyError] where it first reads the
    year column, line 390. *)
Definition df_cumulative (year_range : Z * Z) (rows : list expiration_event)
  : result (list cumulative_row) :=
  match rows with
  | [] => Raise KeyError
  | _ => Ok (cumulative_table (df_filtered year_range rows))
  end.

(** *** The builder as the specification words it

    Sum the duplicate (group, year) pairs, sort by (group, year), then run
    a sum that starts afresh at each group boundary.  The sums are sums of
    integers: nothing is reduced to 64 bits. *)

Definition sum_duplicates (ts : list triple) : list triple :=
  map (fun k => (k, Int64.exact_sum (values_of k ts))) (first_seen (keys ts)).

Fixpoint running_sum (prev : option (string * Z)) (l : list triple) : list cumulative_row :=
  match l with
  | [] => []
  | ((c, y), v) :: rest =>
      let t := match prev with
               | Some (c0, acc) => if String.eqb c c0 then acc + v else v
               | None => v
               end in
      {| c_city := c; c_year := y; c_expiring := v; c_cumulative := t |}
        :: running_sum (Some (c, t)) rest
  end.

Definition cumulative_series (ts : list triple) : list cumulative_row :=
  running_sum None (sort_values (sum_duplicates ts)).

(** Both values of the row fit a signed 64-bit integer. *)
Definition fits (r : cumulative_row) : Prop :=
  Int64.in_range (c_expiring r) /\ Int64.in_range (c_cumulative r).

(** The row with both values reduced to 64 bits. *)
Definition to_int64 (r : cumulative_row) : cumulative_row :=
  {| c_city := c_city r; c_year := c_year r;
     c_expiring := Int64.wrap (c_expiring r);
     c_cumulative := Int64.wrap (c_cumulative r) |}.

(** *** Facts *)

Lemma get_map_keys {B} (f : string * Z -> B) (ks : list (string * Z)) k :
  get k (map (fun k => (k, f k)) ks) = if in_dec key_eq_dec k ks then Some (f k) else None.
Proof.
  induction ks as [|k0 ks IH]; simpl; auto.
  destruct (eqb_key k k0) eqn:E.
  - apply eqb_key_true in E. subst.
    destruct (key_eq_dec k0 k0); [reflexivity | congruence].
  - apply eqb_key_false in E. rewrite IH.
    destruct (key_eq_dec k0 k); [congruence|].
    destruct (in_dec key_eq_dec k ks); reflexivity.
Qed.

Lemma keys_sum_duplicates (ts : list triple) : keys (sum_duplicates ts) = first_seen (keys ts).
Proof.
  unfold sum_duplicates, keys. rewrite map_map. simpl. apply map_id.
Qed.

Lemma groups_ascending {B} (f : list Z -> B) (ts : list triple) :
  ascending (agg f (groupby ts)).
Proof. apply ascending_agg, ascending_groupby. Qed.

Lemma summary_ascending (ts : list triple) : ascending (agg Int64.sum (groupby ts)).
Proof. apply groups_ascending. Qed.

(** Summing the duplicates and sorting gives the groups of the [groupby],
    each with the exact sum of its values. *)
Lemma sort_sum_duplicates (ts : list triple) :
  sort_values (sum_duplicates ts) = agg Int64.exact_sum (groupby ts).
Proof.
  assert (N : NoDup (keys (sum_duplicates ts))).
  { rewrite keys_sum_duplicates. apply first_seen_nodup. }
  apply ascending_ext.
  - now apply sort_values_ascending.
  - apply groups_ascending.
  - intros k. rewrite (get_perm _ _ k (sort_values_perm _)).
    2:{ eapply Permutation_NoDup; [|exact N].
        unfold keys. now rewrite sort_values_perm. }
    rewrite get_agg, get_groupby. unfold sum_duplicates.
    rewrite get_map_keys.
    pose proof (values_of_nil_iff k ts) as V.
    destruct (in_dec key_eq_dec k (first_seen (keys ts))) as [I|I];
      rewrite first_seen_in in I.
    + destruct (values_of k ts) eqn:E; [|reflexivity].
      exfalso. now apply (proj1 V).
    + apply V in I. now rewrite I.
Qed.

(** A summed row with its value reduced to 64 bits. *)
Definition wrap_value (r : triple) : triple := (fst r, Int64.wrap (snd r)).

(** The sums of the programs' [groupby] are the exact sums reduced to 64
    bits. *)
Lemma summary_wraps (ts : list triple) :
  agg Int64.sum (groupby ts) = map wrap_value (agg Int64.exact_sum (groupby ts)).
Proof.
  unfold agg. rewrite map_map. apply map_ext. intros [k l].
  unfold wrap_value. cbn [fst snd]. now rewrite Int64.sum_wrap.
Qed.

Definition city_le (c c' : string) : Prop := cmp c c' <> Gt.

Lemma ascending_city_le (c : string) (y v : Z) (l : list triple) :
  ascending (((c, y), v) :: l) ->
  forall c' y' v', In ((c', y'), v') l -> city_le c c'.
Proof.
  intros S c' y' v' I. apply ascending_cons in S. destruct S as [_ F].
  rewrite Forall_forall in F.
  assert (X : In (c', y') (keys l)).
  { change (c', y') with (fst ((c', y'), v')). now apply in_map. }
  specialize (F (c', y') X). unfold lt in F.
  change (cmp_pair (c, y) (c', y') = Lt) in F. unfold cmp_pair in F.
  cbn [fst snd] in F. unfold city_le.
  destruct (cmp c c'); congruence.
Qed.

(** The running total the builder carries into a row of city [c]. *)
Definition carried (prev : option (string * Z)) (c : string) : Z :=
  match prev with
  | Some (c0, acc) => if String.eqb c c0 then acc else 0
  | None => 0
  end.

Definition total_agrees (tot : string -> Z) (prev : option (string * Z)) (c : string) : Prop :=
  tot c = Int64.wrap (carried prev c).

Definition prev_le (prev : option (string * Z)) (c : string) : Prop :=
  match prev with Some (c0, _) => city_le c0 c | None => True end.

Lemma wrap_0 : Int64.wrap 0 = 0.
Proof. reflexivity. Qed.

(** On a frame sorted by (city, year) the per-city running totals of the
    64-bit column are the running sums that restart where the city
    changes, reduced to 64 bits. *)
Lemma cumsum_running (l : list triple) :
  forall tot prev,
    ascending l ->
    (forall c y v, In ((c, y), v) l -> total_agrees tot prev c /\ prev_le prev c) ->
    cumsum_from tot (map wrap_value l) = map to_int64 (running_sum prev l).
Proof.
  induction l as [|[[c y] v] l IH]; intros tot prev S A; [reflexivity|].
  cbn [map wrap_value fst snd cumsum_from running_sum].
  destruct (A c y v (or_introl eq_refl)) as [T _].
  set (t := match prev with
            | Some (c0, acc) => if String.eqb c c0 then acc + v else v
            | None => v
            end).
  assert (Et : t = carried prev c + v).
  { unfold t, carried. destruct prev as [[c0 acc]|]; [|lia].
    destruct (String.eqb c c0); lia. }
  assert (E : Int64.add (tot c) (Int64.wrap v) = Int64.wrap t).
  { unfold total_agrees in T. rewrite T, Et. unfold Int64.add.
    now rewrite Int64.wrap_add_l, Int64.wrap_add_r. }
  unfold to_int64 at 1. cbn [c_city c_year c_expiring c_cumulative].
  rewrite E. f_equal. apply IH.
  - apply ascending_cons in S. tauto.
  - intros c' y' v' I.
    pose proof (ascending_city_le _ _ _ _ S _ _ _ I) as L.
    split; [|exact L].
    unfold total_agrees, set_total, carried.
    destruct (String.eqb c' c) eqn:Ec; [reflexivity|].
    destruct (A c' y' v' (or_intror I)) as [T' P'].
    unfold total_agrees, carried in T'. rewrite T'.
    destruct prev as [[c0 acc]|]; [|reflexivity].
    destruct (String.eqb c' c0) eqn:E0; [|reflexivity].
    apply String.eqb_eq in E0. subst c0. exfalso.
    apply String.eqb_neq in Ec.
    destruct (A c y v (or_introl eq_refl)) as [_ P].
    unfold prev_le, city_le in *.
    destruct (cmp c c') eqn:C1.
    + apply cmp_eq in C1. congruence.
    + apply cmp_gt_lt in C1. congruence.
    + congruence.
Qed.

(** The table of the programs is the builder's table with every sum
    reduced to 64 bits. *)
Lemma table_is_wrapped_series (ts : list triple) :
  groupby_cumsum (sort_values (agg Int64.sum (groupby ts)))
  = map to_int64 (cumulative_series ts).
Proof.
  unfold cumulative_series. rewrite sort_sum_duplicates.
  rewrite sort_values_id by apply summary_ascending.
  rewrite summary_wraps. apply cumsum_running.
  - apply groups_ascending.
  - intros c y v _. split; [|exact I].
    unfold total_agrees, carried. symmetry. exact wrap_0.
Qed.

Lemma to_int64_fits (r : cumulative_row) : to_int64 r = r <-> fits r.
Proof.
  destruct r as [c y v t]. unfold to_int64, fits.
  cbn [c_city c_year c_expiring c_cumulative]. split.
  - intros E. inversion E as [[Ev Et]]. rewrite Ev, Et.
    split; [rewrite <- Ev|rewrite <- Et]; apply Int64.wrap_range.
  - intros [Rv Rt]. now rewrite !Int64.wrap_id.
Qed.

Lemma map_to_int64_fits (l : list cumulative_row) :
  Forall fits l <-> map to_int64 l = l.
Proof.
  induction l as [|r l IH]; cbn [map].
  - split; [reflexivity|constructor].
  - split.
    + intros F. inversion F as [|? ? Fr Fl]; subst.
      f_equal; [now apply to_int64_fits|now apply IH].
    + intros E. injection E as Er El. constructor.
      * now apply to_int64_fits.
      * now apply IH.
Qed.

Lemma table_of_rows (rows : list expiration_event) :
  cumulative_table rows = map to_int64 (cumulative_series (triples rows)) /\
  (Forall fits (cumulative_series (triples rows)) <->
   cumulative_table rows = cumulative_series (triples rows)).
Proof.
  assert (E : cumulative_table rows
              = map to_int64 (cumulative_series (triples rows)))
    by apply table_is_wrapped_series.
  split; [exact E|]. rewrite E. apply map_to_int64_fits.
Qed.

(** C3, as amended. On a table that has rows, the cumulative table of
    both programs is the table obtained by first summing the duplicate
    (city, year) pairs, then sorting by (city, year) ascending, then
    running a per-city sum that restarts at each city, with every sum
    reduced to a signed 64-bit integer; it is the table of the sums
    themselves exactly when every per-year sum and every running sum fits a
    signed 64-bit integer.  Three rows (A, 2025, 100), (A, 2025, 50),
    (A, 2026, 10) give (A, 2025, 150) with cumulative 150, then
    (A, 2026, 10) with cumulative 160. *)
Theorem cumulative_is_sum_sort_accumulate :
  (forall rows out,
     expiring_cumulative rows = Ok out ->
     out = map to_int64 (cumulative_series (triples rows)) /\
     (Forall fits (cumulative_series (triples rows)) <->
      out = cumulative_series (triples rows))) /\
  (forall year_range rows out,
     df_cumulative year_range rows = Ok out ->
     out = map to_int64 (cumulative_series (triples (df_filtered year_range rows))) /\
     (Forall fits (cumulative_series (triples (df_filtered year_range rows))) <->
      out = cumulative_series (triples (df_filtered year_range rows)))) /\
  (forall a p1 p2 p3,
      expiring_cumulative
        [ {| city := a; year := 2025; expiring_units := 100; policy_type := p1 |};
          {| city := a; year := 2025; expiring_units := 50; policy_type := p2 |};
          {| city := a; year := 2026; expiring_units := 10; policy_type := p3 |} ]
      = Ok [ {| c_city := a; c_year := 2025; c_expiring := 150; c_cumulative := 150 |};
             {| c_city := a; c_year := 2026; c_expiring := 10; c_cumulative := 160 |} ]).
Proof.
  split; [|split].
  - intros rows out E. destruct rows as [|e rows]; [discriminate|].
    inversion E; subst. apply table_of_rows.
  - intros yr rows out E. destruct rows as [|e rows]; [discriminate|].
    inversion E; subst. apply table_of_rows.
  - intros a p1 p2 p3.
    assert (E1 : cmp (a, 2025) (a, 2025) = Eq) by apply cmp_refl.
    assert (E2 : cmp (a, 2026) (a, 2025) = Gt).
    { change (cmp_pair (a, 2026) (a, 2025) = Gt). unfold cmp_pair.
      cbn [fst snd]. now rewrite cmp_refl. }
    unfold expiring_cumulative. f_equal.
    unfold cumulative_table, summary, triples, groupby, groupby_from.
    cbn [map fold_left fst snd city year expiring_units upsert].
    rewrite E1. cbn [app upsert]. rewrite E2. cbn [upsert agg map fst snd].
    rewrite sort_values_id.
    2:{ apply ascending_cons. split.
        - apply ascending_cons. split; constructor.
        - constructor; [|constructor]. apply cmp_gt_lt. exact E2. }
    unfold groupby_cumsum, cumsum_from, set_total.
    rewrite String.eqb_refl. reflexivity.
Qed.

Definition three_rows : list expiration_event :=
  [ {| city := "A"; year := 2025; expiring_units := 100; policy_type := "LIHTC" |};
    {| city := "A"; year := 2025; expiring_units := 50; policy_type := "Section 8" |};
    {| city := "A"; year := 2026; expiring_units := 10; policy_type := "LIHTC" |} ].

Definition two_large_years : list expiration_event :=
  [ {| city := "A"; year := 2025; expiring_units := 2 ^ 62; policy_type := "LIHTC" |};
    {| city := "A"; year := 2026; expiring_units := 2 ^ 62; policy_type := "LIHTC" |} ].

(** Two records of 2^62 units in the same year. *)
Definition two_large_records : list expiration_event :=
  [ {| city := "A"; year := 2025; expiring_units := 2 ^ 62; policy_type := "LIHTC" |};
    {| city := "A"; year := 2025; expiring_units := 2 ^ 62; policy_type := "Section 8" |} ].

Lemma cumulative_is_sum_sort_accumulate_witness :
  exists out,
    expiring_cumulative three_rows = Ok out /\
    out = cumulative_series (triples three_rows).
Proof.
  exists (cumulative_table three_rows). split; [reflexivity|].
  destruct cumulative_is_sum_sort_accumulate as [T _].
  apply (T three_rows (cumulative_table three_rows) eq_refl).
  apply Forall_forall. intros r I. vm_compute in I.
  destruct I as [<-|[<-|[]]]; split; split; discriminate.
Defined.

(** Where a sum does not fit 64 bits the programs do not hold the sum:
    two years of 2^62 units give the cumulative value -2^63 where the sum
    is 2^63, and two records of 2^62 units in one year give -2^63 for that
    year.  On a table without a row the programs stop where the builder
    has an empty table. *)
Lemma cumulative_is_not_the_sum :
  (exists out,
     expiring_cumulative two_large_years = Ok out /\
     map c_cumulative out = [2 ^ 62; - 2 ^ 63] /\
     map c_cumulative (cumulative_series (triples two_large_years))
       = [2 ^ 62; 2 ^ 63] /\
     out <> cumulative_series (triples two_large_years)) /\
  (exists out,
     expiring_cumulative two_large_records = Ok out /\
     map c_expiring out = [- 2 ^ 63] /\
     map c_expiring (cumulative_series (triples two_large_records)) = [2 ^ 63]) /\
  expiring_cumulative [] = Raise TypeError /\
  (forall year_range, df_cumulative year_range [] = Raise KeyError) /\
  cumulative_series (triples []) = [].
Proof.
  split; [|split; [|split; [|split]]].
  - eexists. split; [reflexivity|]. split; [vm_compute; reflexivity|].
    split; [vm_compute; reflexivity|]. intros E.
    apply (f_equal (map c_cumulative)) in E. vm_compute in E. discriminate.
  - eexists. split; [reflexivity|]. split; vm_compute; reflexivity.
  - reflexivity.
  - reflexivity.
  - reflexivity.
Qed.

(** *** Growth of the cumulative column *)

Definition group_rows (c : string) (out : list cumulative_row) : list cumulative_row :=
  filter (fun r => String.eqb (c_city r) c) out.

(** The rows of city [c] carry non-negative per-year values. *)
Definition nonnegative_group (c : string) (out : list cumulative_row) : Prop :=
  Forall (fun r => 0 <= c_expiring r) (group_rows c out).

(** The rows of city [c] come in ascending year order. *)
Definition years_ascend (c : string) (out : list cumulative_row) : Prop :=
  StronglySorted Z.lt (map c_year (group_rows c out)).

(** Along the rows of city [c] the cumulative column never decreases. *)
Definition nondecreasing (c : string) (out : list cumulative_row) : Prop :=
  StronglySorted Z.le (map c_cumulative (group_rows c out)).

(** The exact total of city [c] fits a signed 64-bit integer. *)
Definition total_fits (c : string) (out : list cumulative_row) : Prop :=
  Int64.exact_sum (map c_expiring (group_rows c out)) <= Int64.max_int.

Lemma set_total_same tot c t : set_total tot c t c = t.
Proof. unfold set_total. now rewrite String.eqb_refl. Qed.

Lemma set_total_other tot c t c' : c' <> c -> set_total tot c t c' = tot c'.
Proof. unfold set_total. intros N. apply String.eqb_neq in N. now rewrite N. Qed.

Lemma cumsum_from_grows (c : string) (l : list triple) :
  forall tot,
    Int64.min_int <= tot c ->
    nonnegative_group c (cumsum_from tot l) ->
    tot c + Int64.exact_sum (map c_expiring (group_rows c (cumsum_from tot l))) <= Int64.max_int ->
    StronglySorted Z.le (map c_cumulative (group_rows c (cumsum_from tot l))) /\
    Forall (fun x => tot c <= x) (map c_cumulative (group_rows c (cumsum_from tot l))).
Proof.
  unfold nonnegative_group, group_rows.
  induction l as [|[[c' y] v] l IH]; intros tot Lo NN Fit; simpl in *.
  - split; constructor.
  - destruct (String.eqb c' c) eqn:E; simpl in *.
    + apply String.eqb_eq in E. subst c'.
      inversion NN as [|? ? V NN']; subst. simpl in V.
      assert (S0 : 0 <= Int64.exact_sum (map c_expiring
                 (filter (fun r => String.eqb (c_city r) c)
                    (cumsum_from (set_total tot c (Int64.add (tot c) v)) l)))).
      { clear - NN'. induction NN' as [|r rs P _ IHr]; simpl; [lia|].
        unfold Int64.exact_sum in *. simpl. lia. }
      assert (T : Int64.add (tot c) v = tot c + v).
      { apply Int64.add_exact. unfold Int64.in_range. lia. }
      rewrite T in *.
      destruct (IH (set_total tot c (tot c + v))) as [S F]; auto.
      * rewrite set_total_same. lia.
      * rewrite set_total_same. lia.
      * rewrite set_total_same in F. split.
        -- constructor; auto.
        -- constructor; [lia|]. eapply Forall_impl; [|exact F].
           simpl. intros. lia.
    + apply String.eqb_neq in E.
      destruct (IH (set_total tot c' (Int64.add (tot c') v))) as [S F]; auto.
      * rewrite set_total_other by congruence. lia.
      * rewrite set_total_other by congruence. lia.
      * rewrite set_total_other in F by congruence. split; auto.
Qed.

Lemma keys_cumsum_from tot (l : list triple) :
  map (fun r => (c_city r, c_year r)) (cumsum_from tot l) = keys l.
Proof.
  revert tot. induction l as [|[[c y] v] l IH]; intros tot; simpl; auto.
  now rewrite IH.
Qed.

Lemma years_of_city_ascend (c : string) (ks : list (string * Z)) :
  StronglySorted lt ks ->
  StronglySorted Z.lt (map snd (filter (fun k => String.eqb (fst k) c) ks)).
Proof.
  induction 1 as [|[c' y] ks S IH F]; simpl; [constructor|].
  destruct (String.eqb c' c) eqn:E; simpl; auto.
  apply String.eqb_eq in E. subst c'.
  constructor; auto.
  apply Forall_forall. intros y' Hy.
  apply in_map_iff in Hy. destruct Hy as [[c2 y2] [<- I]].
  apply filter_In in I. destruct I as [I Ec]. simpl in Ec.
  apply String.eqb_eq in Ec. subst c2.
  rewrite Forall_forall in F. specialize (F _ I). unfold lt in F.
  change (cmp_pair (c, y) (c, y2) = Lt) in F. unfold cmp_pair in F.
  cbn [fst snd] in F. rewrite cmp_refl in F. simpl.
  now apply Z.compare_lt_iff.
Qed.

Lemma group_rows_years (c : string) (out : list cumulative_row) :
  map c_year (group_rows c out) =
  map snd (filter (fun k => String.eqb (fst k) c)
             (map (fun r => (c_city r, c_year r)) out)).
Proof.
  unfold group_rows. induction out as [|r out IH]; simpl; auto.
  destruct (String.eqb (c_city r) c); simpl; now rewrite IH.
Qed.

Lemma builder_grows (ts : list triple) (c : string) :
  let out := groupby_cumsum (sort_values (agg Int64.sum (groupby ts))) in
  nonnegative_group c out -> total_fits c out ->
  years_ascend c out /\ nondecreasing c out.
Proof.
  intros out NN Fit. split.
  - unfold years_ascend. rewrite group_rows_years.
    unfold out, groupby_cumsum. rewrite keys_cumsum_from.
    apply years_of_city_ascend.
    rewrite sort_values_id by apply summary_ascending.
    apply summary_ascending.
  - unfold nondecreasing, out, groupby_cumsum.
    apply cumsum_from_grows; auto.
    unfold Int64.min_int. lia.
Qed.

(** C4, as amended. In the cumulative table of either program, the rows
    of a city whose per-year values are all non-negative and whose exact
    total fits a signed 64-bit integer come in ascending year order with a
    cumulative column that never decreases. *)
Theorem cumulative_nondecreasing (out : list cumulative_row) (c : string) :
  (exists rows, expiring_cumulative rows = Ok out) \/
  (exists year_range rows, df_cumulative year_range rows = Ok out) ->
  nonnegative_group c out ->
  total_fits c out ->
  years_ascend c out /\ nondecreasing c out.
Proof.
  intros [[rows E]|[yr [rows E]]];
    (destruct rows as [|e rows]; [discriminate|]); inversion E; subst.
  - apply (builder_grows (triples (e :: rows))).
  - apply (builder_grows (triples (df_filtered yr (e :: rows)))).
Qed.

Lemma cumulative_nondecreasing_witness :
  exists out,
    expiring_cumulative three_rows = Ok out /\
    nonnegative_group "A" out /\ nondecreasing "A" out.
Proof.
  exists (cumulative_table three_rows). split; [reflexivity|].
  assert (NN : nonnegative_group "A" (cumulative_table three_rows)).
  { vm_compute. repeat constructor; discriminate. }
  split; [exact NN|].
  apply cumulative_nondecreasing; [left; exists three_rows; reflexivity|exact NN|].
  vm_compute. discriminate.
Defined.

(** Two years of 2^62 units each: both per-year values are non-negative,
    yet the running total wraps to -2^63 in the second year. *)
Lemma cumulative_wraps_around :
  exists out,
    expiring_cumulative two_large_years = Ok out /\
    nonnegative_group "A" out /\
    map c_cumulative out = [2 ^ 62; - 2 ^ 63] /\
    ~ nondecreasing "A" out.
Proof.
  exists (cumulative_table two_large_years). split; [reflexivity|].
  split; [|split].
  - vm_compute. repeat constructor; discriminate.
  - vm_compute. reflexivity.
  - intros S. vm_compute in S.
    inversion S as [|? ? _ F]; subst.
    inversion F as [|? ? L _]; subst.
    apply L. reflexivity.
Qed.

End Cumulative.

(** ** Binary64 arithmetic

    A finite [float64] is a rational with a 53-bit significand; every
    operation returns the exact result rounded to the nearest such number,
    ties to even.  The exponent range is left unbounded: the quantities of
    these programs are counts below 2^63, quotients of such counts and
    price indices, none of which overflows or falls in the subnormal
    range.  The sign of a zero is not tracked: every divisor in the
    programs is a converted integer, whose zero is [+0.0]. *)

Module B64.

Local Open Scope Q_scope.

(** Nearest integer, ties to even. *)
Definition rne (x : Q) : Z :=
  let f := Qfloor x in
  match Qcompare (x - inject_Z f) (1 # 2) with
  | Lt => f
  | Gt => (f + 1)%Z
  | Eq => if Z.even f then f else (f + 1)%Z
  end.

(** The exponent [e] with [2^e <= a < 2^(e+1)], for positive [a]. *)
Definition binade (a : Q) : Z :=
  let e0 := (Z.log2 (Qnum a) - Z.log2 (Zpos (Qden a)))%Z in
  if Qle_bool (2 ^ e0) a then e0 else (e0 - 1)%Z.

(** Positive [a] rounded to a multiple of [2^(e-52)]. *)
Definition round_pos (a : Q) : Q :=
  let ulp := 2 ^ (binade a - 52) in
  inject_Z (rne (a / ulp)) * ulp.

(** Rounding to nearest; the result is in lowest terms. *)
Definition rnd (x : Q) : Q :=
  let x := Qred x in
  match Qnum x with
  | Z0 => 0
  | Zpos _ => Qred (round_pos x)
  | Zneg _ => Qred (- round_pos (- x))
  end.


(** Unit roundoff of the format. *)
Definition u : Q := 2 ^ (-53).

Lemma inject_Z_succ z : inject_Z (z + 1) == inject_Z z + 1.
Proof. now rewrite inject_Z_plus. Qed.

Lemma rne_err x : Qabs (inject_Z (rne x) - x) <= 1 # 2.
Proof.
  unfold rne. pose proof (Qfloor_le x) as L. pose proof (Qlt_floor x) as U.
  rewrite inject_Z_succ in U.
  apply Qabs_Qle_condition.
  destruct (Qcompare_spec (x - inject_Z (Qfloor x)) (1 # 2)) as [E|E|E].
  - destruct (Z.even (Qfloor x)); [|rewrite inject_Z_succ]; lra.
  - lra.
  - rewrite inject_Z_succ. lra.
Qed.

Lemma pow2_pos e : 0 < 2 ^ e.
Proof. apply Qpower_0_lt. reflexivity. Qed.

Lemma pow2_plus a b : 2 ^ (a + b) == 2 ^ a * 2 ^ b.
Proof. apply Qpower_plus. discriminate. Qed.

Lemma pow2_Z k : (0 <= k)%Z -> inject_Z (2 ^ k) == 2 ^ k.
Proof. intros. now rewrite Zpower_Qpower. Qed.

Lemma binade_le a : 0 < a -> 2 ^ binade a <= a.
Proof.
  intros P. unfold binade.
  destruct (Qle_bool (2 ^ (Z.log2 (Qnum a) - Z.log2 (Z.pos (Qden a)))) a) eqn:B.
  - now apply Qle_bool_iff.
  - clear B. destruct a as [n d]. cbn [Qnum Qden].
    set (ln := Z.log2 n). set (ld := Z.log2 (Z.pos d)).
    assert (Pn : (0 < n)%Z).
    { unfold Qlt in P. simpl in P. lia. }
    assert (Hn : (2 ^ ln <= n)%Z) by (apply Z.log2_spec; assumption).
    assert (Hd : (Z.pos d < 2 ^ (ld + 1))%Z).
    { replace (ld + 1)%Z with (Z.succ ld) by lia. apply Z.log2_spec. lia. }
    assert (L0 : (0 <= ln)%Z) by apply Z.log2_nonneg.
    assert (L1 : (0 <= ld)%Z) by apply Z.log2_nonneg.
    rewrite (Qmake_Qdiv n d).
    apply Qle_shift_div_l; [reflexivity|].
    apply Qle_trans with (2 ^ (ln - ld - 1) * 2 ^ (ld + 1)).
    + apply Qmult_le_l; [apply pow2_pos|].
      rewrite <- pow2_Z by lia. rewrite <- Zle_Qle. lia.
    + rewrite <- pow2_plus. replace (ln - ld - 1 + (ld + 1))%Z with ln by lia.
      rewrite <- pow2_Z by lia. now rewrite <- Zle_Qle.
Qed.

Lemma round_pos_err a : 0 < a -> Qabs (round_pos a - a) <= u * a.
Proof.
  intros P. unfold round_pos.
  set (e := binade a). set (ulp := 2 ^ (e - 52)).
  assert (Hu : 0 < ulp) by apply pow2_pos.
  pose proof (rne_err (a / ulp)) as R.
  assert (E : inject_Z (rne (a / ulp)) * ulp - a ==
              (inject_Z (rne (a / ulp)) - a / ulp) * ulp).
  { field. lra. }
  rewrite E, Qabs_Qmult. rewrite (Qabs_pos ulp) by now apply Qlt_le_weak.
  apply Qle_trans with ((1 # 2) * ulp).
  - apply Qmult_le_compat_r; lra.
  - apply Qle_trans with (u * 2 ^ e).
    + unfold ulp, u.
      replace (e - 52)%Z with (-52 + e)%Z by lia.
      rewrite pow2_plus, Qmult_assoc.
      apply Qmult_le_compat_r; [|apply Qlt_le_weak, pow2_pos].
      apply Qle_lteq. right. reflexivity.
    + apply Qmult_le_l; [apply pow2_pos|]. now apply binade_le.
Qed.

Lemma Qnum_sign (x : Q) :
  match Qnum x with
  | Z0 => x == 0
  | Zpos _ => 0 < x
  | Zneg _ => x < 0
  end.
Proof. destruct x as [[|p|p] d]; unfold Qeq, Qlt; simpl; lia. Qed.

Theorem rnd_err x : Qabs (rnd x - x) <= u * Qabs x.
Proof.
  unfold rnd. pose proof (Qnum_sign (Qred x)) as S.
  pose proof (Qred_correct x) as C.
  assert (U : 0 < u) by apply pow2_pos.
  destruct (Qnum (Qred x)).
  - rewrite <- C, S. change (Qabs (0 - 0)) with 0. change (Qabs 0) with 0.
    rewrite Qmult_0_r. apply Qle_refl.
  - rewrite Qred_correct. rewrite <- C at 2 3.
    rewrite (Qabs_pos (Qred x)) by lra. now apply round_pos_err.
  - rewrite Qred_correct. rewrite <- C at 2 3.
    rewrite (Qabs_neg (Qred x)) by lra.
    assert (P : 0 < - Qred x) by lra.
    pose proof (round_pos_err _ P) as R.
    rewrite <- Qabs_opp.
    assert (E : - (- round_pos (- Qred x) - Qred x) == round_pos (- Qred x) - - Qred x) by ring.
    now rewrite E.
Qed.

Theorem rnd_proper x y : x == y -> rnd x = rnd y.
Proof. intros E. unfold rnd. now rewrite (Qred_complete _ _ E). Qed.

Lemma Qred_idem x : Qred (Qred x) = Qred x.
Proof. apply Qred_complete, Qred_correct. Qed.

Theorem rnd_canonical x : Qred (rnd x) = rnd x.
Proof.
  unfold rnd. destruct (Qnum (Qred x)); auto using Qred_idem.
Qed.

Lemma Qopp_opp_eq (q : Q) : - - q = q.
Proof. destruct q as [n d]. unfold Qopp. simpl. now rewrite Z.opp_involutive. Qed.

Theorem rnd_opp x : rnd (- x) = - rnd x.
Proof.
  unfold rnd. rewrite Qred_opp.
  destruct (Qred x) as [[|p|p] d] eqn:E; cbn [Qnum Qopp Z.opp Qden].
  - reflexivity.
  - rewrite Qred_opp. reflexivity.
  - rewrite Qred_opp, Qopp_opp_eq. reflexivity.
Qed.

Theorem rnd_nonneg x : 0 <= x -> 0 <= rnd x.
Proof.
  intros P. pose proof (rnd_err x) as E. rewrite (Qabs_pos x) in E by assumption.
  apply Qabs_Qle_condition in E.
  assert (U : u <= 1) by (unfold Qle; simpl; lia).
  assert (u * x <= x).
  { rewrite <- (Qmult_1_l x) at 2. now apply Qmult_le_compat_r. }
  lra.
Qed.

Theorem rnd_pos x : 0 < x -> 0 < rnd x.
Proof.
  intros P. pose proof (rnd_err x) as E.
  rewrite (Qabs_pos x) in E by now apply Qlt_le_weak.
  apply Qabs_Qle_condition in E.
  assert (U : u <= 1 # 2) by (unfold Qle; simpl; lia).
  assert (u * x <= (1 # 2) * x).
  { apply Qmult_le_compat_r; auto. now apply Qlt_le_weak. }
  lra.
Qed.

Theorem rnd_0 : rnd 0 = 0.
Proof. reflexivity. Qed.

(** *** Values and operations *)

Inductive float : Type :=
| NaN : float
| Inf (negative : bool) : float
| Fin (q : Q) : float.

Definition is_nan (x : float) : bool :=
  match x with NaN => true | _ => false end.

Definition Qis_zero (q : Q) : bool := Z.eqb (Qnum q) 0.
Definition Qis_neg (q : Q) : bool := Z.ltb (Qnum q) 0.
Definition Qltb (a b : Q) : bool := negb (Qle_bool b a).

(** A rational literal or an exact quantity, rounded into the format. *)
Definition of_Q (q : Q) : float := Fin (rnd q).

(** Conversion of an integer. *)
Definition of_Z (z : Z) : float := of_Q (inject_Z z).

Definition neg (x : float) : float :=
  match x with
  | NaN => NaN
  | Inf s => Inf (negb s)
  | Fin q => Fin (- q)
  end.

Definition add (x y : float) : float :=
  match x, y with
  | NaN, _ | _, NaN => NaN
  | Inf s, Inf t => if Bool.eqb s t then Inf s else NaN
  | Inf s, Fin _ => Inf s
  | Fin _, Inf t => Inf t
  | Fin a, Fin b => Fin (rnd (a + b))
  end.

Definition sub (x y : float) : float := add x (neg y).

Definition mul (x y : float) : float :=
  match x, y with
  | NaN, _ | _, NaN => NaN
  | Inf s, Inf t => Inf (xorb s t)
  | Inf s, Fin b => if Qis_zero b then NaN else Inf (xorb s (Qis_neg b))
  | Fin a, Inf t => if Qis_zero a then NaN else Inf (xorb (Qis_neg a) t)
  | Fin a, Fin b => Fin (rnd (a * b))
  end.

(** Division as numpy performs it: a zero divisor gives NaN or an
    infinity, never an exception. *)
Definition div (x y : float) : float :=
  match x, y with
  | NaN, _ | _, NaN => NaN
  | Inf _, Inf _ => NaN
  | Inf s, Fin b => Inf (xorb s (Qis_neg b))
  | Fin _, Inf _ => Fin 0
  | Fin a, Fin b =>
      if Qis_zero b
      then (if Qis_zero a then NaN else Inf (Qis_neg a))
      else Fin (rnd (a / b))
  end.

(** [x < y]; false as soon as one side is NaN. *)
Definition ltb (x y : float) : bool :=
  match x, y with
  | NaN, _ | _, NaN => false
  | Inf s, Inf t => s && negb t
  | Inf s, Fin _ => s
  | Fin _, Inf t => negb t
  | Fin a, Fin b => Qltb a b
  end.

Definition gtb (x y : float) : bool := ltb y x.

(** [x >= 0]. *)
Definition nonneg (x : float) : Prop :=
  match x with
  | NaN => False
  | Inf s => s = false
  | Fin q => 0 <= q
  end.

(** [x < 0]. *)
Definition negative (x : float) : Prop :=
  match x with
  | NaN => False
  | Inf s => s = true
  | Fin q => q < 0
  end.

(** Sum of a column with pandas' default [skipna=True]. *)
Definition sum (l : list float) : float :=
  fold_left add (filter (fun x => negb (is_nan x)) l) (Fin 0).

(** Correctly rounded decimal rounding, as Python's [round(x, ndigits)]
    on a float: the exact value is rounded to [ndigits] decimals, ties to
    even, and the decimal is converted back to the nearest float. *)
Definition round_decimal (ndigits : Z) (x : float) : float :=
  match x with
  | Fin q => of_Q (inject_Z (rne (q * 10 ^ ndigits)) / 10 ^ ndigits)
  | _ => x
  end.

Lemma Qis_zero_iff q : Qis_zero q = true <-> q == 0.
Proof.
  unfold Qis_zero, Qeq. destruct q as [n d]. simpl.
  rewrite Z.eqb_eq. lia.
Qed.

Lemma Qis_neg_iff q : Qis_neg q = true <-> q < 0.
Proof.
  unfold Qis_neg, Qlt. destruct q as [n d]. simpl.
  rewrite Z.ltb_lt. lia.
Qed.

Lemma Qltb_iff a b : Qltb a b = true <-> a < b.
Proof.
  unfold Qltb. rewrite negb_true_iff.
  destruct (Qle_bool b a) eqn:E.
  - apply Qle_bool_iff in E. split; [discriminate|]. intros L. lra.
  - split; auto. intros _. apply Qnot_le_lt. intros L.
    apply Qle_bool_iff in L. congruence.
Qed.

(** *** Accumulated rounding error

    [approx k x y]: the computed, non-negative [x] is the exact [y] up to
    [k] roundings, each within a factor [c = (1 + u) / (1 - u)]. *)

Definition c : Q := (1 + u) / (1 - u).

Fixpoint cpow (k : nat) : Q :=
  match k with
  | O => 1
  | S k => c * cpow k
  end.

Definition approx (k : nat) (x y : Q) : Prop :=
  0 <= y /\ 0 <= x /\ y <= x * cpow k /\ x <= y * cpow k.

Lemma u_bounds : 0 < u /\ u < 1 # 2.
Proof. split; reflexivity. Qed.

Lemma c_spec : c * (1 - u) == 1 + u.
Proof. unfold c. field. pose proof u_bounds. lra. Qed.

Lemma c_ge : 1 + u <= c.
Proof.
  pose proof u_bounds as [U0 U1]. pose proof c_spec as S.
  assert (0 <= c * u).
  { assert (0 < c). { unfold c. apply Qlt_shift_div_l; lra. }
    apply Qmult_le_0_compat; lra. }
  lra.
Qed.

Lemma cpow_ge_1 k : 1 <= cpow k.
Proof.
  induction k; simpl; [lra|]. pose proof c_ge. pose proof u_bounds.
  assert (1 * 1 <= c * cpow k) by (apply Qmult_le_compat_nonneg; lra).
  lra.
Qed.

Lemma cpow_add j k : cpow (j + k) == cpow j * cpow k.
Proof. induction j; simpl; [ring|]. rewrite IHj. ring. Qed.

Lemma cpow_mono j k : (j <= k)%nat -> cpow j <= cpow k.
Proof.
  intros L. replace k with (j + (k - j))%nat by lia. rewrite cpow_add.
  pose proof (cpow_ge_1 j). pose proof (cpow_ge_1 (k - j)).
  rewrite <- (Qmult_1_r (cpow j)) at 1.
  apply Qmult_le_compat_nonneg; lra.
Qed.

Lemma rnd_bounds x : 0 <= x -> (1 - u) * x <= rnd x /\ rnd x <= (1 + u) * x.
Proof.
  intros P. pose proof (rnd_err x) as E. rewrite (Qabs_pos x) in E by assumption.
  apply Qabs_Qle_condition in E. lra.
Qed.

Lemma approx_refl y : 0 <= y -> approx 0 y y.
Proof. intros. unfold approx. simpl. lra. Qed.

Lemma approx_weaken j k x y : (j <= k)%nat -> approx j x y -> approx k x y.
Proof.
  intros L [A [B [C D]]]. pose proof (cpow_mono j k L) as M.
  pose proof (cpow_ge_1 j).
  unfold approx. repeat split; auto.
  - apply Qle_trans with (x * cpow j); auto. apply Qmult_le_compat_nonneg; lra.
  - apply Qle_trans with (y * cpow j); auto. apply Qmult_le_compat_nonneg; lra.
Qed.

Lemma approx_rnd k x y : approx k x y -> approx (S k) (rnd x) y.
Proof.
  intros [A [B [C D]]]. destruct (rnd_bounds x B) as [L U].
  pose proof u_bounds as [U0 U1]. pose proof c_spec as S. pose proof c_ge as G.
  pose proof (cpow_ge_1 k) as K.
  assert (R0 : 0 <= rnd x).
  { assert (0 <= (1 - u) * x) by (apply Qmult_le_0_compat; lra). lra. }
  unfold approx. simpl. repeat split; auto.
  - (* y <= rnd x * (c * cpow k) *)
    apply Qle_trans with (x * cpow k); auto.
    assert (x <= rnd x * c).
    { apply Qle_trans with ((1 - u) * x * c).
      - assert ((1 - u) * x * c == (1 + u) * x) by (rewrite <- S; ring).
        assert (0 <= u * x) by (apply Qmult_le_0_compat; lra). lra.
      - apply Qmult_le_compat_r; lra. }
    setoid_replace (rnd x * (c * cpow k)) with (rnd x * c * cpow k) by ring.
    apply Qmult_le_compat_r; lra.
  - (* rnd x <= y * (c * cpow k) *)
    apply Qle_trans with ((1 + u) * x); auto.
    setoid_replace (y * (c * cpow k)) with (c * (y * cpow k)) by ring.
    apply Qmult_le_compat_nonneg; lra.
Qed.

Lemma approx_add k x1 y1 x2 y2 :
  approx k x1 y1 -> approx k x2 y2 -> approx k (x1 + x2) (y1 + y2).
Proof.
  intros [A1 [B1 [C1 D1]]] [A2 [B2 [C2 D2]]]. unfold approx.
  repeat split; lra.
Qed.

Lemma approx_scale k x y m : 0 <= m -> approx k x y -> approx k (x * m) (y * m).
Proof.
  intros M [A [B [C D]]]. unfold approx. repeat split.
  - apply Qmult_le_0_compat; auto.
  - apply Qmult_le_0_compat; auto.
  - setoid_replace (x * m * cpow k) with (x * cpow k * m) by ring.
    apply Qmult_le_compat_r; auto.
  - setoid_replace (y * m * cpow k) with (y * cpow k * m) by ring.
    apply Qmult_le_compat_r; auto.
Qed.

Lemma approx_div j k a d t T :
  0 < t -> 0 < T -> approx j a d -> approx k t T -> approx (j + k) (a / t) (d / T).
Proof.
  intros Pt PT [A1 [B1 [C1 D1]]] [A2 [B2 [C2 D2]]].
  pose proof (cpow_ge_1 j) as Kj. pose proof (cpow_ge_1 k) as Kk.
  unfold approx. rewrite cpow_add. repeat split.
  - apply Qle_shift_div_l; auto. lra.
  - apply Qle_shift_div_l; auto. lra.
  - (* d / T <= a / t * (cj * ck) *)
    apply Qle_shift_div_r; auto.
    (* d <= a / t * (cj*ck) * T *)
    apply Qle_trans with (a * cpow j); auto.
    setoid_replace (a / t * (cpow j * cpow k) * T) with (a * cpow j * ((T * cpow k) / t)) by (field; lra).
    rewrite <- (Qmult_1_r (a * cpow j)) at 1.
    apply Qmult_le_compat_nonneg.
    + split; [|lra]. apply Qmult_le_0_compat; lra.
    + split; [lra|]. apply Qle_shift_div_l; auto. lra.
  - apply Qle_shift_div_r; auto.
    apply Qle_trans with (d * cpow j); auto.
    setoid_replace (d / T * (cpow j * cpow k) * t) with (d * cpow j * ((t * cpow k) / T)) by (field; lra).
    rewrite <- (Qmult_1_r (d * cpow j)) at 1.
    apply Qmult_le_compat_nonneg.
    + split; [|lra]. apply Qmult_le_0_compat; lra.
    + split; [lra|]. apply Qle_shift_div_l; auto. lra.
Qed.

(** Growth of the accumulated factor. *)
Lemma cpow_bound (k : nat) :
  2 * inject_Z (Z.of_nat k) * (c - 1) <= 1 ->
  cpow k <= 1 + 2 * inject_Z (Z.of_nat k) * (c - 1).
Proof.
  pose proof c_ge as G. pose proof u_bounds as [U0 U1].
  induction k as [|k IH]; intros H.
  - cbn [cpow Z.of_nat]. change (inject_Z 0) with 0. lra.
  - rewrite Nat2Z.inj_succ in *. unfold Z.succ in *. rewrite inject_Z_plus in *.
    change (inject_Z 1) with 1 in *.
    set (n := inject_Z (Z.of_nat k)) in *.
    assert (N : 0 <= n).
    { unfold n. change 0 with (inject_Z 0). rewrite <- Zle_Qle. lia. }
    set (v := c - 1) in *. assert (V : 0 <= v) by (unfold v; lra).
    assert (NV : 0 <= n * v) by (apply Qmult_le_0_compat; auto).
    assert (H' : 2 * n * v <= 1) by lra.
    specialize (IH H'). cbn [cpow].
    apply Qle_trans with (c * (1 + 2 * n * v)).
    + apply Qmult_le_l; [lra|exact IH].
    + assert (E : c * (1 + 2 * n * v) == 1 + 2 * n * v + v + (2 * n * v) * v)
        by (unfold v; ring).
      rewrite E.
      assert ((2 * n * v) * v <= 1 * v) by (apply Qmult_le_compat_r; lra).
      lra.
Qed.

End B64.

(** ** Coverage records

    [generate_data_simple.py], lines 18-56: plain Python, unbounded
    integers, one dictionary per city. *)

Module Coverage.

Import B64 Py.

Inductive pyval : Type :=
| VStr (s : string)
| VInt (z : Z)
| VFloat (x : float)
| VBool (b : bool).

(** A dictionary with string keys, in insertion order. *)
Definition dict (V : Type) : Type := list (string * V).

Fixpoint field {V} (d : dict V) (k : string) : option V :=
  match d with
  | [] => None
  | (k', v) :: rest => if String.eqb k k' then Some v else field rest k
  end.

(** [d.get(k, default)] *)
Definition dict_get {V} (d : dict V) (k : string) (default : V) : V :=
  match field d k with
  | Some v => v
  | None => default
  end.

(** [a / b] on two integers: the correctly rounded quotient, or
    [ZeroDivisionError]. *)
Definition truediv (a b : Z) : result float :=
  if b =? 0 then Raise ZeroDivisionError
  else Ok (of_Q (inject_Z a / inject_Z b)).

(** [round(v, ndigits)]: an integer is returned as it is. *)
Definition py_round (v : pyval) (ndigits : Z) : result pyval :=
  match v with
  | VInt z => Ok (VInt z)
  | VBool b => Ok (VInt (if b then 1 else 0))
  | VFloat x => Ok (VFloat (round_decimal ndigits x))
  | VStr _ => Raise TypeError
  end.

Definition cities : list string :=
  ["New York, NY"; "Los Angeles, CA"; "Chicago, IL";
   "Detroit, MI"; "Cleveland, OH"; "Philadelphia, PA";
   "San Francisco, CA"; "Boston, MA"]%string.

Definition severe_cost_burden_renters : dict Z :=
  [("New York, NY", 850); ("Los Angeles, CA", 720); ("Chicago, IL", 380);
   ("Detroit, MI", 120); ("Cleveland, OH", 85); ("Philadelphia, PA", 220);
   ("San Francisco, CA", 180); ("Boston, MA", 150)]%string.

(** The four [random.randint] draws of one iteration, in call order. *)
Record draws := {
  d_public_housing : Z;
  d_vouchers : Z;
  d_lihtc : Z;
  d_section8 : Z
}.

(** What [randint] can return at each of the four calls. *)
Definition in_randint_range (d : draws) : Prop :=
  20 <= d_public_housing d <= 150 /\ 50 <= d_vouchers d <= 300 /\
  30 <= d_lihtc d <= 200 /\ 10 <= d_section8 d <= 80.

(** The conditional expression of line 44. *)
Definition coverage_ratio (total_subsidized cost_burden_renters : Z) : result pyval :=
  if cost_burden_renters >? 0
  then q <- truediv total_subsidized cost_burden_renters ;;
       Ok (VFloat (mul q (of_Z 100)))
  else Ok (VInt 0).

(** The body of the loop of lines 36-56, for the table [burden]. *)
Definition policy_row (burden : dict Z) (city : string) (d : draws)
  : result (dict pyval) :=
  let public_housing := d_public_housing d * 1000 in
  let vouchers := d_vouchers d * 1000 in
  let lihtc := d_lihtc d * 1000 in
  let section8 := d_section8 d * 1000 in
  let total_subsidized := public_housing + vouchers + lihtc + section8 in
  let cost_burden_renters := dict_get burden city 100 * 1000 in
  ratio <- coverage_ratio total_subsidized cost_burden_renters ;;
  r1 <- py_round ratio 2 ;;
  r2 <- py_round ratio 2 ;;
  Ok [("city", VStr city);
      ("severe_cost_burden_renters", VInt cost_burden_renters);
      ("public_housing_units", VInt public_housing);
      ("voucher_households", VInt vouchers);
      ("lihtc_units", VInt lihtc);
      ("section8_units", VInt section8);
      ("total_subsidized", VInt total_subsidized);
      ("coverage_ratio", r1);
      ("subsidized_per_100_burdened", r2)]%string.

(** [policy_data] after the loop; [rand i] holds the draws of the [i]-th
    city. *)
Definition policy_data_for (burden : dict Z) (cs : list string) (rand : nat -> draws)
  : result (list (dict pyval)) :=
  mapM (fun ic => policy_row burden (snd ic) (rand (fst ic)))
       (combine (seq 0 (List.length cs)) cs).

Definition policy_data (rand : nat -> draws) : result (list (dict pyval)) :=
  policy_data_for severe_cost_burden_renters cities rand.

(** The ratio of the specification: supply per demand, times 100, rounded
    to [ndigits] decimals. *)
Definition ratio_rounded (ndigits : Z) (s d : Z) : float :=
  round_decimal ndigits (mul (of_Q (inject_Z s / inject_Z d)) (of_Z 100)).

(** The record carries a boolean marker. *)
Definition has_flag (r : dict pyval) : Prop :=
  exists k b, field r k = Some (VBool b).

Definition int_field (r : dict pyval) (k : string) (z : Z) : Prop :=
  field r k = Some (VInt z).

(** *** Facts *)

(** The value stored under both ratio keys. *)
Definition stored_ratio (s d : Z) : pyval :=
  if d >? 0 then VFloat (ratio_rounded 2 s d) else VInt 0.

Definition total_of (d : draws) : Z :=
  d_public_housing d * 1000 + d_vouchers d * 1000 + d_lihtc d * 1000
  + d_section8 d * 1000.

Lemma policy_row_shape (burden : dict Z) (city : string) (d : draws) :
  policy_row burden city d =
  Ok [("city", VStr city);
      ("severe_cost_burden_renters", VInt (dict_get burden city 100 * 1000));
      ("public_housing_units", VInt (d_public_housing d * 1000));
      ("voucher_households", VInt (d_vouchers d * 1000));
      ("lihtc_units", VInt (d_lihtc d * 1000));
      ("section8_units", VInt (d_section8 d * 1000));
      ("total_subsidized", VInt (total_of d));
      ("coverage_ratio", stored_ratio (total_of d) (dict_get burden city 100 * 1000));
      ("subsidized_per_100_burdened",
       stored_ratio (total_of d) (dict_get burden city 100 * 1000))]%string.
Proof.
  unfold policy_row, coverage_ratio, stored_ratio, truediv, total_of.
  set (D := dict_get burden city 100 * 1000).
  destruct (D >? 0) eqn:G.
  - assert (E : (D =? 0) = false) by (apply Z.eqb_neq; lia).
    rewrite E. reflexivity.
  - reflexivity.
Qed.

(** A value that compares equal to itself: not a NaN. *)
Definition is_number (v : pyval) : Prop :=
  match v with
  | VInt _ => True
  | VFloat (Fin _) => True
  | _ => False
  end.

(** Both ratio keys hold the same number and the total is the sum of the
    four program counts. *)
Definition row_consistent (r : dict pyval) : Prop :=
  field r "coverage_ratio" = field r "subsidized_per_100_burdened" /\
  (exists v, field r "coverage_ratio" = Some v /\ is_number v) /\
  exists a b c d,
    int_field r "public_housing_units" a /\
    int_field r "voucher_households" b /\
    int_field r "lihtc_units" c /\
    int_field r "section8_units" d /\
    int_field r "total_subsidized" (a + b + c + d).

Lemma policy_row_consistent burden city d :
  exists r, policy_row burden city d = Ok r /\ row_consistent r.
Proof.
  rewrite policy_row_shape. eexists. split; [reflexivity|].
  unfold row_consistent, int_field. simpl. split; [reflexivity|].
  split.
  { eexists. split; [reflexivity|].
    unfold stored_ratio. destruct (_ >? 0); exact I. }
  exists (d_public_housing d * 1000), (d_vouchers d * 1000),
    (d_lihtc d * 1000), (d_section8 d * 1000).
  repeat split; reflexivity.
Qed.

(** C10. Every record of [policy_data] stores the same value under
    [coverage_ratio] and [subsidized_per_100_burdened], and its
    [total_subsidized] is the sum of its four program counts; the loop
    yields one such record per city, for any table and any draws. *)
Theorem coverage_fields_consistent (burden : dict Z) (cs : list string)
    (rand : nat -> draws) :
  exists rows,
    policy_data_for burden cs rand = Ok rows /\
    Forall row_consistent rows /\
    List.length rows = List.length cs.
Proof.
  unfold policy_data_for.
  destruct (mapM_ok (fun ic => policy_row burden (snd ic) (rand (fst ic)))
              row_consistent (combine (seq 0 (List.length cs)) cs)) as [rows [E [F L]]].
  - intros [i c]. apply policy_row_consistent.
  - exists rows. repeat split; auto.
    rewrite L, length_combine, length_seq. apply Nat.min_id.
Qed.

(** The float stored for supply [s >= 0] and demand [d > 0] lies within
    half a hundredth of the exact [100 * s / d], up to the rounding of the
    three float operations. *)
Lemma ratio_rounded_accuracy (s d : Z) :
  0 <= s -> 0 < d ->
  exists q,
    ratio_rounded 2 s d = Fin q /\
    (Qabs (q - 100 * inject_Z s / inject_Z d)
     <= (1 # 200) + (100 * inject_Z s / inject_Z d + 1) * (1 # 100000000000000))%Q.
Proof.
  intros Ns Pd. unfold ratio_rounded, of_Z, of_Q, mul, round_decimal, of_Q.
  eexists. split; [reflexivity|].
  replace (rnd (inject_Z 100)) with 100%Q by (vm_compute; reflexivity).
  change (10 ^ 2)%Q with 100%Q.
  set (E := (100 * inject_Z s / inject_Z d)%Q).
  set (x2 := rnd (rnd (inject_Z s / inject_Z d) * 100)).
  set (k := (inject_Z (rne (x2 * 100)) / 100)%Q).
  assert (Qs : (0 <= inject_Z s)%Q).
  { change 0%Q with (inject_Z 0). now rewrite <- Zle_Qle. }
  assert (Qd : (0 < inject_Z d)%Q).
  { change 0%Q with (inject_Z 0). now rewrite <- Zlt_Qlt. }
  assert (A : approx 2 x2 E).
  { unfold x2. apply approx_rnd.
    assert (EE : (E == inject_Z s / inject_Z d * 100)%Q) by (unfold E; field; lra).
    destruct (approx_scale 1 (rnd (inject_Z s / inject_Z d))
                (inject_Z s / inject_Z d) 100) as [A1 [A2 [A3 A4]]].
    - discriminate.
    - apply approx_rnd, approx_refl. apply Qle_shift_div_l; lra.
    - unfold approx. rewrite EE. auto. }
  destruct A as [E0 [X0 [A1 A2]]].
  assert (W : (cpow 2 <= 1 + (1 # 1000000000000000))%Q).
  { eapply Qle_trans; [apply cpow_bound|]; unfold Qle; vm_compute; discriminate. }
  pose proof (cpow_ge_1 2) as G. set (w := cpow 2) in *.
  assert (K : (Qabs (k - x2) <= 1 # 200)%Q).
  { pose proof (rne_err (x2 * 100)) as R. apply Qabs_Qle_condition in R.
    apply Qabs_Qle_condition. unfold k.
    assert (Ek : (inject_Z (rne (x2 * 100)) / 100 * 100 == inject_Z (rne (x2 * 100)))%Q)
      by (field; discriminate).
    set (m := (inject_Z (rne (x2 * 100)) / 100)%Q) in *. lra. }
  apply Qabs_Qle_condition in K.
  pose proof (rnd_err k) as R. pose proof u_bounds as [U0 _].
  assert (U1 : (u <= 1 # 1000000000000000)%Q) by (unfold Qle; vm_compute; discriminate).
  assert (Kabs : (Qabs k <= x2 + (1 # 200))%Q).
  { apply Qabs_Qle_condition. lra. }
  assert (R' : (Qabs (rnd k - k) <= (1 # 1000000000000000) * (x2 + (1 # 200)))%Q).
  { eapply Qle_trans; [exact R|].
    apply Qmult_le_compat_nonneg; split; auto; try lra. apply Qabs_nonneg. }
  apply Qabs_Qle_condition in R'.
  assert (X2 : (x2 <= E + E * (1 # 1000000000000000))%Q).
  { apply Qle_trans with (E * w)%Q; auto.
    setoid_replace (E + E * (1 # 1000000000000000))%Q
      with (E * (1 + (1 # 1000000000000000)))%Q by ring.
    apply Qmult_le_compat_nonneg; split; lra. }
  assert (X2' : (E <= x2 + x2 * (1 # 1000000000000000))%Q).
  { apply Qle_trans with (x2 * w)%Q; auto.
    setoid_replace (x2 + x2 * (1 # 1000000000000000))%Q
      with (x2 * (1 + (1 # 1000000000000000)))%Q by ring.
    apply Qmult_le_compat_nonneg; split; lra. }
  apply Qabs_Qle_condition. lra.
Qed.

(** C5, as amended. In every record of [policy_data] whose demand [d] is
    positive, the ratio stored under [coverage_ratio] (and under
    [subsidized_per_100_burdened]) is [(s / d) * 100] rounded to two
    decimal places, [s] being the record's total supply; for [s >= 0] it
    is a finite float within 0.005 of the exact ratio, up to float
    rounding. *)
Theorem ratio_rounded_to_two_decimals (burden : dict Z) (cs : list string)
    (rand : nat -> draws) (rows : list (dict pyval)) (r : dict pyval) (s d : Z) :
  policy_data_for burden cs rand = Ok rows ->
  In r rows ->
  int_field r "total_subsidized" s ->
  int_field r "severe_cost_burden_renters" d ->
  d > 0 ->
  field r "coverage_ratio" = Some (VFloat (ratio_rounded 2 s d)) /\
  field r "subsidized_per_100_burdened" = Some (VFloat (ratio_rounded 2 s d)) /\
  (0 <= s ->
   exists q,
     ratio_rounded 2 s d = Fin q /\
     (Qabs (q - 100 * inject_Z s / inject_Z d)
      <= (1 # 200) + (100 * inject_Z s / inject_Z d + 1) * (1 # 100000000000000))%Q).
Proof.
  intros E I Hs Hd P.
  destruct (mapM_inv _ _ _ E r I) as [[i c] [_ Er]]. simpl in Er.
  rewrite policy_row_shape in Er. inversion Er; subst r. clear Er.
  unfold int_field in *. simpl in Hs, Hd. inversion Hs; inversion Hd; subst.
  simpl. unfold stored_ratio.
  assert (G : (dict_get burden c 100 * 1000 >? 0) = true) by (apply Z.gtb_lt; lia).
  rewrite G. split; [reflexivity|]. split; [reflexivity|].
  intros N. apply ratio_rounded_accuracy; lia.
Qed.

Definition lowest_draws : draws :=
  {| d_public_housing := 20; d_vouchers := 50; d_lihtc := 30; d_section8 := 10 |}.

Definition lowest_rows : list (dict pyval) :=
  Eval vm_compute in
    match policy_data (fun _ => lowest_draws) with
    | Ok rows => rows
    | Raise _ => []
    end.

Definition new_york_row : dict pyval := nth 0 lowest_rows [].

Lemma ratio_rounded_to_two_decimals_witness :
  field new_york_row "coverage_ratio" = Some (VFloat (ratio_rounded 2 110000 850000)).
Proof.
  apply (ratio_rounded_to_two_decimals severe_cost_burden_renters cities
           (fun _ => lowest_draws) lowest_rows new_york_row 110000 850000).
  - vm_compute. reflexivity.
  - left. reflexivity.
  - reflexivity.
  - reflexivity.
  - lia.
Defined.

(** New York with the lowest draws: 110000 subsidized units for 850000
    burdened renters.  The stored ratio is the float nearest 12.94, not
    the float nearest 12.9. *)
Lemma ratio_not_one_decimal :
  in_randint_range lowest_draws /\
  policy_row severe_cost_burden_renters "New York, NY" lowest_draws = Ok new_york_row /\
  int_field new_york_row "total_subsidized" 110000 /\
  int_field new_york_row "severe_cost_burden_renters" 850000 /\
  field new_york_row "coverage_ratio" = Some (VFloat (of_Q (1294 # 100))) /\
  ratio_rounded 1 110000 850000 = of_Q (129 # 10) /\
  field new_york_row "coverage_ratio" <> Some (VFloat (ratio_rounded 1 110000 850000)).
Proof.
  repeat split; try (vm_compute; reflexivity); try (vm_compute; discriminate).
  all: unfold in_randint_range; simpl; lia.
Qed.

(** *** Zero demand *)

Lemma stored_ratio_not_bool s d b : stored_ratio s d <> VBool b.
Proof. unfold stored_ratio. destruct (d >? 0); discriminate. Qed.

Lemma policy_row_no_flag burden city d r :
  policy_row burden city d = Ok r -> ~ has_flag r.
Proof.
  rewrite policy_row_shape. intros E. inversion E; subst r. clear E.
  intros [k [b H]]. cbn [field] in H.
  repeat match type of H with
         | (if ?c then _ else _) = _ => destruct c; try discriminate
         end.
  - inversion H as [H']. now apply stored_ratio_not_bool in H'.
  - inversion H as [H']. now apply stored_ratio_not_bool in H'.
Qed.

Lemma ratio_of_no_supply (d : Z) : d > 0 -> ratio_rounded 2 0 d = Fin 0.
Proof.
  intros P. unfold ratio_rounded, of_Q.
  assert (E1 : (inject_Z 0 / inject_Z d == 0)%Q).
  { unfold Qdiv. apply Qmult_0_l. }
  rewrite (rnd_proper _ _ E1). rewrite rnd_0.
  unfold mul, of_Z, of_Q.
  assert (E2 : (0 * rnd (inject_Z 100) == 0)%Q) by apply Qmult_0_l.
  rewrite (rnd_proper _ _ E2). rewrite rnd_0.
  reflexivity.
Qed.

(** C6, as amended. For any table, city and draws the loop body returns a
    record and raises nothing; when the demand is zero (or negative) the
    stored ratio is the integer 0; when the demand is positive and the
    supply is zero the stored ratio is 0.0; no record carries a flag. *)
Theorem zero_demand_gives_zero_ratio (burden : dict Z) (city : string) (d : draws) :
  exists r,
    policy_row burden city d = Ok r /\
    (forall dem, int_field r "severe_cost_burden_renters" dem -> dem <= 0 ->
       field r "coverage_ratio" = Some (VInt 0) /\
       field r "subsidized_per_100_burdened" = Some (VInt 0)) /\
    (forall dem, int_field r "severe_cost_burden_renters" dem -> dem > 0 ->
       int_field r "total_subsidized" 0 ->
       field r "coverage_ratio" = Some (VFloat (Fin 0)) /\
       field r "subsidized_per_100_burdened" = Some (VFloat (Fin 0))) /\
    ~ has_flag r.
Proof.
  destruct (policy_row burden city d) as [r|e] eqn:E.
  2:{ rewrite policy_row_shape in E. discriminate. }
  exists r. split; [reflexivity|].
  pose proof (policy_row_no_flag _ _ _ _ E) as NF.
  rewrite policy_row_shape in E. inversion E; subst r. clear E.
  unfold int_field. simpl. unfold stored_ratio.
  split; [|split; [|exact NF]].
  - intros dem Hd L. injection Hd as Hd.
    assert (G : (dict_get burden city 100 * 1000 >? 0) = false).
    { rewrite Z.gtb_ltb. apply Z.ltb_ge. lia. }
    rewrite G. split; reflexivity.
  - intros dem Hd P Hs. injection Hd as Hd. injection Hs as Hs.
    assert (G : (dict_get burden city 100 * 1000 >? 0) = true) by (apply Z.gtb_lt; lia).
    rewrite G, Hs, ratio_of_no_supply by lia. split; reflexivity.
Qed.

(** A table that records no burdened renter for one city. *)
Definition empty_town : dict Z := [("Springfield, IL", 0)]%string.

Definition no_draws : draws :=
  {| d_public_housing := 0; d_vouchers := 0; d_lihtc := 0; d_section8 := 0 |}.

Lemma zero_demand_gives_zero_ratio_witness :
  (exists r,
     policy_row empty_town "Springfield, IL" lowest_draws = Ok r /\
     field r "coverage_ratio" = Some (VInt 0) /\
     ~ has_flag r) /\
  (exists r,
     policy_row severe_cost_burden_renters "New York, NY" no_draws = Ok r /\
     field r "coverage_ratio" = Some (VFloat (Fin 0))).
Proof.
  split.
  - destruct (zero_demand_gives_zero_ratio empty_town "Springfield, IL" lowest_draws)
      as [r [E [Z0 [_ NF]]]].
    exists r. split; [exact E|]. split; [|exact NF].
    apply (Z0 0); [|lia].
    rewrite policy_row_shape in E. inversion E. reflexivity.
  - destruct (zero_demand_gives_zero_ratio severe_cost_burden_renters
                "New York, NY" no_draws) as [r [E [_ [S0 _]]]].
    exists r. split; [exact E|].
    apply (S0 850000); [|lia|];
      rewrite policy_row_shape in E; inversion E; reflexivity.
Defined.

(** Zero demand: the ratio is 0 and nothing in the record marks the
    denominator as undefined; the nine keys are the ones of any other
    record. *)
Lemma zero_demand_record_has_no_flag :
  exists r,
    policy_row empty_town "Springfield, IL" lowest_draws = Ok r /\
    int_field r "severe_cost_burden_renters" 0 /\
    field r "coverage_ratio" = Some (VInt 0) /\
    map fst r = map fst new_york_row /\
    ~ has_flag r.
Proof.
  eexists. split; [vm_compute; reflexivity|].
  split; [reflexivity|]. split; [reflexivity|]. split; [reflexivity|].
  eapply (policy_row_no_flag empty_town "Springfield, IL" lowest_draws).
  vm_compute. reflexivity.
Qed.

End Coverage.

(** ** Roll-up by city type

    [partner_template.py], lines 99-143: the left merge of the coverage
    table with the policy-mix table, the [groupby("city_type")] with its
    two sums, the percentage shares and the label offsets. *)

Module Rollup.

Import B64.

(** The columns of [policy_coverage.csv] the roll-up reads. *)
Record coverage_row := {
  cov_city : string;
  cov_severe : Z;
  cov_subsidized : Z
}.

(** [mix[["city", "city_type"]]]; an empty cell is [None]. *)
Record mix_row := {
  mix_city : string;
  mix_city_type : option string
}.

Record merged_row := {
  m_city : string;
  m_severe : Z;
  m_subsidized : Z;
  m_city_type : option string
}.

(** [coverage.merge(mix[["city", "city_type"]], on="city", how="left")]:
    every coverage row once per matching mix row, in coverage order, and
    once with a missing city type when nothing matches. *)
Definition merge_left (coverage : list coverage_row) (mix : list mix_row)
  : list merged_row :=
  flat_map
    (fun c =>
       let with_type t :=
         {| m_city := cov_city c; m_severe := cov_severe c;
            m_subsidized := cov_subsidized c; m_city_type := t |} in
       match filter (fun m => String.eqb (mix_city m) (cov_city c)) mix with
       | [] => [with_type None]
       | ms => map (fun m => with_type (mix_city_type m)) ms
       end)
    coverage.

(** Rows that take part in the [groupby]: a missing key is dropped. *)
Definition keyed (merged : list merged_row) : list (string * (Z * Z)) :=
  flat_map
    (fun r =>
       match m_city_type r with
       | Some t => [(t, (m_severe r, m_subsidized r))]
       | None => []
       end)
    merged.

(** [groupby("city_type", as_index=False).agg(total_severe=..., total_subsidized=...)] *)
Definition group_totals (merged : list merged_row) : list (string * (Z * Z)) :=
  agg (fun l => (Int64.sum (map fst l), Int64.sum (map snd l)))
      (groupby (keyed merged)).

Record rollup_row := {
  income_group : string;
  total_severe : Z;
  total_subsidized : Z;
  severely_burdened_pct : float;
  subsidized_per_100_burdened : float;
  label_dy : float;
  label_dx : float
}.

(** [column / total * 100.0] on an integer column. *)
Definition percent_of (part whole : Z) : float :=
  mul (div (of_Z part) (of_Z whole)) (of_Q 100).

Fixpoint insert_float (x : float) (l : list float) : list float :=
  match l with
  | [] => [x]
  | y :: rest => if ltb y x then y :: insert_float x rest else x :: l
  end.

Definition sort_floats (l : list float) : list float :=
  fold_right insert_float [] l.

(** [Series.median()]: NaN skipped, the middle value, or the mean of the
    two middle values. *)
Definition median (l : list float) : float :=
  let s := sort_floats (filter (fun x => negb (is_nan x)) l) in
  let n := List.length s in
  if Nat.eqb n 0 then NaN
  else if Nat.odd n then nth (Nat.div n 2) s NaN
  else div (add (nth (Nat.div n 2 - 1) s NaN) (nth (Nat.div n 2) s NaN)) (of_Z 2).

(** [Series.max()] and [Series.min()] of a non-empty integer column. *)
Definition column_max (l : list Z) : Z :=
  match l with [] => 0 | x :: rest => fold_left Z.max rest x end.
Definition column_min (l : list Z) : Z :=
  match l with [] => 0 | x :: rest => fold_left Z.min rest x end.

(** [(row["total_severe"] - min_size) / (max_size - min_size)] *)
Definition size_factor (min_size max_size size : Z) : float :=
  div (of_Z (Int64.sub size min_size)) (of_Z (Int64.sub max_size min_size)).

(** The lambda of lines 137-138. *)
Definition label_dy_of (median_y : float) (min_size max_size : Z)
    (y : float) (size : Z) : float :=
  if gtb y median_y
  then sub (of_Z (-25)) (mul (size_factor min_size max_size size) (of_Z 10))
  else add (of_Z 25) (mul (size_factor min_size max_size size) (of_Z 10)).

(** The lambda of line 142. *)
Definition label_dx_of (min_size max_size size : Z) : float :=
  add (of_Q (3 # 2)) (mul (size_factor min_size max_size size) (of_Q (1 # 2))).

(** A plotted point: group, x, y and size. *)
Record point := {
  p_group : string;
  p_x : float;
  p_y : float;
  p_size : Z
}.

Record placement := {
  pl_group : string;
  pl_dx : float;
  pl_dy : float
}.

(** Lines 128-143 on the point set of the frame. *)
Definition place_labels (points : list point) : list placement :=
  let median_y := median (map p_y points) in
  let max_size := column_max (map p_size points) in
  let min_size := column_min (map p_size points) in
  map (fun p =>
         {| pl_group := p_group p;
            pl_dx := label_dx_of min_size max_size (p_size p);
            pl_dy := label_dy_of median_y min_size max_size (p_y p) (p_size p) |})
      points.

(** [by_type] as it stands after line 143. *)
Definition by_type (merged : list merged_row) : list rollup_row :=
  let g := group_totals merged in
  let whole := Int64.sum (map (fun r => fst (snd r)) g) in
  let pct r := percent_of (fst (snd r)) whole in
  let per_100 r := percent_of (snd (snd r)) (fst (snd r)) in
  let median_y := median (map per_100 g) in
  let max_size := column_max (map (fun r => fst (snd r)) g) in
  let min_size := column_min (map (fun r => fst (snd r)) g) in
  map (fun r =>
         {| income_group := fst r;
            total_severe := fst (snd r);
            total_subsidized := snd (snd r);
            severely_burdened_pct := pct r;
            subsidized_per_100_burdened := per_100 r;
            label_dy := label_dy_of median_y min_size max_size (per_100 r) (fst (snd r));
            label_dx := label_dx_of min_size max_size (fst (snd r)) |})
      g.

(** The point a roll-up row is plotted at. *)
Definition point_of (r : rollup_row) : point :=
  {| p_group := income_group r;
     p_x := severely_burdened_pct r;
     p_y := subsidized_per_100_burdened r;
     p_size := total_severe r |}.

(** Sum of the percentage-share column. *)
Definition share_total (rows : list rollup_row) : float :=
  sum (map severely_burdened_pct rows).

(** [x == 100 ± 1e-6] *)
Definition near_100 (x : float) : Prop :=
  match x with
  | Fin q => (Qabs (q - 100) <= 1 # 1000000)%Q
  | _ => False
  end.

(** *** Order of the groups *)

Lemma groups_of_by_type (merged : list merged_row) :
  map income_group (by_type merged) = keys (groupby (keyed merged)).
Proof.
  unfold by_type. rewrite map_map. cbn [income_group].
  unfold group_totals. fold (keys (agg (fun l : list (Z * Z) =>
    (Int64.sum (map fst l), Int64.sum (map snd l))) (groupby (keyed merged)))).
  apply keys_agg.
Qed.

Lemma keyed_keys (merged : list merged_row) (k : string) :
  In k (keys (keyed merged)) <-> In (Some k) (map m_city_type merged).
Proof.
  unfold keys, keyed. induction merged as [|r merged IH]; simpl; [tauto|].
  rewrite map_app, in_app_iff, IH.
  destruct (m_city_type r) as [t|]; simpl; split; intros H.
  - destruct H as [[->|[]]|H]; auto.
  - destruct H as [E|H]; auto. inversion E; auto.
  - destruct H as [[]|H]; auto.
  - destruct H as [E|H]; [discriminate|auto].
Qed.

(** Groups in the order in which each key is first seen in the input. *)
Definition first_seen_groups (merged : list merged_row) : list string :=
  first_seen (keys (keyed merged)).

(** C7, as amended. The roll-up lists each city type of the input once,
    in ascending order of the key, whatever the order of the input rows. *)
Theorem groups_in_ascending_key_order (merged : list merged_row) :
  StronglySorted lt (map income_group (by_type merged)) /\
  (forall k, In k (map income_group (by_type merged)) <->
             In (Some k) (map m_city_type merged)) /\
  (forall merged', Permutation merged merged' ->
     map income_group (by_type merged') = map income_group (by_type merged)).
Proof.
  assert (S : forall m, StronglySorted lt (map income_group (by_type m))).
  { intros m. rewrite groups_of_by_type. apply (ascending_groupby (keyed m)). }
  assert (M : forall m k, In k (map income_group (by_type m)) <->
                          In (Some k) (map m_city_type m)).
  { intros m k. rewrite groups_of_by_type, keys_groupby. apply keyed_keys. }
  split; [apply S|]. split; [apply M|].
  intros merged' P. apply ascending_keys_unique; auto.
  intros k. rewrite !M. split; apply Permutation_in.
  - apply Permutation_map. now apply Permutation_sym.
  - now apply Permutation_map.
Qed.

Definition two_cities : list coverage_row :=
  [ {| cov_city := "New York, NY"; cov_severe := 850000; cov_subsidized := 110000 |};
    {| cov_city := "Detroit, MI"; cov_severe := 120000; cov_subsidized := 110000 |} ].

Definition two_types : list mix_row :=
  [ {| mix_city := "New York, NY"; mix_city_type := Some "Strong Market"%string |};
    {| mix_city := "Detroit, MI"; mix_city_type := Some "Legacy City"%string |} ].

Lemma groups_in_ascending_key_order_witness :
  map income_group (by_type (rev (merge_left two_cities two_types))) =
  map income_group (by_type (merge_left two_cities two_types)).
Proof.
  apply groups_in_ascending_key_order. apply Permutation_rev.
Defined.

(** "Strong Market" is seen first, "Legacy City" is listed first. *)
Lemma groups_not_in_first_seen_order :
  first_seen_groups (merge_left two_cities two_types)
    = ["Strong Market"; "Legacy City"]%string /\
  map income_group (by_type (merge_left two_cities two_types))
    = ["Legacy City"; "Strong Market"]%string /\
  map income_group (by_type (merge_left two_cities two_types))
    <> first_seen_groups (merge_left two_cities two_types).
Proof.
  split; [|split].
  - vm_compute. reflexivity.
  - vm_compute. reflexivity.
  - vm_compute. discriminate.
Qed.

(** *** Label offsets *)

(** The magnitude of the vertical offset: base 25, scale 10. *)
Definition dy_magnitude (min_size max_size size : Z) : float :=
  add (of_Z 25) (mul (size_factor min_size max_size size) (of_Z 10)).

Lemma rnd_25 : rnd (inject_Z 25) = inject_Z 25.
Proof. vm_compute. reflexivity. Qed.

Lemma rnd_m25 : rnd (inject_Z (-25)) = inject_Z (-25).
Proof. vm_compute. reflexivity. Qed.

Lemma rnd_10 : rnd (inject_Z 10) = inject_Z 10.
Proof. vm_compute. reflexivity. Qed.

Lemma sub_from_m25 (p : float) :
  sub (of_Z (-25)) p = neg (add (of_Z 25) p).
Proof.
  unfold sub, of_Z, of_Q. rewrite rnd_25, rnd_m25.
  destruct p as [|s|q]; simpl; auto.
  rewrite <- rnd_opp. f_equal. apply rnd_proper.
  change (inject_Z (-25)) with (- inject_Z 25)%Q. ring.
Qed.

Lemma label_dy_signed (median_y : float) (min_size max_size : Z) (y : float) (size : Z) :
  label_dy_of median_y min_size max_size y size =
  if gtb y median_y
  then neg (dy_magnitude min_size max_size size)
  else dy_magnitude min_size max_size size.
Proof.
  unfold label_dy_of, dy_magnitude. destruct (gtb y median_y); auto.
  apply sub_from_m25.
Qed.

Lemma fold_min_le (l : list Z) (x : Z) :
  fold_left Z.min l x <= x /\ Forall (fun y => fold_left Z.min l x <= y) l /\
  In (fold_left Z.min l x) (x :: l).
Proof.
  revert x. induction l as [|a l IH]; intros x; simpl.
  - repeat split; auto; lia.
  - destruct (IH (Z.min x a)) as [L [F I]]. split; [lia|]. split.
    + constructor; [lia|exact F].
    + destruct I as [E|I]; [|auto].
      rewrite <- E. destruct (Z.min_spec x a) as [[_ ->]|[_ ->]]; auto.
Qed.

Lemma fold_max_ge (l : list Z) (x : Z) :
  x <= fold_left Z.max l x /\ Forall (fun y => y <= fold_left Z.max l x) l /\
  In (fold_left Z.max l x) (x :: l).
Proof.
  revert x. induction l as [|a l IH]; intros x; simpl.
  - repeat split; auto; lia.
  - destruct (IH (Z.max x a)) as [L [F I]]. split; [lia|]. split.
    + constructor; [lia|exact F].
    + destruct I as [E|I]; [|auto].
      rewrite <- E. destruct (Z.max_spec x a) as [[_ ->]|[_ ->]]; auto.
Qed.

Lemma column_min_spec (l : list Z) (x : Z) :
  In x l -> column_min l <= x /\ In (column_min l) l.
Proof.
  destruct l as [|a l]; [contradiction|]. simpl.
  destruct (fold_min_le l a) as [L [F I]]. intros [<-|H]; split; auto.
  rewrite Forall_forall in F. auto.
Qed.

Lemma column_max_spec (l : list Z) (x : Z) :
  In x l -> x <= column_max l /\ In (column_max l) l.
Proof.
  destruct l as [|a l]; [contradiction|]. simpl.
  destruct (fold_max_ge l a) as [L [F I]]. intros [<-|H]; split; auto.
  rewrite Forall_forall in F. auto.
Qed.

(** A size is a count that fits the integer column. *)
Definition is_count (z : Z) : Prop := 0 <= z <= Int64.max_int.

Lemma of_Z_nonneg (z : Z) : 0 <= z -> exists q, of_Z z = Fin q /\ (0 <= q)%Q.
Proof.
  intros P. eexists. split; [reflexivity|]. apply rnd_nonneg.
  change 0%Q with (inject_Z 0). now rewrite <- Zle_Qle.
Qed.

Lemma of_Z_pos (z : Z) : 0 < z -> exists q, of_Z z = Fin q /\ (0 < q)%Q.
Proof.
  intros P. eexists. split; [reflexivity|]. apply rnd_pos.
  change 0%Q with (inject_Z 0). now rewrite <- Zlt_Qlt.
Qed.

Lemma Qis_zero_pos (q : Q) : (0 < q)%Q -> Qis_zero q = false.
Proof.
  intros P. destruct (Qis_zero q) eqn:E; auto.
  apply Qis_zero_iff in E. rewrite E in P. discriminate.
Qed.

(** With sizes that differ, the factor is the quotient of the two
    differences, a finite non-negative number. *)
Lemma size_factor_finite (min_size max_size size : Z) :
  is_count min_size -> is_count max_size -> is_count size ->
  min_size <= size -> min_size < max_size ->
  size_factor min_size max_size size =
    Fin (rnd (rnd (inject_Z (size - min_size)) / rnd (inject_Z (max_size - min_size)))) /\
  (0 <= rnd (rnd (inject_Z (size - min_size)) / rnd (inject_Z (max_size - min_size))))%Q.
Proof.
  unfold is_count, Int64.max_int. intros C1 C2 C3 L1 L2.
  unfold size_factor, Int64.sub.
  rewrite !Int64.wrap_id by (unfold Int64.in_range, Int64.min_int, Int64.max_int; lia).
  destruct (of_Z_nonneg (size - min_size)) as [a [Ea Pa]]; [lia|].
  destruct (of_Z_pos (max_size - min_size)) as [b [Eb Pb]]; [lia|].
  unfold of_Z, of_Q in *. inversion Ea; inversion Eb; subst a b.
  unfold div. rewrite (Qis_zero_pos _ Pb). split; [reflexivity|].
  apply rnd_nonneg. apply Qle_shift_div_l; auto.
  now rewrite Qmult_0_l.
Qed.

Lemma dy_magnitude_positive (min_size max_size size : Z) :
  is_count min_size -> is_count max_size -> is_count size ->
  min_size <= size -> min_size < max_size ->
  exists q, dy_magnitude min_size max_size size = Fin q /\ (0 < q)%Q.
Proof.
  intros C1 C2 C3 L1 L2.
  destruct (size_factor_finite _ _ _ C1 C2 C3 L1 L2) as [E P].
  unfold dy_magnitude. rewrite E. unfold of_Z, of_Q, mul, add.
  rewrite rnd_25, rnd_10. eexists. split; [reflexivity|].
  apply rnd_pos.
  set (f := rnd (rnd (inject_Z (size - min_size)) / rnd (inject_Z (max_size - min_size)))) in *.
  assert (0 <= rnd (f * inject_Z 10))%Q.
  { apply rnd_nonneg. apply Qmult_le_0_compat; auto. discriminate. }
  change (inject_Z 25) with 25%Q. lra.
Qed.

(** With equal sizes the factor is 0/0. *)
Lemma size_factor_equal (m : Z) : size_factor m m m = NaN.
Proof.
  unfold size_factor, Int64.sub. rewrite Z.sub_diag. reflexivity.
Qed.

Lemma dy_magnitude_equal (m : Z) : dy_magnitude m m m = NaN.
Proof. unfold dy_magnitude. rewrite size_factor_equal. reflexivity. Qed.

Lemma by_type_labels (merged : list merged_row) :
  map label_dy (by_type merged) =
  map pl_dy (place_labels (map point_of (by_type merged))).
Proof.
  unfold by_type, place_labels. rewrite !map_map. reflexivity.
Qed.

Lemma sizes_between (points : list point) (p : point) :
  In p points ->
  column_min (map p_size points) <= p_size p <= column_max (map p_size points) /\
  In (column_min (map p_size points)) (map p_size points) /\
  In (column_max (map p_size points)) (map p_size points).
Proof.
  intros I. apply (in_map p_size) in I.
  destruct (column_min_spec _ _ I), (column_max_spec _ _ I). auto.
Qed.

Lemma median_10_50_90 : median [Fin 10; Fin 50; Fin 90] = Fin 50.
Proof. vm_compute. reflexivity. Qed.

(** C8, as amended. The label offsets of [by_type] are those of its
    point set, and for every point set the vertical offset is
    [-dy] for a point strictly above the median [y] and [+dy] otherwise,
    with [dy = 25 + normalized(size) * 10]; when the sizes are counts that
    are not all equal, [normalized(size)] is the finite, non-negative
    quotient [(size - min_size) / (max_size - min_size)]; when all sizes
    are equal the quotient is 0/0 and every offset is NaN.  For [y] values
    10, 50, 90 and sizes not all equal, the first two offsets are
    non-negative and the third is negative. *)
Theorem label_offsets :
  (forall merged,
     map label_dy (by_type merged) =
     map pl_dy (place_labels (map point_of (by_type merged)))) /\
  (forall points,
     map pl_dy (place_labels points) =
     map (fun p =>
            let dy := dy_magnitude (column_min (map p_size points))
                        (column_max (map p_size points)) (p_size p) in
            if gtb (p_y p) (median (map p_y points)) then neg dy else dy)
         points) /\
  (forall points p,
     Forall is_count (map p_size points) ->
     column_min (map p_size points) <> column_max (map p_size points) ->
     In p points ->
     let lo := column_min (map p_size points) in
     let hi := column_max (map p_size points) in
     let q := rnd (rnd (inject_Z (p_size p - lo)) / rnd (inject_Z (hi - lo))) in
     size_factor lo hi (p_size p) = Fin q /\ (0 <= q)%Q) /\
  (forall points,
     (forall p q, In p points -> In q points -> p_size p = p_size q) ->
     Forall (fun l => pl_dy l = NaN) (place_labels points)) /\
  (forall g1 g2 g3 x1 x2 x3 s1 s2 s3,
     is_count s1 -> is_count s2 -> is_count s3 ->
     ~ (s1 = s2 /\ s2 = s3) ->
     exists d1 d2 d3,
       map pl_dy (place_labels
                    [ {| p_group := g1; p_x := x1; p_y := Fin 10; p_size := s1 |};
                      {| p_group := g2; p_x := x2; p_y := Fin 50; p_size := s2 |};
                      {| p_group := g3; p_x := x3; p_y := Fin 90; p_size := s3 |} ])
         = [d1; d2; d3] /\
       nonneg d1 /\ nonneg d2 /\ negative d3).
Proof.
  split; [exact by_type_labels|]. split; [|split; [|split]].
  - intros points. unfold place_labels. rewrite map_map. cbn [pl_dy].
    apply map_ext. intros p. apply label_dy_signed.
  - intros points p C N I lo hi q.
    destruct (sizes_between points p I) as [[L1 L2] [I1 I2]].
    rewrite Forall_forall in C.
    apply size_factor_finite; auto.
    + apply C, in_map, I.
    + fold lo hi in N, L1, L2. lia.
  - intros points E. unfold place_labels. apply Forall_forall.
    intros l Hl. apply in_map_iff in Hl. destruct Hl as [p [<- I]]. cbn [pl_dy].
    destruct (sizes_between points p I) as [_ [I1 I2]].
    apply in_map_iff in I1, I2.
    destruct I1 as [p1 [E1 I1]], I2 as [p2 [E2 I2]].
    rewrite <- E1, <- E2, (E p1 p I1 I), (E p2 p I2 I).
    rewrite label_dy_signed, dy_magnitude_equal.
    destruct (gtb (p_y p) (median (map p_y points))); reflexivity.
  - intros g1 g2 g3 x1 x2 x3 s1 s2 s3 C1 C2 C3 N.
    unfold place_labels. cbn [map p_y p_size p_group pl_dy].
    rewrite median_10_50_90.
    set (lo := column_min [s1; s2; s3]). set (hi := column_max [s1; s2; s3]).
    assert (B : is_count lo /\ is_count hi /\ lo < hi /\
                lo <= s1 /\ lo <= s2 /\ lo <= s3).
    { unfold lo, hi, column_min, column_max, is_count in *. simpl. lia. }
    destruct B as [Cl [Ch [Lt [L1 [L2 L3]]]]].
    rewrite !label_dy_signed.
    replace (gtb (Fin 10) (Fin 50)) with false by (vm_compute; reflexivity).
    replace (gtb (Fin 50) (Fin 50)) with false by (vm_compute; reflexivity).
    replace (gtb (Fin 90) (Fin 50)) with true by (vm_compute; reflexivity).
    destruct (dy_magnitude_positive lo hi s1) as [q1 [E1 P1]]; auto.
    destruct (dy_magnitude_positive lo hi s2) as [q2 [E2 P2]]; auto.
    destruct (dy_magnitude_positive lo hi s3) as [q3 [E3 P3]]; auto.
    rewrite E1, E2, E3. do 3 eexists. split; [reflexivity|].
    simpl. repeat split; lra.
Qed.

Definition example_points : list point :=
  [ {| p_group := "Legacy City"; p_x := Fin 10; p_y := Fin 10; p_size := 205000 |};
    {| p_group := "Mixed"; p_x := Fin 60; p_y := Fin 50; p_size := 1320000 |};
    {| p_group := "Strong Market"; p_x := Fin 30; p_y := Fin 90; p_size := 1180000 |} ].

Lemma label_offsets_witness :
  exists d1 d2 d3,
    map pl_dy (place_labels example_points) = [d1; d2; d3] /\
    nonneg d1 /\ nonneg d2 /\ negative d3.
Proof.
  destruct label_offsets as [_ [_ [_ [_ Ex]]]].
  apply Ex; unfold is_count, Int64.max_int; lia.
Defined.

Definition one_city : list coverage_row :=
  [ {| cov_city := "New York, NY"; cov_severe := 850000; cov_subsidized := 110000 |} ].

(** One city type only: the single size is both the smallest and the
    largest, the normalized size is 0/0 and the offset is NaN, where a
    normalized size of 0 would give [25 + 0 * 10]. *)
Lemma equal_sizes_give_nan :
  map label_dy (by_type (merge_left one_city two_types)) = [NaN] /\
  map pl_dy (place_labels (map point_of (by_type (merge_left one_city two_types))))
    = [NaN] /\
  add (of_Z 25) (mul (Fin 0) (of_Z 10)) = Fin 25 /\
  map label_dy (by_type (merge_left one_city two_types))
    <> [add (of_Z 25) (mul (Fin 0) (of_Z 10))].
Proof.
  repeat split; try (vm_compute; reflexivity). vm_compute. discriminate.
Qed.

(** *** Percentage shares *)

Local Open Scope Q_scope.

Lemma rnd_100 : rnd 100 = 100.
Proof. vm_compute. reflexivity. Qed.

(** The finite value of a share, for a positive grand total. *)
Definition share_value (whole part : Z) : Q :=
  rnd (rnd (rnd (inject_Z part) / rnd (inject_Z whole)) * 100).

(** The exact share. *)
Definition share_exact (whole part : Z) : Q :=
  inject_Z part / inject_Z whole * 100.

Lemma percent_of_finite (whole part : Z) :
  (0 < whole)%Z -> percent_of part whole = Fin (share_value whole part).
Proof.
  intros P. unfold percent_of, share_value, of_Z, of_Q, div.
  rewrite Qis_zero_pos.
  - unfold mul. now rewrite rnd_100.
  - apply rnd_pos. change 0 with (inject_Z 0). now rewrite <- Zlt_Qlt.
Qed.

Lemma share_approx (whole part : Z) :
  (0 < whole)%Z -> (0 <= part)%Z ->
  approx 4 (share_value whole part) (share_exact whole part).
Proof.
  intros P N. unfold share_value, share_exact.
  assert (Pw : 0 < inject_Z whole).
  { change 0 with (inject_Z 0). now rewrite <- Zlt_Qlt. }
  assert (Np : 0 <= inject_Z part).
  { change 0 with (inject_Z 0). now rewrite <- Zle_Qle. }
  apply approx_rnd. apply approx_scale; [discriminate|].
  apply approx_rnd. change 2%nat with (1 + 1)%nat. apply approx_div.
  - now apply rnd_pos.
  - exact Pw.
  - apply approx_rnd, approx_refl, Np.
  - apply approx_rnd, approx_refl. now apply Qlt_le_weak.
Qed.

Lemma fold_shares (whole : Z) (ds : list Z) :
  (0 < whole)%Z -> Forall (fun d => (0 <= d)%Z) ds ->
  forall (k : nat) (s y : Q),
    (4 <= k)%nat -> approx k s y ->
    exists s',
      fold_left add (map (fun d => Fin (share_value whole d)) ds) (Fin s) = Fin s' /\
      approx (k + List.length ds) s'
        (y + fold_right Qplus 0 (map (share_exact whole) ds)).
Proof.
  intros P F. induction F as [|d ds N F IH]; intros k s y K A; simpl.
  - exists s. split; [reflexivity|]. rewrite Nat.add_0_r.
    destruct A as [A1 [A2 [A3 A4]]]. unfold approx. repeat split; lra.
  - destruct (IH (S k) (rnd (s + share_value whole d)) (y + share_exact whole d))
      as [s' [E A']].
    + lia.
    + apply approx_rnd, approx_add; auto.
      apply (approx_weaken 4); auto. now apply share_approx.
    + exists s'. split; [exact E|].
      replace (k + S (List.length ds))%nat with (S k + List.length ds)%nat by lia.
      destruct A' as [A1 [A2 [A3 A4]]]. unfold approx. repeat split; lra.
Qed.

Lemma exact_shares_total (whole : Z) (ds : list Z) :
  (0 < whole)%Z ->
  fold_right Qplus 0 (map (share_exact whole) ds)
  == inject_Z (Int64.exact_sum ds) / inject_Z whole * 100.
Proof.
  intros P.
  assert (Pw : 0 < inject_Z whole).
  { change 0 with (inject_Z 0). now rewrite <- Zlt_Qlt. }
  induction ds as [|d ds IH]; simpl.
  - unfold Qdiv. now rewrite !Qmult_0_l.
  - rewrite IH, inject_Z_plus. unfold share_exact. field. lra.
Qed.

Lemma no_nan_among_finite (f : Z -> Q) (ds : list Z) :
  filter (fun x => negb (is_nan x)) (map (fun d => Fin (f d)) ds)
  = map (fun d => Fin (f d)) ds.
Proof. induction ds as [|d ds IH]; simpl; [|rewrite IH]; reflexivity. Qed.

(** Up to a million and four roundings stay within one part in 10^9. *)
Lemma cpow_million (k : nat) :
  (Z.of_nat k <= 1000004)%Z -> cpow k <= 1 + (1 # 1000000000).
Proof.
  intros K.
  assert (N : inject_Z (Z.of_nat k) <= 1000004).
  { change 1000004 with (inject_Z 1000004). now rewrite <- Zle_Qle. }
  assert (N0 : 0 <= inject_Z (Z.of_nat k)).
  { change 0 with (inject_Z 0). rewrite <- Zle_Qle. lia. }
  assert (V : 0 <= c - 1) by (pose proof c_ge; pose proof u_bounds; lra).
  assert (B : 2 * 1000004 * (c - 1) <= 1 # 1000000000).
  { unfold Qle. vm_compute. discriminate. }
  assert (M : 2 * inject_Z (Z.of_nat k) * (c - 1) <= 2 * 1000004 * (c - 1)).
  { apply Qmult_le_compat_r; lra. }
  eapply Qle_trans; [apply cpow_bound|]; lra.
Qed.

Lemma approx_near_100 (k : nat) (s : Q) :
  (Z.of_nat k <= 1000004)%Z -> approx k s 100 -> Qabs (s - 100) <= 1 # 1000000.
Proof.
  intros K [_ [S0 [A1 A2]]]. pose proof (cpow_million k K) as M.
  pose proof (cpow_ge_1 k) as G.
  set (e := cpow k) in *.
  assert (U : s <= 100 + (1 # 10000000)).
  { apply Qle_trans with (100 * e); auto.
    apply Qle_trans with (100 * (1 + (1 # 1000000000))); [|unfold Qle; simpl; lia].
    apply Qmult_le_l; [reflexivity|exact M]. }
  assert (L : 100 <= s + s * (1 # 1000000000)).
  { apply Qle_trans with (s * e); auto.
    setoid_replace (s + s * (1 # 1000000000)) with (s * (1 + (1 # 1000000000))) by ring.
    apply Qmult_le_compat_nonneg; lra. }
  apply Qabs_Qle_condition. lra.
Qed.

(** The share column of integer demands [ds] sums to 100 within 1e-6. *)
Lemma share_column_near_100 (ds : list Z) :
  Forall (fun d => (0 <= d)%Z) ds ->
  (0 < Int64.exact_sum ds <= Int64.max_int)%Z ->
  (Z.of_nat (List.length ds) <= 1000000)%Z ->
  near_100 (sum (map (fun d => percent_of d (Int64.sum ds)) ds)).
Proof.
  intros N [P M] L.
  rewrite Int64.sum_exact.
  2:{ unfold Int64.in_range, Int64.min_int. lia. }
  set (whole := Int64.exact_sum ds) in *.
  rewrite (map_ext _ (fun d => Fin (share_value whole d))).
  2:{ intros d. now apply percent_of_finite. }
  unfold sum. rewrite no_nan_among_finite.
  destruct (fold_shares whole ds P N 4 0 0) as [s [E A]]; [lia|apply approx_refl; lra|].
  rewrite E. unfold near_100.
  apply (approx_near_100 (4 + List.length ds)); [lia|].
  destruct A as [A1 [A2 [A3 A4]]].
  assert (T : 0 + fold_right Qplus 0 (map (share_exact whole) ds) == 100).
  { rewrite exact_shares_total by assumption. fold whole. field.
    change 0 with (inject_Z 0). rewrite inject_Z_injective. lia. }
  rewrite T in A1, A3, A4. unfold approx. auto.
Qed.

Local Close Scope Q_scope.

Lemma shares_of_by_type (merged : list merged_row) :
  map severely_burdened_pct (by_type merged) =
  map (fun d => percent_of d (Int64.sum (map total_severe (by_type merged))))
      (map total_severe (by_type merged)).
Proof.
  unfold by_type. rewrite !map_map. reflexivity.
Qed.

(** C1, as amended. When the summed demands of the groups are
    non-negative, their exact grand total is positive and fits a signed
    64-bit integer, and there are at most a million groups, the
    percentage-share column of the roll-up sums to 100 within 1e-6. *)
Theorem shares_sum_to_100 (merged : list merged_row) :
  Forall (fun r => 0 <= total_severe r) (by_type merged) ->
  0 < Int64.exact_sum (map total_severe (by_type merged)) <= Int64.max_int ->
  Z.of_nat (List.length (by_type merged)) <= 1000000 ->
  near_100 (share_total (by_type merged)).
Proof.
  intros N T L. unfold share_total. rewrite shares_of_by_type.
  apply share_column_near_100; auto.
  - apply Forall_map. exact N.
  - now rewrite length_map.
Qed.

Lemma shares_sum_to_100_witness :
  near_100 (share_total (by_type (merge_left two_cities two_types))).
Proof.
  apply shares_sum_to_100.
  - vm_compute. repeat constructor; discriminate.
  - vm_compute. split; [reflexivity|discriminate].
  - vm_compute. discriminate.
Defined.

Definition no_demand : list coverage_row :=
  [ {| cov_city := "New York, NY"; cov_severe := 0; cov_subsidized := 110000 |};
    {| cov_city := "Detroit, MI"; cov_severe := 0; cov_subsidized := 110000 |} ].

(** Two cities without a single burdened renter: two roll-up rows, both
    shares are 0/0, and the column sums to 0. *)
Lemma shares_of_no_demand :
  map income_group (by_type (merge_left no_demand two_types))
    = ["Legacy City"; "Strong Market"]%string /\
  map severely_burdened_pct (by_type (merge_left no_demand two_types)) = [NaN; NaN] /\
  share_total (by_type (merge_left no_demand two_types)) = Fin 0 /\
  ~ near_100 (share_total (by_type (merge_left no_demand two_types))).
Proof.
  repeat split; try (vm_compute; reflexivity).
  intros H. vm_compute in H. apply H. reflexivity.
Qed.

Definition huge_demand : list coverage_row :=
  [ {| cov_city := "New York, NY"; cov_severe := 2 ^ 62; cov_subsidized := 110000 |};
    {| cov_city := "Detroit, MI"; cov_severe := 2 ^ 62; cov_subsidized := 110000 |} ].

(** Two groups of 2^62 renters each: the grand total wraps to -2^63, each
    share is -50 and the column sums to -100. *)
Lemma shares_of_huge_demand :
  Int64.sum (map total_severe (by_type (merge_left huge_demand two_types))) = - 2 ^ 63 /\
  map severely_burdened_pct (by_type (merge_left huge_demand two_types))
    = [Fin (-50); Fin (-50)] /\
  share_total (by_type (merge_left huge_demand two_types)) = Fin (-100).
Proof. repeat split; vm_compute; reflexivity. Qed.

End Rollup.

(** ** Filtering and joining frames with ascending keys *)

Section FrameJoin.
Context {K : Type} `{Ord K}.

Lemma ascending_filter {B} (P : K * B -> bool) (l : list (K * B)) :
  ascending l -> ascending (filter P l).
Proof.
  induction l as [|[k b] l IH]; simpl; intros S; auto.
  apply ascending_cons in S. destruct S as [S F].
  destruct (P (k, b)); auto.
  apply ascending_cons. split; auto.
  apply Forall_forall. intros x Hx. rewrite Forall_forall in F. apply F.
  unfold keys in *. apply in_map_iff in Hx. destruct Hx as [r [<- Hr]].
  apply filter_In in Hr. now apply in_map.
Qed.

Lemma ascending_nodup {B} (l : list (K * B)) : ascending l -> NoDup (keys l).
Proof.
  induction l as [|[k b] l IH]; simpl; intros S; [constructor|].
  apply ascending_cons in S. destruct S as [S F]. constructor; auto.
  intros I. rewrite Forall_forall in F. apply (lt_irrefl k). auto.
Qed.

(** In a frame with ascending keys at most one row has a given key. *)
Lemma filter_key_ascending {B} (k : K) (l : list (K * B)) :
  ascending l ->
  filter (fun r => eqb_key (fst r) k) l =
  match get k l with
  | Some b => [(k, b)]
  | None => []
  end.
Proof.
  induction l as [|[k' b] l IH]; simpl; intros S; auto.
  apply ascending_cons in S. destruct S as [S F].
  destruct (eqb_key k' k) eqn:E.
  - apply eqb_key_true in E. subst k'. rewrite eqb_key_refl.
    rewrite IH by assumption. now rewrite get_none_of_lt.
  - assert (E' : eqb_key k k' = false).
    { apply eqb_key_false. apply eqb_key_false in E. congruence. }
    rewrite E'. auto.
Qed.

Lemma in_ascending_get {B} (k : K) (b : B) (l : list (K * B)) :
  ascending l -> In (k, b) l -> get k l = Some b.
Proof. intros S. apply get_in. now apply ascending_nodup. Qed.

End FrameJoin.

(** ** Merged annual price-index series

    [partner_template.py], lines 293-381: the FHFA index, sampled monthly,
    and the Zillow home-value index, one column per date, are each reduced
    to one mean per year, cut at 2010 and joined on the year. *)

Module Trends.

Import B64 Py.

(** A cell of the [period] column. *)
Inductive period_cell : Type :=
| PInt (m : Z)        (* an integer, or text that [int] reads as this integer *)
| PFloat (x : float)  (* a number of a float column, or a missing value *)
| PText.              (* text that [int] does not accept *)

(** A row of [hpi_master.csv]. *)
Record hpi_row := {
  place_name : string;
  frequency : string;
  yr : Z;
  period : period_cell;
  index_sa : float
}.

(** A row of the Zillow file: its region and the value under each
    column. *)
Record zhvi_row := {
  RegionName : string;
  cell : string -> float
}.

Record zhvi_frame := {
  columns : list string;
  regions : list zhvi_row
}.

(** A row of [covid_trends]. *)
Record trend_row := {
  t_year : Z;
  hpi_index : float;
  zhvi : float
}.

(** What the block prints. *)
Inductive line : Type :=
| Text (s : string)
| ErrorLine (prefix : string) (e : exception).

(** [str(n)] of an integer. *)
Definition decimal (z : Z) : string := NilZero.string_of_int (Z.to_int z).

(** One step of the compensated sum of pandas' [group_mean]: the running
    sum and its compensation take in a value; a compensation that is not
    a number is reset. *)
Definition kahan_step (state : float * float) (val : float) : float * float :=
  let y := sub val (snd state) in
  let t := add (fst state) y in
  let c := sub (sub t (fst state)) y in
  (t, if is_nan c then Fin 0 else c).

Definition kahan_sum (l : list float) : float :=
  fst (fold_left kahan_step l (Fin 0, Fin 0)).

(** [groupby(...).mean()]: the compensated sum of the values that are not
    NaN over their number; NaN when there is none. *)
Definition mean (l : list float) : float :=
  let v := filter (fun x => negb (is_nan x)) l in
  match v with
  | [] => NaN
  | _ => div (kahan_sum v) (of_Z (Z.of_nat (List.length v)))
  end.

(** One mean per year, years in ascending order, years below [floor]
    discarded. *)
Definition annualize (floor : Z) (obs : list (Z * float)) : list (Z * float) :=
  filter (fun r => floor <=? fst r) (agg mean (groupby obs)).

(** [pd.merge(left, right, on="year", how="inner")] *)
Definition merge_inner (left right : list (Z * float)) : list trend_row :=
  flat_map
    (fun l =>
       map (fun r => {| t_year := fst l; hpi_index := snd l; zhvi := snd r |})
           (filter (fun r => Z.eqb (fst r) (fst l)) right))
    left.

Definition id_columns : list string :=
  ["RegionID"; "SizeRank"; "RegionName"; "RegionType"; "StateName"]%string.

Definition is_id_column (c : string) : bool := existsb (String.eqb c) id_columns.

(** The merger on two lists of (year, value) observations. *)
Definition merged_series (a b : list (Z * float)) : list trend_row :=
  merge_inner (annualize 2010 a) (annualize 2010 b).

(** *** Accuracy of the mean

    The compensated sum of finite values, followed on rationals: after
    each step the sum less its compensation is the exact sum up to a few
    units in the last place of the sum of the absolute values. *)

Local Open Scope Q_scope.


Lemma u_value : u = 1 # 9007199254740992.
Proof. reflexivity. Qed.

Lemma rnd_within (z m : Q) :
  - m <= z <= m -> - ((1 # 9007199254740992) * m) <= rnd z - z <= (1 # 9007199254740992) * m.
Proof.
  intros [L U]. pose proof (rnd_err z) as E. rewrite u_value in E.
  assert (Az : Qabs z <= m) by (apply Qabs_Qle_condition; split; assumption).
  assert (M : (1 # 9007199254740992) * Qabs z <= (1 # 9007199254740992) * m).
  { apply Qmult_le_l; [reflexivity|exact Az]. }
  apply Qabs_Qle_condition. lra.
Qed.

(** One step of the compensated sum on finite values. *)
Definition kstep (s c x : Q) : Q * Q :=
  let y := rnd (x + - c) in
  let t := rnd (s + y) in
  (t, rnd (rnd (t + - s) + - y)).

Definition err_bound (A B : Q) : Q :=
  (3 # 9007199254740992) * A
  + (16 # 81129638414606681695789005144064) * B.

Definition comp_bound (A : Q) : Q := (4 # 9007199254740992) * A.

Lemma kstep_invariant (s c T A B x X : Q) :
  0 <= A -> 0 <= B -> B <= 1000000 * A ->
  - X <= x <= X ->
  - A <= T <= A ->
  - err_bound A B <= s - c - T <= err_bound A B ->
  - comp_bound A <= c <= comp_bound A ->
  let s' := fst (kstep s c x) in
  let c' := snd (kstep s c x) in
  - err_bound (A + X) (B + (A + X)) <= s' - c' - (T + x)
    <= err_bound (A + X) (B + (A + X)) /\
  - comp_bound (A + X) <= c' <= comp_bound (A + X).
Proof.
  intros HA HB HBK HX HT HE Hc. unfold kstep. cbn [fst snd].
  unfold err_bound, comp_bound in *.
  set (y := rnd (x + - c)).
  set (t := rnd (s + y)).
  set (w := rnd (t + - s)).
  set (c' := rnd (w + - y)).
  assert (PX : 0 <= X) by lra.
  pose (Ms := A + (3 # 9007199254740992) * A
              + (16 # 81129638414606681695789005144064) * B
              + (4 # 9007199254740992) * A).
  assert (Hs : - Ms <= s <= Ms) by (subst Ms; lra).
  pose (Md := X + (4 # 9007199254740992) * A).
  pose proof (rnd_within (x + - c) Md ltac:(subst Md; lra)) as Ry. fold y in Ry.
  pose (My := Md + (1 # 9007199254740992) * Md).
  assert (Hy : - My <= y <= My) by (subst My Md; lra).
  pose proof (rnd_within (s + y) (Ms + My) ltac:(lra)) as Rt. fold t in Rt.
  pose (Mts := My + (1 # 9007199254740992) * (Ms + My)).
  assert (Hts : - Mts <= t + - s <= Mts) by (subst Mts; lra).
  pose proof (rnd_within (t + - s) Mts Hts) as Rw. fold w in Rw.
  pose (Mwy := (1 # 9007199254740992) * Mts + (1 # 9007199254740992) * (Ms + My)).
  assert (Hwy : - Mwy <= w + - y <= Mwy) by (subst Mwy; lra).
  pose proof (rnd_within (w + - y) Mwy Hwy) as Rc. fold c' in Rc.
  subst Mwy Mts My Md Ms.
  split; split; lra.
Qed.

Definition ksum (l : list Q) (s c : Q) : Q * Q :=
  fold_left (fun st x => kstep (fst st) (snd st) x) l (s, c).

Definition total (l : list Q) : Q := fold_right Qplus 0 l.

Lemma total_abs_nonneg (l : list Q) : 0 <= total (map Qabs l).
Proof.
  induction l as [|x l IH]; simpl; [lra|]. pose proof (Qabs_nonneg x). lra.
Qed.

Lemma ksum_invariant (l : list Q) :
  forall (s c T A B : Q) (k : nat),
    0 <= A -> 0 <= B -> B <= inject_Z (Z.of_nat k) * A ->
    (Z.of_nat k + Z.of_nat (List.length l) <= 1000000)%Z ->
    - A <= T <= A ->
    - err_bound A B <= s - c - T <= err_bound A B ->
    - comp_bound A <= c <= comp_bound A ->
    exists B',
      0 <= B' /\ B' <= 1000000 * (A + total (map Qabs l)) /\
      - err_bound (A + total (map Qabs l)) B'
        <= fst (ksum l s c) - snd (ksum l s c) - (T + total l)
        <= err_bound (A + total (map Qabs l)) B' /\
      - comp_bound (A + total (map Qabs l)) <= snd (ksum l s c)
        <= comp_bound (A + total (map Qabs l)).
Proof.
  induction l as [|x l IH]; intros s c T A B k HA HB HBk Hk HT HE Hc.
  - unfold ksum, total in *. cbn [fold_left fst snd map fold_right List.length] in *.
    assert (Kq : inject_Z (Z.of_nat k) <= 1000000).
    { change 1000000 with (inject_Z 1000000). rewrite <- Zle_Qle. lia. }
    assert (BK : inject_Z (Z.of_nat k) * A <= 1000000 * A).
    { apply Qmult_le_compat_r; assumption. }
    exists B. unfold err_bound, comp_bound in *. repeat split; lra.
  - assert (Kq : inject_Z (Z.of_nat k) <= 999999).
    { change 999999 with (inject_Z 999999). rewrite <- Zle_Qle.
      cbn [List.length] in Hk. lia. }
    assert (PK : 0 <= inject_Z (Z.of_nat k)).
    { change 0 with (inject_Z 0). rewrite <- Zle_Qle. lia. }
    assert (BK : inject_Z (Z.of_nat k) * A <= 1000000 * A).
    { apply Qmult_le_compat_r; [lra|assumption]. }
    pose proof (Qabs_nonneg x) as PX.
    assert (HX : - Qabs x <= x <= Qabs x).
    { apply Qabs_Qle_condition. apply Qle_refl. }
    destruct (kstep_invariant s c T A B x (Qabs x) HA HB ltac:(lra) HX HT HE Hc)
      as [HE' Hc'].
    destruct (IH (fst (kstep s c x)) (snd (kstep s c x)) (T + x) (A + Qabs x)
                 (B + (A + Qabs x)) (S k)) as [B' [PB' [BK' [E' C']]]].
    + lra.
    + lra.
    + rewrite Nat2Z.inj_succ. unfold Z.succ. rewrite inject_Z_plus.
      change (inject_Z 1) with 1.
      assert (M : inject_Z (Z.of_nat k) * A <= inject_Z (Z.of_nat k) * (A + Qabs x)).
      { rewrite !(Qmult_comm (inject_Z (Z.of_nat k))).
        apply Qmult_le_compat_r; lra. }
      lra.
    + cbn [List.length] in Hk. lia.
    + lra.
    + exact HE'.
    + exact Hc'.
    + exists B'.
      assert (EA : A + Qabs x + total (map Qabs l) == A + total (map Qabs (x :: l))).
      { unfold total. cbn [map fold_right]. ring. }
      assert (ET : T + x + total l == T + total (x :: l)).
      { unfold total. cbn [fold_right]. ring. }
      change (ksum (x :: l) s c) with (ksum l (fst (kstep s c x)) (snd (kstep s c x))).
      unfold err_bound, comp_bound in *.
      repeat split; lra.
Qed.

Lemma total_abs (l : list Q) :
  - total (map Qabs l) <= total l <= total (map Qabs l).
Proof.
  induction l as [|x l IH]; unfold total in *; cbn [map fold_right]; [lra|].
  assert (HX : - Qabs x <= x <= Qabs x).
  { apply Qabs_Qle_condition. apply Qle_refl. }
  lra.
Qed.

Lemma ksum_accuracy (l : list Q) :
  (Z.of_nat (List.length l) <= 1000000)%Z ->
  - ((8 # 9007199254740992) * total (map Qabs l))
    <= fst (ksum l 0 0) - total l
    <= (8 # 9007199254740992) * total (map Qabs l).
Proof.
  intros Hn.
  destruct (ksum_invariant l 0 0 0 0 0 0%nat) as [B [PB [BK [E C]]]];
    try (unfold err_bound, comp_bound; cbn [Z.of_nat inject_Z]; lra).
  - cbn [Z.of_nat]. lia.
  - pose proof (total_abs_nonneg l) as PA.
    unfold err_bound, comp_bound in *. split; lra.
Qed.

Lemma prod_within (p r P R : Q) :
  - P <= p <= P -> - R <= r <= R -> - (P * R) <= p * r <= P * R.
Proof.
  intros Hp Hr. apply Qabs_Qle_condition. rewrite Qabs_Qmult.
  apply Qmult_le_compat_nonneg; split;
    try apply Qabs_nonneg; apply Qabs_Qle_condition; assumption.
Qed.

(** The exact average of a list of rationals. *)
Definition average (l : list Q) : Q :=
  total l / inject_Z (Z.of_nat (List.length l)).

Lemma quotient_accuracy (l : list Q) (s : Q) :
  l <> [] ->
  - ((8 # 9007199254740992) * total (map Qabs l)) <= s - total l
    <= (8 # 9007199254740992) * total (map Qabs l) ->
  Qabs (rnd (s / rnd (inject_Z (Z.of_nat (List.length l)))) - average l)
  <= (1 # 500000000000000) * average (map Qabs l).
Proof.
  intros Ne Hs. unfold average. rewrite length_map.
  set (n := inject_Z (Z.of_nat (List.length l))).
  assert (Pn : 1 <= n).
  { unfold n. change 1 with (inject_Z 1). rewrite <- Zle_Qle.
    destruct l; [congruence|]. cbn [List.length]. lia. }
  pose proof (rnd_within n n ltac:(lra)) as RD.
  set (D := rnd n) in *.
  assert (PD : 0 < D) by lra.
  pose proof (total_abs l) as HT. pose proof (total_abs_nonneg l) as PA.
  set (T := total l) in *. set (A := total (map Qabs l)) in *.
  set (i := / n).
  assert (Pi : 0 <= i).
  { unfold i. apply Qlt_le_weak, Qinv_lt_0_compat. lra. }
  assert (Hni : n * i == 1).
  { unfold i. apply Qmult_inv_r. lra. }
  set (r := (n - D) / D).
  assert (Hr : - (2 # 9007199254740992) <= r <= 2 # 9007199254740992).
  { unfold r. split.
    - apply Qle_shift_div_l; [exact PD|]. lra.
    - apply Qle_shift_div_r; [exact PD|]. lra. }
  assert (Eq1 : s / D == s * i + (s * i) * r).
  { unfold r, i. field. split; lra. }
  assert (S1 : - ((8 # 9007199254740992) * (A * i)) <= s * i - T * i
               <= (8 # 9007199254740992) * (A * i)).
  { destruct Hs as [L U]. split.
    - apply (Qmult_le_compat_r _ _ i) in L; [|exact Pi]. lra.
    - apply (Qmult_le_compat_r _ _ i) in U; [|exact Pi]. lra. }
  assert (T1 : - (A * i) <= T * i <= A * i).
  { destruct HT as [L U]. split.
    - apply (Qmult_le_compat_r _ _ i) in L; [|exact Pi]. lra.
    - apply (Qmult_le_compat_r _ _ i) in U; [|exact Pi]. lra. }
  assert (PAi : 0 <= A * i) by (apply Qmult_le_0_compat; assumption).
  set (An := A * i) in *. set (Tn := T * i) in *. set (sg := s * i) in *.
  assert (Hsg : - ((1 + (8 # 9007199254740992)) * An) <= sg
                <= (1 + (8 # 9007199254740992)) * An) by lra.
  pose proof (prod_within sg r _ _ Hsg Hr) as Hp.
  set (a := s / D) in *.
  pose proof (rnd_within a
                ((1 + (8 # 9007199254740992)) * An
                 + (1 + (8 # 9007199254740992)) * An * (2 # 9007199254740992))
                ltac:(lra)) as Rq.
  apply Qabs_Qle_condition. unfold Qdiv. fold i. fold Tn. fold An.
  split; lra.
Qed.

Lemma kahan_fold_finite (l : list Q) (s c : Q) :
  fold_left kahan_step (map Fin l) (Fin s, Fin c)
  = (Fin (fst (ksum l s c)), Fin (snd (ksum l s c))).
Proof.
  revert s c. induction l as [|x l IH]; intros s c; [reflexivity|].
  cbn [map fold_left]. unfold ksum. cbn [fold_left fst snd].
  change (kahan_step (Fin s, Fin c) (Fin x))
    with (Fin (fst (kstep s c x)), Fin (snd (kstep s c x))).
  apply IH.
Qed.

Lemma finite_not_nan (l : list Q) :
  filter (fun x => negb (is_nan x)) (map Fin l) = map Fin l.
Proof. induction l as [|x l IH]; simpl; [reflexivity|]. now rewrite IH. Qed.

(** The mean of finite values. *)
Lemma mean_of_finite (l : list Q) :
  l <> [] ->
  mean (map Fin l)
  = Fin (rnd (fst (ksum l 0 0) / rnd (inject_Z (Z.of_nat (List.length l))))).
Proof.
  intros Ne. unfold mean. rewrite finite_not_nan.
  destruct l as [|x l]; [congruence|].
  change (map Fin (x :: l)) with (Fin x :: map Fin l) at 1.
  cbv iota. unfold kahan_sum. rewrite kahan_fold_finite, length_map.
  cbn [fst]. unfold of_Z, of_Q, div.
  assert (P : 0 < rnd (inject_Z (Z.of_nat (List.length (x :: l))))).
  { apply rnd_pos. change 0 with (inject_Z 0). rewrite <- Zlt_Qlt.
    cbn [List.length]. lia. }
  destruct (Qis_zero (rnd (inject_Z (Z.of_nat (List.length (x :: l)))))) eqn:Z0;
    [|reflexivity].
  apply Qis_zero_iff in Z0. rewrite Z0 in P. discriminate.
Qed.

(** The mean of at most a million finite values is their average within
    two parts in 10^15 of the average of their absolute values. *)
Lemma mean_accuracy (l : list Q) :
  l <> [] -> (Z.of_nat (List.length l) <= 1000000)%Z ->
  exists q,
    mean (map Fin l) = Fin q /\
    Qabs (q - average l) <= (1 # 500000000000000) * average (map Qabs l).
Proof.
  intros Ne Hn. rewrite (mean_of_finite l Ne). eexists. split; [reflexivity|].
  apply quotient_accuracy; [exact Ne|]. now apply ksum_accuracy.
Qed.

Local Close Scope Q_scope.

(** *** Years of the annualized and of the merged series *)

Lemma eqb_key_Z (a b : Z) : eqb_key a b = Z.eqb a b.
Proof.
  unfold eqb_key. change (cmp a b) with (Z.compare a b).
  destruct (Z.compare_spec a b) as [E|L|L].
  - subst. now rewrite Z.eqb_refl.
  - symmetry. apply Z.eqb_neq. lia.
  - symmetry. apply Z.eqb_neq. lia.
Qed.

Lemma annualize_ascending (floor : Z) (obs : list (Z * float)) :
  ascending (annualize floor obs).
Proof.
  unfold annualize. apply ascending_filter, ascending_agg, ascending_groupby.
Qed.

Lemma annualize_years (floor : Z) (obs : list (Z * float)) (y : Z) :
  In y (keys (annualize floor obs)) <-> floor <= y /\ In y (keys obs).
Proof.
  unfold annualize. split.
  - intros I. unfold keys in I. apply in_map_iff in I.
    destruct I as [[y' v] [E I]]. cbn [fst] in E. subst y'.
    apply filter_In in I. destruct I as [I L]. cbn [fst] in L.
    split; [now apply Z.leb_le|].
    apply keys_groupby. rewrite <- (keys_agg mean).
    change y with (fst (y, v)). unfold keys. now apply in_map.
  - intros [L I]. apply keys_groupby in I.
    rewrite <- (keys_agg mean) in I. unfold keys in I.
    apply in_map_iff in I. destruct I as [[y' v] [E I]]. cbn [fst] in E. subst y'.
    change y with (fst (y, v)). unfold keys. apply in_map.
    apply filter_In. split; auto. now apply Z.leb_le.
Qed.

(** The value kept for a year is the mean of that year's observations. *)
Lemma annualize_value (floor : Z) (obs : list (Z * float)) (y : Z) (v : float) :
  In (y, v) (annualize floor obs) -> v = mean (values_of y obs).
Proof.
  unfold annualize. intros I. apply filter_In in I. destruct I as [I _].
  apply in_ascending_get in I.
  2:{ apply ascending_agg, ascending_groupby. }
  rewrite get_agg, get_groupby in I.
  destruct (values_of y obs); simpl in I; [discriminate|]. congruence.
Qed.

Lemma merge_inner_years (left right : list (Z * float)) :
  ascending right ->
  map t_year (merge_inner left right) =
  keys (filter (fun l => match get (fst l) right with
                         | Some _ => true
                         | None => false
                         end) left).
Proof.
  intros S. unfold merge_inner, keys.
  induction left as [|[y a] left IH]; simpl; auto.
  rewrite map_app, IH, map_map. cbn [t_year fst].
  rewrite (filter_ext _ (fun r => eqb_key (fst r) y)).
  2:{ intros r. now rewrite eqb_key_Z. }
  rewrite filter_key_ascending by assumption.
  destruct (get y right); reflexivity.
Qed.

Lemma merge_inner_rows (left right : list (Z * float)) (row : trend_row) :
  In row (merge_inner left right) ->
  In (t_year row, hpi_index row) left /\ In (t_year row, zhvi row) right.
Proof.
  unfold merge_inner. rewrite in_flat_map. intros [[y a] [Il I]].
  apply in_map_iff in I. destruct I as [[y' b] [<- I]].
  apply filter_In in I. destruct I as [Ir E]. simpl in *.
  apply Z.eqb_eq in E. subst y'. auto.
Qed.

Lemma merged_series_years (a b : list (Z * float)) (y : Z) :
  In y (map t_year (merged_series a b)) <->
  2010 <= y /\ In y (keys a) /\ In y (keys b).
Proof.
  unfold merged_series. rewrite merge_inner_years by apply annualize_ascending.
  unfold keys at 1. rewrite in_map_iff. split.
  - intros [[y' v] [<- I]]. apply filter_In in I. destruct I as [I G].
    simpl in *. apply (in_map fst) in I. fold (keys (annualize 2010 a)) in I.
    apply annualize_years in I. destruct I as [L I]. repeat split; auto.
    assert (X : In y' (keys (annualize 2010 b))).
    { apply get_in_keys. destruct (get y' (annualize 2010 b)); congruence. }
    apply annualize_years in X. tauto.
  - intros [L [Ia Ib]].
    assert (Xa : In y (keys (annualize 2010 a))) by (apply annualize_years; auto).
    assert (Xb : In y (keys (annualize 2010 b))) by (apply annualize_years; auto).
    unfold keys in Xa. apply in_map_iff in Xa. destruct Xa as [[y' v] [E I]].
    simpl in E. subst y'. exists (y, v). split; auto.
    apply filter_In. split; auto. simpl.
    apply get_in_keys in Xb. destruct (get y (annualize 2010 b)); congruence.
Qed.

Lemma merged_series_sorted (a b : list (Z * float)) :
  StronglySorted Z.lt (map t_year (merged_series a b)).
Proof.
  unfold merged_series. rewrite merge_inner_years by apply annualize_ascending.
  exact (ascending_filter _ _ (annualize_ascending 2010 a)).
Qed.

(** *** Reading dates

    [pd.to_datetime] on a column of strings infers one format from the
    first string that is neither empty, nor one of the spellings of a
    missing date, nor [now] or [today], and reads every string under that
    format; when it infers no format it reads the strings one by one. *)

Definition null_like (s : string) : bool :=
  existsb (String.eqb s)
          [EmptyString; "NaT"; "nat"; "NAT"; "nan"; "NaN"; "NAN"; "now"; "today"]%string.

(** The string that the format is inferred from. *)
Definition format_source (column : list string) : option string :=
  find (fun s => negb (null_like s)) column.

Definition is_none {A} (o : option A) : bool :=
  match o with
  | Some _ => false
  | None => true
  end.

(** Truncation toward zero. *)
Definition truncate (q : Q) : Z := Z.quot (Qnum q) (Zpos (Qden q)).

Definition in_int64 (z : Z) : bool :=
  (Int64.min_int <=? z) && (z <=? Int64.max_int).

Definition hpi_us (hpi : list hpi_row) : list hpi_row :=
  filter (fun r => String.eqb (place_name r) "United States"
                   && String.eqb (frequency r) "monthly") hpi.

(** [yr.astype(str) + "-" + month.astype(str) + "-01"] on one row. *)
Definition hpi_date_string (rm : hpi_row * Z) : string :=
  (decimal (yr (fst rm)) ++ "-" ++ decimal (snd rm) ++ "-01")%string.

Definition date_cols (f : zhvi_frame) : list string :=
  filter (fun c => negb (is_id_column c)) (columns f).

Definition zhvi_us (f : zhvi_frame) : list zhvi_row :=
  filter (fun r => String.eqb (RegionName r) "United States") (regions f).

(** [melt]: one row per date column and region, column after column. *)
Definition zhvi_long (f : zhvi_frame) : list (string * float) :=
  flat_map (fun c => map (fun r => (c, cell r c)) (zhvi_us f)) (date_cols f).

(** [dropna(subset=["date"])] and [.dt.year]: the rows whose date was
    read, each with its year. *)
Definition drop_missing (rows : list (option Z * float)) : list (Z * float) :=
  flat_map
    (fun r =>
       match fst r with
       | Some y => [(y, snd r)]
       | None => []
       end)
    rows.

(** The strings built from the index file hold a dash: none of them is
    skipped when the format is inferred, and none is a missing date. *)
Fixpoint has_dash (s : string) : bool :=
  match s with
  | EmptyString => false
  | String a rest => Ascii.eqb a "-" || has_dash rest
  end.

Lemma has_dash_append (a b : string) : has_dash (a ++ "-" ++ b)%string = true.
Proof.
  induction a as [|x a IH]; [reflexivity|].
  change (Ascii.eqb x "-" || has_dash (a ++ "-" ++ b)%string = true).
  rewrite IH. apply orb_true_r.
Qed.

Lemma null_like_no_dash (s : string) : null_like s = true -> has_dash s = false.
Proof.
  unfold null_like. intros H. apply existsb_exists in H.
  destruct H as [x [I E]]. apply String.eqb_eq in E. subst x.
  simpl in I. repeat (destruct I as [<-|I]; [reflexivity|]). contradiction.
Qed.

Lemma hpi_date_string_not_null (rm : hpi_row * Z) :
  null_like (hpi_date_string rm) = false.
Proof.
  destruct (null_like (hpi_date_string rm)) eqn:N; [|reflexivity].
  apply null_like_no_dash in N. unfold hpi_date_string in N.
  now rewrite has_dash_append in N.
Qed.

Lemma hpi_format_source (l : list (hpi_row * Z)) :
  format_source (map hpi_date_string l) = head (map hpi_date_string l).
Proof.
  destruct l as [|rm l]; [reflexivity|].
  unfold format_source. simpl. now rewrite hpi_date_string_not_null.
Qed.

Section Charts.

Context {date_format : Type}.

(** The format that pandas infers from a string, if any. *)
Variable guess_format : string -> option date_format.

(** The year of the date that a string denotes under a format, if it
    denotes one. *)
Variable strptime : date_format -> string -> option Z.

(** The year of the date that a string denotes when it is read on its
    own, if it denotes one. *)
Variable parse_one : string -> option Z.

(** What the cast of a float beyond the 64-bit integers leaves in an
    [int64] column. *)
Variable out_of_range_cast : Q -> Z.

(** How the strings of a column are read. *)
Definition reader (column : list string) : string -> option Z :=
  match format_source column with
  | Some s =>
      match guess_format s with
      | Some fmt => strptime fmt
      | None => parse_one
      end
  | None => parse_one
  end.

(** [pd.to_datetime(column, errors="coerce")] followed by [.dt.year]:
    [None] is a missing date. *)
Definition to_datetime_coerce (column : list string) : list (option Z) :=
  map (reader column) column.

(** [pd.to_datetime(column)] followed by [.dt.year], on a column without
    a missing date: a string that is not read raises. *)
Definition to_datetime_raise (column : list string) : result (list Z) :=
  match format_source column with
  | Some s =>
      match guess_format s with
      | Some fmt =>
          mapM (fun d => match strptime fmt d with
                         | Some y => Ok y
                         | None => Raise ValueError
                         end) column
      | None =>
          mapM (fun d => match parse_one d with
                         | Some y => Ok y
                         | None => Raise DateParseError
                         end) column
      end
  | None =>
      mapM (fun d => match parse_one d with
                     | Some y => Ok y
                     | None => Raise DateParseError
                     end) column
  end.

(** The cast of a finite float to [int64]. *)
Definition int64_of_float (q : Q) : Z :=
  if in_int64 (truncate q) then truncate q else out_of_range_cast q.

(** [period.astype(int)] on one cell. *)
Definition hpi_month (r : hpi_row) : result Z :=
  match period r with
  | PInt m => if in_int64 m then Ok m else Raise OverflowError
  | PFloat (Fin q) => Ok (int64_of_float q)
  | PFloat _ => Raise ValueError
  | PText => Raise ValueError
  end.

(** The (year, index) observations of the FHFA file. *)
Definition hpi_observations (hpi : list hpi_row) : result (list (Z * float)) :=
  let us := hpi_us hpi in
  months <- mapM hpi_month us ;;
  years <- to_datetime_raise (map hpi_date_string (combine us months)) ;;
  Ok (combine years (map index_sa us)).

Definition hpi_year (hpi : list hpi_row) : result (list (Z * float)) :=
  obs <- hpi_observations hpi ;;
  Ok (annualize 2010 obs).

(** [to_datetime(..., errors="coerce")], [dropna(subset=["date"])] and
    the year of what remains. *)
Definition dated (long : list (string * float)) : list (Z * float) :=
  drop_missing (combine (to_datetime_coerce (map fst long)) (map snd long)).

Definition zhvi_observations (f : zhvi_frame) : list (Z * float) :=
  dated (zhvi_long f).

Definition zhvi_year (f : zhvi_frame) : list (Z * float) :=
  annualize 2010 (zhvi_observations f).

(** [covid_trends], or the exception that ends the [try] block. *)
Definition covid_trends (hpi : list hpi_row) (f : zhvi_frame) : result (list trend_row) :=
  h <- hpi_year hpi ;;
  Ok (merge_inner h (zhvi_year f)).

(** The block as a whole: the lines it prints and the data of the chart
    it saves, if any. *)
Definition chart3 (hpi : list hpi_row) (f : zhvi_frame)
  : list line * option (list trend_row) :=
  match covid_trends hpi f with
  | Ok rows => ([Text "Saved: visualizations/covid_trends.html"], Some rows)
  | Raise e => ([ErrorLine "ERROR creating chart 3: " e], None)
  end.

(** Rows of the melted frame that [dropna] removes. *)
Definition dropped_rows (f : zhvi_frame) : nat :=
  List.length (filter is_none (to_datetime_coerce (map fst (zhvi_long f)))).

(** How the names of the date columns of a frame are read. *)
Definition column_reader (f : zhvi_frame) : string -> option Z :=
  reader (date_cols f).

(** The string that fixes the reading of the column names is itself read
    as a date. *)
Definition first_readable (f : zhvi_frame) : Prop :=
  match format_source (date_cols f) with
  | Some s => column_reader f s <> None
  | None => True
  end.

(** The frame without the columns whose name is not read as a date. *)
Definition parseable_only (f : zhvi_frame) : zhvi_frame :=
  {| columns := filter (fun c => is_id_column c || negb (is_none (column_reader f c)))
                       (columns f);
     regions := regions f |}.

(** *** Reading a column *)

Lemma mapM_length {A B} (g : A -> result B) (l : list A) (bs : list B) :
  mapM g l = Ok bs -> List.length bs = List.length l.
Proof.
  revert bs. induction l as [|a l IH]; simpl; intros bs E.
  - inversion E. reflexivity.
  - destruct (g a) as [b|]; simpl in E; [|discriminate].
    destruct (mapM g l) as [bs0|]; simpl in E; [|discriminate].
    inversion E; subst. simpl. now rewrite (IH bs0 eq_refl).
Qed.

Lemma mapM_option {A B} (g : A -> option B) (e : exception) (l : list A) (bs : list B) :
  mapM (fun a => match g a with Some b => Ok b | None => Raise e end) l = Ok bs ->
  map Some bs = map g l.
Proof.
  revert bs. induction l as [|a l IH]; simpl; intros bs E.
  - inversion E. reflexivity.
  - destruct (g a) as [b|]; simpl in E; [|discriminate].
    destruct (mapM _ l) as [bs0|]; simpl in E; [|discriminate].
    inversion E; subst. simpl. now rewrite (IH bs0 eq_refl).
Qed.

Lemma mapM_option_all {A B} (g : A -> option B) (e : exception) (l : list A) :
  Forall (fun a => g a <> None) l ->
  exists bs, mapM (fun a => match g a with Some b => Ok b | None => Raise e end) l = Ok bs.
Proof.
  induction 1 as [|a l Ha _ [bs IH]]; simpl.
  - now exists [].
  - destruct (g a) as [b|]; [|congruence]. simpl. rewrite IH. simpl.
    now exists (b :: bs).
Qed.

Lemma keys_combine {A B} (l1 : list A) (l2 : list B) :
  List.length l1 = List.length l2 -> map fst (combine l1 l2) = l1.
Proof.
  revert l2. induction l1 as [|a l1 IH]; intros [|b l2] L; simpl in *;
    try reflexivity; try discriminate.
  f_equal. apply IH. congruence.
Qed.

Lemma values_combine {A B} (l1 : list A) (l2 : list B) :
  List.length l1 = List.length l2 -> map snd (combine l1 l2) = l2.
Proof.
  revert l2. induction l1 as [|a l1 IH]; intros [|b l2] L; simpl in *;
    try reflexivity; try discriminate.
  f_equal. apply IH. congruence.
Qed.

Lemma to_datetime_raise_ok (column : list string) (ys : list Z) :
  to_datetime_raise column = Ok ys -> map Some ys = to_datetime_coerce column.
Proof.
  unfold to_datetime_raise, to_datetime_coerce, reader.
  destruct (format_source column) as [s|]; [destruct (guess_format s)|];
    apply mapM_option.
Qed.

(** A column of which every string is read gives its years. *)
Lemma to_datetime_raise_all (column : list string) :
  Forall (fun d => reader column d <> None) column ->
  exists ys, to_datetime_raise column = Ok ys.
Proof.
  unfold to_datetime_raise, reader.
  destruct (format_source column) as [s|]; [destruct (guess_format s)|];
    apply mapM_option_all.
Qed.

Lemma hpi_observations_rows (hpi : list hpi_row) (a : list (Z * float)) :
  hpi_observations hpi = Ok a ->
  exists months,
    mapM hpi_month (hpi_us hpi) = Ok months /\
    map Some (keys a)
      = to_datetime_coerce (map hpi_date_string (combine (hpi_us hpi) months)) /\
    map snd a = map index_sa (hpi_us hpi).
Proof.
  unfold hpi_observations.
  destruct (mapM hpi_month (hpi_us hpi)) as [months|] eqn:Em; simpl; [|discriminate].
  destruct (to_datetime_raise _) as [years|] eqn:Ey; simpl; [|discriminate].
  intros E. inversion E; subst a. clear E.
  exists months. split; [reflexivity|].
  assert (Lm := mapM_length _ _ _ Em).
  assert (Ly : List.length years = List.length (hpi_us hpi)).
  { apply to_datetime_raise_ok in Ey. apply (f_equal (@List.length _)) in Ey.
    unfold to_datetime_coerce in Ey.
    rewrite !length_map, length_combine, Lm, Nat.min_id in Ey. exact Ey. }
  split.
  - unfold keys. rewrite keys_combine by now rewrite length_map.
    now apply to_datetime_raise_ok.
  - apply values_combine. now rewrite length_map.
Qed.

Lemma covid_trends_ok (hpi : list hpi_row) (f : zhvi_frame) (rows : list trend_row) :
  covid_trends hpi f = Ok rows ->
  exists a, hpi_observations hpi = Ok a /\
            rows = merged_series a (zhvi_observations f).
Proof.
  unfold covid_trends, hpi_year, zhvi_year, merged_series.
  destruct (hpi_observations hpi) as [a|e]; simpl; [|discriminate].
  intros E. inversion E. exists a. auto.
Qed.

Lemma filter_twice {A} (p : A -> bool) (l : list A) :
  filter p (filter p l) = filter p l.
Proof.
  induction l as [|x l IH]; simpl; [reflexivity|].
  destruct (p x) eqn:P; simpl; rewrite ?P, IH; reflexivity.
Qed.

Lemma mean_skips_nan (l : list float) :
  mean l = mean (filter (fun x => negb (is_nan x)) l).
Proof. unfold mean. now rewrite filter_twice. Qed.


(** *** Unparseable dates *)

Lemma combine_read (rd : string -> option Z) (long : list (string * float)) :
  combine (map rd (map fst long)) (map snd long)
  = map (fun r => (rd (fst r), snd r)) long.
Proof. induction long as [|r long IH]; simpl; [reflexivity|]. now rewrite IH. Qed.

Lemma find_block {A} (p : string -> bool) (c : string) (us : list A) (l : list string) :
  us <> [] ->
  find p (map (fun _ => c) us ++ l) = if p c then Some c else find p l.
Proof.
  intros N. destruct (p c) eqn:P.
  - destruct us; [congruence|]. simpl. now rewrite P.
  - clear N. induction us; simpl; [reflexivity|]. now rewrite P.
Qed.

Lemma zhvi_long_nil (f : zhvi_frame) : zhvi_us f = [] -> zhvi_long f = [].
Proof.
  unfold zhvi_long. intros ->. induction (date_cols f); simpl; auto.
Qed.

Lemma format_source_long (f : zhvi_frame) :
  zhvi_us f <> [] ->
  format_source (map fst (zhvi_long f)) = format_source (date_cols f).
Proof.
  intros N. unfold zhvi_long, format_source.
  induction (date_cols f) as [|c cs IH]; simpl; [reflexivity|].
  rewrite map_app, map_map. cbn [fst].
  rewrite find_block by exact N. now rewrite IH.
Qed.

(** Every row of the melted frame is read as the column names are. *)
Lemma coerce_long (f : zhvi_frame) :
  to_datetime_coerce (map fst (zhvi_long f))
  = map (column_reader f) (map fst (zhvi_long f)).
Proof.
  destruct (zhvi_us f) as [|r rs] eqn:U.
  - now rewrite (zhvi_long_nil f U).
  - unfold to_datetime_coerce, column_reader, reader.
    rewrite format_source_long; [reflexivity|]. rewrite U. discriminate.
Qed.

Lemma zhvi_observations_rows (f : zhvi_frame) :
  zhvi_observations f
  = drop_missing (map (fun r => (column_reader f (fst r), snd r)) (zhvi_long f)).
Proof.
  unfold zhvi_observations, dated. now rewrite coerce_long, combine_read.
Qed.

Lemma in_drop_missing (rows : list (option Z * float)) (y : Z) (v : float) :
  In (y, v) (drop_missing rows) <-> In (Some y, v) rows.
Proof.
  unfold drop_missing. rewrite in_flat_map. split.
  - intros [[d w] [I K]]. cbn [fst snd] in K. destruct d as [y'|]; [|contradiction].
    destruct K as [K|[]]. inversion K; subst. exact I.
  - intros I. exists (Some y, v). split; [exact I|]. now left.
Qed.

Lemma in_zhvi_long (f : zhvi_frame) (c : string) (v : float) :
  In (c, v) (zhvi_long f) <->
  In c (date_cols f) /\ exists r, In r (zhvi_us f) /\ v = cell r c.
Proof.
  unfold zhvi_long. rewrite in_flat_map. split.
  - intros [c' [Ic I]]. apply in_map_iff in I. destruct I as [r [E Ir]].
    inversion E; subst. split; [exact Ic|]. now exists r.
  - intros [Ic [r [Ir ->]]]. exists c. split; [exact Ic|].
    apply in_map_iff. now exists r.
Qed.

Lemma in_zhvi_observations (f : zhvi_frame) (y : Z) (v : float) :
  In (y, v) (zhvi_observations f) <->
  exists c r, In c (date_cols f) /\ In r (zhvi_us f) /\
              column_reader f c = Some y /\ v = cell r c.
Proof.
  rewrite zhvi_observations_rows, in_drop_missing, in_map_iff. split.
  - intros [[c w] [E I]]. cbn [fst snd] in E. inversion E; subst w.
    apply in_zhvi_long in I. destruct I as [Ic [r [Ir ->]]].
    exists c, r. auto.
  - intros [c [r [Ic [Ir [E ->]]]]]. exists (c, cell r c). split.
    + cbn [fst snd]. now rewrite E.
    + apply in_zhvi_long. split; [exact Ic|]. now exists r.
Qed.

Lemma drop_missing_length (rows : list (option Z * float)) :
  (List.length (drop_missing rows) + List.length (filter is_none (map fst rows))
   = List.length rows)%nat.
Proof.
  unfold drop_missing. induction rows as [|[d v] rows IH]; simpl; [reflexivity|].
  destruct d; simpl; lia.
Qed.

Lemma dropped_rows_read (f : zhvi_frame) :
  dropped_rows f
  = List.length (filter is_none (map (column_reader f) (map fst (zhvi_long f)))).
Proof. unfold dropped_rows. now rewrite coerce_long. Qed.

Lemma rows_kept_or_dropped (f : zhvi_frame) :
  (List.length (zhvi_observations f) + dropped_rows f
   = List.length (zhvi_long f))%nat.
Proof.
  rewrite zhvi_observations_rows, dropped_rows_read.
  pose proof (drop_missing_length
                (map (fun r => (column_reader f (fst r), snd r)) (zhvi_long f))) as D.
  rewrite length_map, map_map in D. cbn [fst] in D. rewrite map_map. exact D.
Qed.

Lemma unread_block (rd : string -> option Z) (c : string) (us : list zhvi_row) :
  List.length (filter is_none (map rd (map fst (map (fun r => (c, cell r c)) us))))
  = if is_none (rd c) then List.length us else 0%nat.
Proof.
  induction us as [|r us IH]; simpl.
  - now destruct (is_none (rd c)).
  - destruct (is_none (rd c)); simpl; now rewrite IH.
Qed.

Lemma unread_rows (rd : string -> option Z) (cols : list string) (us : list zhvi_row) :
  List.length
    (filter is_none
       (map rd (map fst (flat_map (fun c => map (fun r => (c, cell r c)) us) cols))))
  = (List.length (filter (fun c => is_none (rd c)) cols) * List.length us)%nat.
Proof.
  induction cols as [|c cols IH]; simpl; [reflexivity|].
  rewrite !map_app, filter_app, length_app, IH, unread_block.
  destruct (is_none (rd c)); simpl; lia.
Qed.

(** The rows dropped are those of the columns whose name is not read. *)
Lemma dropped_rows_by_column (f : zhvi_frame) :
  dropped_rows f
  = (List.length (filter (fun c => is_none (column_reader f c)) (date_cols f))
     * List.length (zhvi_us f))%nat.
Proof. rewrite dropped_rows_read. apply unread_rows. Qed.

Lemma date_cols_parseable_only (f : zhvi_frame) :
  date_cols (parseable_only f) =
  filter (fun c => negb (is_none (column_reader f c))) (date_cols f).
Proof.
  unfold date_cols, parseable_only. cbn [columns].
  induction (columns f) as [|c cs IH]; simpl; auto.
  destruct (is_id_column c) eqn:I; simpl.
  - rewrite I. simpl. exact IH.
  - destruct (is_none (column_reader f c)); simpl; rewrite ?I; simpl; now rewrite IH.
Qed.

Lemma find_filter {A} (p q : A -> bool) (l : list A) :
  (forall s, find p l = Some s -> q s = true) ->
  find p (filter q l) = find p l.
Proof.
  induction l as [|x l IH]; simpl; intros H; [reflexivity|].
  destruct (p x) eqn:P.
  - rewrite (H x eq_refl). simpl. now rewrite P.
  - destruct (q x); simpl; rewrite ?P; apply IH; exact H.
Qed.

Lemma column_reader_parseable_only (f : zhvi_frame) :
  first_readable f -> column_reader (parseable_only f) = column_reader f.
Proof.
  unfold first_readable. intros R.
  assert (E : format_source (date_cols (parseable_only f))
              = format_source (date_cols f)).
  { rewrite date_cols_parseable_only. unfold format_source. apply find_filter.
    intros s Es. fold (format_source (date_cols f)) in Es. rewrite Es in R.
    destruct (column_reader f s); [reflexivity|congruence]. }
  unfold column_reader at 1. unfold reader. rewrite E. reflexivity.
Qed.

Lemma unread_block_dropped (rd : string -> option Z) (c : string) (us : list zhvi_row) :
  rd c = None ->
  drop_missing (map (fun r => (rd (fst r), snd r))
                    (map (fun r => (c, cell r c)) us)) = [].
Proof.
  intros E. unfold drop_missing.
  induction us as [|r us IH]; simpl; [reflexivity|]. rewrite E. exact IH.
Qed.

Lemma drop_missing_app (l1 l2 : list (option Z * float)) :
  drop_missing (l1 ++ l2) = drop_missing l1 ++ drop_missing l2.
Proof. unfold drop_missing. apply flat_map_app. Qed.

Lemma read_rows_filter (rd : string -> option Z) (cols : list string) (us : list zhvi_row) :
  drop_missing
    (map (fun r => (rd (fst r), snd r))
         (flat_map (fun c => map (fun r => (c, cell r c)) us)
                   (filter (fun c => negb (is_none (rd c))) cols)))
  = drop_missing
      (map (fun r => (rd (fst r), snd r))
           (flat_map (fun c => map (fun r => (c, cell r c)) us) cols)).
Proof.
  induction cols as [|c cols IH]; [reflexivity|].
  cbn [filter flat_map]. destruct (rd c) as [y|] eqn:E; cbn [is_none negb].
  - cbn [flat_map]. rewrite !map_app, !drop_missing_app, IH. reflexivity.
  - rewrite map_app, drop_missing_app, IH.
    now rewrite (unread_block_dropped rd c us E).
Qed.

Lemma zhvi_observations_parseable_only (f : zhvi_frame) :
  first_readable f ->
  zhvi_observations (parseable_only f) = zhvi_observations f.
Proof.
  intros R. rewrite !zhvi_observations_rows.
  rewrite (column_reader_parseable_only f R).
  unfold zhvi_long. rewrite date_cols_parseable_only.
  change (zhvi_us (parseable_only f)) with (zhvi_us f).
  apply read_rows_filter.
Qed.

Lemma dropped_rows_parseable_only (f : zhvi_frame) :
  first_readable f -> dropped_rows (parseable_only f) = 0%nat.
Proof.
  intros R. rewrite dropped_rows_by_column.
  rewrite (column_reader_parseable_only f R), date_cols_parseable_only.
  assert (E : filter (fun c => is_none (column_reader f c))
                     (filter (fun c => negb (is_none (column_reader f c))) (date_cols f))
              = []).
  { induction (date_cols f) as [|c cs IH]; simpl; [reflexivity|].
    destruct (is_none (column_reader f c)) eqn:N; simpl; rewrite ?N; exact IH. }
  now rewrite E.
Qed.

(** What the block prints depends on the index file alone. *)
Lemma printed_lines (hpi : list hpi_row) (f f' : zhvi_frame) :
  fst (chart3 hpi f) = fst (chart3 hpi f').
Proof.
  unfold chart3, covid_trends. destruct (hpi_year hpi); reflexivity.
Qed.

Lemma chart3_saved (hpi : list hpi_row) (f : zhvi_frame) (a : list (Z * float)) :
  hpi_observations hpi = Ok a ->
  chart3 hpi f = ([Text "Saved: visualizations/covid_trends.html"],
                  Some (merged_series a (zhvi_observations f))).
Proof.
  unfold chart3, covid_trends, hpi_year, zhvi_year, merged_series.
  now intros ->.
Qed.

(** C9, as amended. Every row of the melted Zillow frame is read as the
    column names are: under the format inferred from the first of them
    that can give one, or one by one.  The rows whose date is read are
    kept, in their order and with the year read; the others are dropped,
    as many as the unread columns times the national rows; and the chart
    is made from the rows kept whenever the index file gives its
    observations.  When the name that fixes the reading is itself read,
    the observations and all the block does are those of the frame
    without the unread columns.  Nothing reports how many rows were
    dropped: the lines printed are the same for every Zillow frame. *)
Theorem unparseable_dates_are_dropped (hpi : list hpi_row) (f : zhvi_frame) :
  zhvi_observations f
    = drop_missing (map (fun r => (column_reader f (fst r), snd r)) (zhvi_long f)) /\
  (forall y v,
     In (y, v) (zhvi_observations f) <->
     exists c r, In c (date_cols f) /\ In r (zhvi_us f) /\
                 column_reader f c = Some y /\ v = cell r c) /\
  (List.length (zhvi_observations f) + dropped_rows f
   = List.length (zhvi_long f))%nat /\
  dropped_rows f
    = (List.length (filter (fun c => is_none (column_reader f c)) (date_cols f))
       * List.length (zhvi_us f))%nat /\
  (forall a, hpi_observations hpi = Ok a ->
     chart3 hpi f = ([Text "Saved: visualizations/covid_trends.html"],
                     Some (merged_series a (zhvi_observations f)))) /\
  (first_readable f ->
     zhvi_observations (parseable_only f) = zhvi_observations f /\
     dropped_rows (parseable_only f) = 0%nat /\
     chart3 hpi (parseable_only f) = chart3 hpi f) /\
  (forall f', fst (chart3 hpi f') = fst (chart3 hpi f)).
Proof.
  split; [apply zhvi_observations_rows|].
  split; [apply in_zhvi_observations|].
  split; [apply rows_kept_or_dropped|].
  split; [apply dropped_rows_by_column|].
  split; [intros a; apply chart3_saved|].
  split; [|intros f'; apply printed_lines].
  intros R. split; [now apply zhvi_observations_parseable_only|].
  split; [now apply dropped_rows_parseable_only|].
  unfold chart3, covid_trends, zhvi_year.
  now rewrite (zhvi_observations_parseable_only f R).
Qed.

End Charts.

(** *** A reading of dates

    The examples below read two spellings of a date: year-month-day and
    month/day/year, each with decimal fields, a month from 1 to 12, a day
    of that month and a year that a pandas timestamp can hold.  A string
    in one of the spellings gives that spelling as its format; read on
    its own, a string may be in either. *)

Definition digit_of (a : ascii) : option Z :=
  let n := Z.of_N (N_of_ascii a) in
  if (48 <=? n) && (n <=? 57) then Some (n - 48) else None.

Fixpoint parse_digits (s : string) (acc : Z) : option Z :=
  match s with
  | EmptyString => Some acc
  | String a rest =>
      match digit_of a with
      | Some d => parse_digits rest (10 * acc + d)
      | None => None
      end
  end.

Definition parse_number (s : string) : option Z :=
  match s with
  | EmptyString => None
  | _ => parse_digits s 0
  end.

Fixpoint split_on (sep : ascii) (s : string) : list string :=
  match s with
  | EmptyString => [EmptyString]
  | String a rest =>
      if Ascii.eqb a sep then EmptyString :: split_on sep rest
      else match split_on sep rest with
           | h :: t => String a h :: t
           | [] => [String a EmptyString]
           end
  end.

Definition leap (y : Z) : bool :=
  ((y mod 4 =? 0) && negb (y mod 100 =? 0)) || (y mod 400 =? 0).

Definition days_in_month (y m : Z) : Z :=
  if m =? 2 then (if leap y then 29 else 28)
  else if (m =? 4) || (m =? 6) || (m =? 9) || (m =? 11) then 30
  else 31.

Definition year_of_date (ys ms ds : string) : option Z :=
  match parse_number ys, parse_number ms, parse_number ds with
  | Some y, Some m, Some d =>
      if (1678 <=? y) && (y <=? 2261) && (1 <=? m) && (m <=? 12)
         && (1 <=? d) && (d <=? days_in_month y m)
      then Some y else None
  | _, _, _ => None
  end.

Definition iso_year (s : string) : option Z :=
  match split_on "-" s with
  | [ys; ms; ds] => year_of_date ys ms ds
  | _ => None
  end.

Definition us_year (s : string) : option Z :=
  match split_on "/" s with
  | [ms; ds; ys] => year_of_date ys ms ds
  | _ => None
  end.

Inductive example_format : Type :=
| YearMonthDay
| MonthDayYear.

Definition guess_example (s : string) : option example_format :=
  match iso_year s, us_year s with
  | Some _, _ => Some YearMonthDay
  | None, Some _ => Some MonthDayYear
  | None, None => None
  end.

Definition strptime_example (fmt : example_format) (s : string) : option Z :=
  match fmt with
  | YearMonthDay => iso_year s
  | MonthDayYear => us_year s
  end.

Definition parse_one_example (s : string) : option Z :=
  match iso_year s with
  | Some y => Some y
  | None => us_year s
  end.

(** A cast that leaves the least 64-bit integer for every float beyond
    the 64-bit integers. *)
Definition indefinite_cast (q : Q) : Z := Int64.min_int.

(** *** Examples *)

(** Three tenths: the compensated sum gives the mean that the running
    sum from the left misses. *)
Lemma mean_of_tenths :
  mean [of_Q (1 # 10); of_Q (2 # 10); of_Q (3 # 10)]
    = of_Q (19999999999999998 # 100000000000000000) /\
  div (fold_left add [of_Q (1 # 10); of_Q (2 # 10); of_Q (3 # 10)] (Fin 0)) (of_Z 3)
    = of_Q (20000000000000004 # 100000000000000000) /\
  of_Q (19999999999999998 # 100000000000000000)
    <> of_Q (20000000000000004 # 100000000000000000).
Proof.
  split; [vm_compute; reflexivity|]. split; [vm_compute; reflexivity|].
  vm_compute. discriminate.
Qed.

(** Missing values are left out of a mean, and an infinite one makes it
    infinite. *)
Lemma mean_of_incomplete_year :
  mean [Fin 110; NaN; Fin 112] = Fin 111 /\
  mean [NaN; NaN] = NaN /\
  mean [Fin 110; Inf false; Fin 112] = Inf false.
Proof. repeat split; vm_compute; reflexivity. Qed.

(** A period held as a float is truncated; one that is missing, or text
    that is no integer, stops the block. *)
Lemma period_cells :
  hpi_month indefinite_cast
    {| place_name := "United States"; frequency := "monthly"; yr := 2020;
       period := PFloat (Fin (15 # 2)); index_sa := Fin 120 |} = Ok 7 /\
  hpi_month indefinite_cast
    {| place_name := "United States"; frequency := "monthly"; yr := 2020;
       period := PFloat (Fin (-3 # 2)); index_sa := Fin 120 |} = Ok (-1) /\
  hpi_month indefinite_cast
    {| place_name := "United States"; frequency := "monthly"; yr := 2020;
       period := PFloat NaN; index_sa := Fin 120 |} = Raise ValueError /\
  hpi_month indefinite_cast
    {| place_name := "United States"; frequency := "monthly"; yr := 2020;
       period := PText; index_sa := Fin 120 |} = Raise ValueError.
Proof. repeat split; vm_compute; reflexivity. Qed.

Definition years_from (first : Z) (n : nat) : list Z :=
  map (fun i => first + Z.of_nat i) (seq 0 n).

(** The national monthly index for January and July of 2010..2023, and
    one quarterly row that the filter leaves out. *)
Definition hpi_2010_2023 : list hpi_row :=
  {| place_name := "United States"; frequency := "quarterly"; yr := 2009;
     period := PInt 4; index_sa := Fin 90 |}
  :: flat_map
       (fun y =>
          [ {| place_name := "United States"; frequency := "monthly"; yr := y;
               period := PInt 1; index_sa := of_Z (y - 1900) |};
            {| place_name := "United States"; frequency := "monthly"; yr := y;
               period := PInt 7; index_sa := of_Z (y - 1898) |} ])
       (years_from 2010 14).

(** The national home value at the end of January of 2015..2025. *)
Definition zhvi_2015_2025 : zhvi_frame :=
  {| columns :=
       id_columns ++ map (fun y => decimal y ++ "-01-31")%string (years_from 2015 11);
     regions :=
       [ {| RegionName := "United States"; cell := fun _ => Fin 200000 |};
         {| RegionName := "New York, NY"; cell := fun _ => Fin 500000 |} ] |}.

Definition observed_2010_2023 : list (Z * float) :=
  Eval vm_compute in
    match hpi_observations guess_example strptime_example parse_one_example
                           indefinite_cast hpi_2010_2023 with
    | Ok a => a
    | Raise _ => []
    end.

Definition observed_2015_2025 : list (Z * float) :=
  Eval vm_compute in
    zhvi_observations guess_example strptime_example parse_one_example zhvi_2015_2025.


(** The whole block on the two example files. *)
Lemma covid_trends_example :
  exists rows,
    covid_trends guess_example strptime_example parse_one_example indefinite_cast
                 hpi_2010_2023 zhvi_2015_2025 = Ok rows /\
    map t_year rows = [2015; 2016; 2017; 2018; 2019; 2020; 2021; 2022; 2023] /\
    nth 0 rows {| t_year := 0; hpi_index := NaN; zhvi := NaN |}
      = {| t_year := 2015; hpi_index := Fin 116; zhvi := Fin 200000 |}.
Proof.
  eexists. split; [vm_compute; reflexivity|]. split; reflexivity.
Qed.

(** A Zillow frame with one column that is not a date. *)
Definition zhvi_with_note : zhvi_frame :=
  {| columns := ["RegionID"; "RegionName"; "2020-01-31"; "not a date"; "2021-01-31"]%string;
     regions := [ {| RegionName := "United States"; cell := fun _ => Fin 200000 |} ] |}.

(** A Zillow frame whose first column after the region is not a date,
    and whose dates are in two spellings. *)
Definition zhvi_note_first : zhvi_frame :=
  {| columns := ["RegionName"; "not a date"; "1/31/2020"; "2021-01-31"]%string;
     regions := [ {| RegionName := "United States"; cell := fun _ => Fin 200000 |} ] |}.

(** An index file with one national monthly row whose period is not a
    number. *)
Definition hpi_with_bad_period : list hpi_row :=
  {| place_name := "United States"; frequency := "monthly"; yr := 2020;
     period := PText; index_sa := Fin 120 |} :: hpi_2010_2023.

(** An index file with one national monthly row whose month is 13. *)
Definition hpi_with_bad_month : list hpi_row :=
  hpi_2010_2023 ++
  [ {| place_name := "United States"; frequency := "monthly"; yr := 2020;
       period := PInt 13; index_sa := Fin 120 |} ].

Lemma unparseable_dates_are_dropped_witness :
  first_readable guess_example strptime_example parse_one_example zhvi_with_note /\
  dropped_rows guess_example strptime_example parse_one_example zhvi_with_note = 1%nat /\
  dropped_rows guess_example strptime_example parse_one_example
    (parseable_only guess_example strptime_example parse_one_example zhvi_with_note)
    = 0%nat /\
  chart3 guess_example strptime_example parse_one_example indefinite_cast
         hpi_2010_2023
         (parseable_only guess_example strptime_example parse_one_example zhvi_with_note)
    = chart3 guess_example strptime_example parse_one_example indefinite_cast
             hpi_2010_2023 zhvi_with_note.
Proof.
  assert (R : first_readable guess_example strptime_example parse_one_example
                             zhvi_with_note).
  { vm_compute. intros H. discriminate H. }
  destruct (unparseable_dates_are_dropped guess_example strptime_example
              parse_one_example indefinite_cast hpi_2010_2023 zhvi_with_note)
    as [_ [_ [_ [D [_ [P _]]]]]].
  destruct (P R) as [_ [D0 C]].
  split; [exact R|]. split; [rewrite D; reflexivity|]. split; assumption.
Defined.

(** When the first name is not a date the strings are read one by one,
    in either spelling; without that column the first date fixes the
    spelling and the dates in the other one are lost. *)
Lemma unread_first_name_changes_reading :
  ~ first_readable guess_example strptime_example parse_one_example zhvi_note_first /\
  zhvi_observations guess_example strptime_example parse_one_example zhvi_note_first
    = [(2020, Fin 200000); (2021, Fin 200000)] /\
  zhvi_observations guess_example strptime_example parse_one_example
    (parseable_only guess_example strptime_example parse_one_example zhvi_note_first)
    = [(2020, Fin 200000)].
Proof.
  split; [|split; vm_compute; reflexivity].
  vm_compute. intros H. apply H. reflexivity.
Qed.

(** One melted row is dropped, and the block prints exactly what it
    prints for every other Zillow frame: no count is reported.  A
    malformed period or date in the index file is not dropped: the block
    stops with an error and saves nothing, although the remaining rows
    alone would give a chart. *)
Lemma dropped_rows_are_not_counted :
  dropped_rows guess_example strptime_example parse_one_example zhvi_with_note = 1%nat /\
  dropped_rows guess_example strptime_example parse_one_example zhvi_2015_2025 = 0%nat /\
  fst (chart3 guess_example strptime_example parse_one_example indefinite_cast
              hpi_2010_2023 zhvi_with_note)
    = [Text "Saved: visualizations/covid_trends.html"] /\
  fst (chart3 guess_example strptime_example parse_one_example indefinite_cast
              hpi_2010_2023 zhvi_2015_2025)
    = [Text "Saved: visualizations/covid_trends.html"] /\
  chart3 guess_example strptime_example parse_one_example indefinite_cast
         hpi_with_bad_period zhvi_with_note
    = ([ErrorLine "ERROR creating chart 3: " ValueError], None) /\
  chart3 guess_example strptime_example parse_one_example indefinite_cast
         hpi_with_bad_month zhvi_with_note
    = ([ErrorLine "ERROR creating chart 3: " ValueError], None) /\
  snd (chart3 guess_example strptime_example parse_one_example indefinite_cast
              hpi_2010_2023 zhvi_with_note) <> None.
Proof.
  repeat split; try (vm_compute; reflexivity). vm_compute. discriminate.
Qed.

End Trends.

(** * Further properties of the programs

    What follows covers code around the places studied above: the two
    generators of [generate_data_simple.py], the merges, melts and pivots of
    the chart scripts and of the application, and how these steps
    compose. *)

(** ** More on grouping *)

Section GroupFacts.
Context {K : Type} `{Ord K} {A : Type}.

(** The groups of a [groupby] hold the rows of the frame, each once. *)
Lemma upsert_perm (k : K) (a : A) (acc : list (K * list A)) :
  Permutation (flat_map snd (upsert k a acc)) (a :: flat_map snd acc).
Proof.
  induction acc as [|[k' l] acc IH]; simpl; auto.
  destruct (cmp k k'); simpl.
  - rewrite <- app_assoc. simpl.
    rewrite <- Permutation_middle. reflexivity.
  - reflexivity.
  - rewrite IH. rewrite Permutation_middle. reflexivity.
Qed.

Lemma groupby_from_perm (acc : list (K * list A)) (rows : list (K * A)) :
  Permutation (flat_map snd (groupby_from acc rows))
              (flat_map snd acc ++ map snd rows).
Proof.
  revert acc. induction rows as [|r rows IH]; intros acc; simpl.
  - now rewrite app_nil_r.
  - rewrite IH, upsert_perm. simpl. apply Permutation_middle.
Qed.

Lemma groupby_perm (rows : list (K * A)) :
  Permutation (flat_map snd (groupby rows)) (map snd rows).
Proof. apply (groupby_from_perm [] rows). Qed.

Lemma values_of_filter (p : K -> bool) (k : K) (rows : list (K * A)) :
  values_of k (filter (fun r => p (fst r)) rows) =
  if p k then values_of k rows else [].
Proof.
  unfold values_of. induction rows as [|[k' a] rows IH]; simpl.
  - now destruct (p k).
  - destruct (p k') eqn:P; simpl.
    + destruct (eqb_key k k') eqn:E; simpl; rewrite IH.
      * apply eqb_key_true in E. subst. now rewrite P.
      * reflexivity.
    + rewrite IH. destruct (eqb_key k k') eqn:E; simpl; auto.
      apply eqb_key_true in E. subst. now rewrite P.
Qed.

Lemma get_filter_key {B} (p : K -> bool) (k : K) (l : list (K * B)) :
  get k (filter (fun r => p (fst r)) l) = if p k then get k l else None.
Proof.
  induction l as [|[k' b] l IH]; simpl.
  - now destruct (p k).
  - destruct (p k') eqn:P; simpl.
    + destruct (eqb_key k k') eqn:E; auto.
      apply eqb_key_true in E. subst. now rewrite P.
    + rewrite IH. destruct (eqb_key k k') eqn:E; auto.
      apply eqb_key_true in E. subst. now rewrite P.
Qed.

(** Selecting rows by their key and grouping, in either order. *)
Lemma groupby_filter_key (p : K -> bool) (rows : list (K * A)) :
  groupby (filter (fun r => p (fst r)) rows) =
  filter (fun g => p (fst g)) (groupby rows).
Proof.
  apply ascending_ext.
  - apply ascending_groupby.
  - apply ascending_filter, ascending_groupby.
  - intros k. rewrite get_filter_key, !get_groupby, values_of_filter.
    destruct (p k); reflexivity.
Qed.

(** A frame without a repeated key is grouped into singletons. *)
Lemma values_of_unique (k : K) (a : A) (rows : list (K * A)) :
  NoDup (keys rows) -> In (k, a) rows -> values_of k rows = [a].
Proof.
  unfold values_of, keys. induction rows as [|[k' a'] rows IH]; simpl; intros N I.
  - contradiction.
  - inversion N as [|? ? Nk N']; subst. destruct I as [E|I].
    + inversion E; subst. rewrite eqb_key_refl. simpl. f_equal.
      assert (V : values_of k rows = []).
      { apply values_of_nil_iff. exact Nk. }
      exact V.
    + destruct (eqb_key k k') eqn:E.
      * apply eqb_key_true in E. subst. exfalso. apply Nk.
        change k' with (fst (k', a)). now apply in_map.
      * simpl. auto.
Qed.

End GroupFacts.

(** ** Rounding keeps the order

    Rounding to nearest is monotone; with it, float results can be
    bounded by the rounded bounds of their exact values. *)

Module B64Order.

Import B64.
Local Open Scope Q_scope.

Lemma binade_lt (a : Q) : 0 < a -> a < 2 ^ (binade a + 1).
Proof.
  intros P. unfold binade.
  destruct (Qle_bool (2 ^ (Z.log2 (Qnum a) - Z.log2 (Z.pos (Qden a)))) a) eqn:B.
  - clear B. destruct a as [n d]. cbn [Qnum Qden].
    set (ln := Z.log2 n). set (ld := Z.log2 (Z.pos d)).
    assert (Pn : (0 < n)%Z) by (unfold Qlt in P; simpl in P; lia).
    assert (Hn : (n < 2 ^ (ln + 1))%Z).
    { replace (ln + 1)%Z with (Z.succ ln) by lia. now apply Z.log2_spec. }
    assert (Hd : (2 ^ ld <= Z.pos d)%Z) by (apply Z.log2_spec; lia).
    assert (L0 : (0 <= ln)%Z) by apply Z.log2_nonneg.
    assert (L1 : (0 <= ld)%Z) by apply Z.log2_nonneg.
    rewrite (Qmake_Qdiv n d).
    apply Qlt_shift_div_r; [reflexivity|].
    apply Qlt_le_trans with (2 ^ (ln + 1)).
    + rewrite <- pow2_Z by lia. now rewrite <- Zlt_Qlt.
    + assert (E : 2 ^ (ln + 1) == 2 ^ (ln - ld + 1) * 2 ^ ld).
      { rewrite <- pow2_plus.
        now replace (ln - ld + 1 + ld)%Z with (ln + 1)%Z by lia. }
      rewrite E. apply Qmult_le_l; [apply pow2_pos|].
      rewrite <- pow2_Z by lia. now rewrite <- Zle_Qle.
  - apply Qnot_le_lt. intros L. apply Qle_bool_iff in L.
    replace (Z.log2 (Qnum a) - Z.log2 (Z.pos (Qden a)) - 1 + 1)%Z
      with (Z.log2 (Qnum a) - Z.log2 (Z.pos (Qden a)))%Z in L by lia.
    congruence.
Qed.

Lemma rne_floor_or_next (x : Q) : rne x = Qfloor x \/ rne x = (Qfloor x + 1)%Z.
Proof.
  unfold rne. destruct (Qcompare _ _); auto. destruct (Z.even _); auto.
Qed.

Lemma rne_mono (a b : Q) : a <= b -> (rne a <= rne b)%Z.
Proof.
  intros L. pose proof (Qfloor_resp_le _ _ L) as F.
  destruct (Z.eq_dec (Qfloor a) (Qfloor b)) as [E|N].
  - unfold rne. rewrite <- E.
    destruct (Qcompare_spec (a - inject_Z (Qfloor a)) (1 # 2)) as [Ea|La|Ga];
      destruct (Qcompare_spec (b - inject_Z (Qfloor a)) (1 # 2)) as [Eb|Lb|Gb];
      try (destruct (Z.even (Qfloor a))); try lia; exfalso; lra.
  - destruct (rne_floor_or_next a) as [-> | ->], (rne_floor_or_next b) as [-> | ->]; lia.
Qed.

Lemma rne_int (n : Z) : rne (inject_Z n) = n.
Proof.
  unfold rne. rewrite Qfloor_Z.
  destruct (Qcompare_spec (inject_Z n - inject_Z n) (1 # 2)) as [E|L|G];
    [exfalso; lra|reflexivity|exfalso; lra].
Qed.

Lemma scaled_in_binade (a : Q) :
  0 < a ->
  inject_Z (2 ^ 52) <= a / 2 ^ (binade a - 52) /\
  a / 2 ^ (binade a - 52) <= inject_Z (2 ^ 53).
Proof.
  intros P. pose proof (binade_le a P) as L. pose proof (binade_lt a P) as U.
  set (e := binade a) in *.
  assert (Ps : 0 < 2 ^ (e - 52)) by apply pow2_pos.
  rewrite !pow2_Z by lia. split.
  - apply Qle_shift_div_l; auto. rewrite <- pow2_plus.
    now replace (52 + (e - 52))%Z with e by lia.
  - apply Qle_shift_div_r; auto. rewrite <- pow2_plus.
    replace (53 + (e - 52))%Z with (e + 1)%Z by lia. now apply Qlt_le_weak.
Qed.

(** A positive number and its rounding lie in the same closed binade. *)
Lemma round_pos_in_binade (a : Q) :
  0 < a -> 2 ^ binade a <= round_pos a /\ round_pos a <= 2 ^ (binade a + 1).
Proof.
  intros P. destruct (scaled_in_binade a P) as [L U]. unfold round_pos.
  set (e := binade a) in *. set (y := a / 2 ^ (e - 52)) in *.
  apply rne_mono in L, U. rewrite rne_int in L, U.
  assert (Ps : 0 < 2 ^ (e - 52)) by apply pow2_pos.
  split.
  - replace e with (52 + (e - 52))%Z at 1 by lia. rewrite pow2_plus.
    apply Qmult_le_compat_r; [|now apply Qlt_le_weak].
    rewrite <- pow2_Z by lia. now rewrite <- Zle_Qle.
  - replace (e + 1)%Z with (53 + (e - 52))%Z by lia. rewrite pow2_plus.
    apply Qmult_le_compat_r; [|now apply Qlt_le_weak].
    rewrite <- pow2_Z by lia. now rewrite <- Zle_Qle.
Qed.

Lemma binade_mono (a b : Q) : 0 < a -> a <= b -> (binade a <= binade b)%Z.
Proof.
  intros P L. assert (Pb : 0 < b) by lra.
  pose proof (binade_le a P). pose proof (binade_lt b Pb).
  assert (X : 2 ^ binade a < 2 ^ (binade b + 1)) by lra.
  apply Qpower_lt_compat_l_inv in X; [lia|reflexivity].
Qed.

Lemma round_pos_mono (a b : Q) : 0 < a -> a <= b -> round_pos a <= round_pos b.
Proof.
  intros P L. assert (Pb : 0 < b) by lra.
  pose proof (binade_mono a b P L) as M.
  destruct (Z.eq_dec (binade a) (binade b)) as [E|N].
  - unfold round_pos. rewrite E.
    assert (Ps : 0 < 2 ^ (binade b - 52)) by apply pow2_pos.
    apply Qmult_le_compat_r; [|now apply Qlt_le_weak].
    rewrite <- Zle_Qle. apply rne_mono.
    unfold Qdiv. apply Qmult_le_compat_r; auto.
    apply Qlt_le_weak, Qinv_lt_0_compat, Ps.
  - destruct (round_pos_in_binade a P) as [_ Ua].
    destruct (round_pos_in_binade b Pb) as [Lb _].
    apply Qle_trans with (2 ^ (binade a + 1)); auto.
    apply Qle_trans with (2 ^ binade b); auto.
    apply Qpower_le_compat_l; [lia|discriminate].
Qed.

Lemma rnd_of_pos (x : Q) : 0 < x -> rnd x == round_pos (Qred x).
Proof.
  intros P. unfold rnd. pose proof (Qnum_sign (Qred x)) as S.
  pose proof (Qred_correct x) as C.
  destruct (Qnum (Qred x)).
  - lra.
  - apply Qred_correct.
  - lra.
Qed.

Lemma rnd_nonpos (x : Q) : x <= 0 -> rnd x <= 0.
Proof.
  intros N. assert (P : 0 <= - x) by lra.
  apply rnd_nonneg in P. rewrite rnd_opp in P. lra.
Qed.

Lemma rnd_mono_pos (x y : Q) : 0 < x -> x <= y -> rnd x <= rnd y.
Proof.
  intros P L. rewrite (rnd_of_pos x P), (rnd_of_pos y) by lra.
  apply round_pos_mono; rewrite !Qred_correct; assumption.
Qed.

(** Rounding to nearest never reverses an order. *)
Theorem rnd_mono (x y : Q) : x <= y -> rnd x <= rnd y.
Proof.
  intros L. destruct (Qlt_le_dec 0 x) as [Px|Nx].
  - now apply rnd_mono_pos.
  - destruct (Qlt_le_dec 0 y) as [Py|Ny].
    + apply Qle_trans with 0; [now apply rnd_nonpos|].
      apply rnd_nonneg. lra.
    + destruct (Qeq_dec y 0) as [E|N].
      * rewrite (rnd_proper y 0 E). rewrite rnd_0. now apply rnd_nonpos.
      * assert (Py : 0 < - y) by lra.
        assert (L' : - y <= - x) by lra.
        pose proof (rnd_mono_pos _ _ Py L') as M.
        rewrite !rnd_opp in M. lra.
Qed.

End B64Order.

(** ** The generators of [generate_data_simple.py]

    Lines 64-98, the policy mix of each city, and lines 106-125, the
    expiring units of each city and year. *)

Module Generate.

Import Coverage.

(** A record of [policy_mix_data]. *)
Record mix_record := {
  mix_city : string;
  city_type : string;
  public_housing_pct : Z;
  voucher_pct : Z;
  lihtc_pct : Z;
  section8_pct : Z;
  iz_pct : Z
}.

(** [city in [...]] *)
Definition city_in (city : string) (l : list string) : bool :=
  existsb (String.eqb city) l.

(** The body of the loop of lines 67-98. *)
Definition mix_of (city : string) : mix_record :=
  if city_in city ["New York, NY"; "San Francisco, CA"; "Boston, MA"]%string then
    {| mix_city := city; city_type := "Strong Market";
       public_housing_pct := 15; voucher_pct := 25; lihtc_pct := 45;
       section8_pct := 10; iz_pct := 5 |}
  else if city_in city ["Detroit, MI"; "Cleveland, OH"]%string then
    {| mix_city := city; city_type := "Legacy City";
       public_housing_pct := 40; voucher_pct := 35; lihtc_pct := 15;
       section8_pct := 8; iz_pct := 2 |}
  else
    {| mix_city := city; city_type := "Mixed";
       public_housing_pct := 25; voucher_pct := 30; lihtc_pct := 30;
       section8_pct := 10; iz_pct := 5 |}.

Definition policy_mix_data_for (cs : list string) : list mix_record :=
  map mix_of cs.

Definition policy_mix_data : list mix_record := policy_mix_data_for cities.

(** The five percentages of a record, in column order. *)
Definition percentages (m : mix_record) : list Z :=
  [public_housing_pct m; voucher_pct m; lihtc_pct m; section8_pct m; iz_pct m].

(** The random source of the third loop: the [p]-th iteration calls
    [randint(lo, hi)] once, then [random()] once. *)
Record rng := {
  randint : nat -> Z -> Z -> Z;
  random : nat -> B64.float
}.

(** What the [random] module guarantees of [randint]. *)
Definition within_bounds (g : rng) : Prop :=
  forall p lo hi, lo <= hi -> lo <= randint g p lo hi <= hi.

(** [list(range(2025, 2046))] *)
Definition years : list Z := map (fun i => 2025 + Z.of_nat i) (seq 0 21).

(** The body of the inner loop, lines 113-125, at iteration [p]. *)
Definition expiration_record (g : rng) (p : nat) (city : string) (year : Z)
  : Cumulative.expiration_event :=
  let expiring :=
    if year <? 2030 then randint g p 500 3000
    else if year <? 2035 then randint g p 1000 5000
    else randint g p 2000 8000 in
  {| Cumulative.city := city;
     Cumulative.year := year;
     Cumulative.expiring_units := expiring;
     Cumulative.policy_type :=
       if B64.gtb (random g p) (B64.of_Q (3 # 10)) then "LIHTC" else "Section 8" |}.

(** The two nested loops over [cs] and [ys]; the iterations are numbered
    in the order in which they run. *)
Definition expiration_data_for (cs : list string) (ys : list Z) (g : rng)
  : list Cumulative.expiration_event :=
  flat_map
    (fun ic =>
       map (fun jy =>
              expiration_record g (fst ic * List.length ys + fst jy) (snd ic) (snd jy))
           (combine (seq 0 (List.length ys)) ys))
    (combine (seq 0 (List.length cs)) cs).

Definition expiration_data (g : rng) : list Cumulative.expiration_event :=
  expiration_data_for cities years g.

(** *** The policy mix *)

(** X1. Whatever the city, the five percentages of its mix record are
    non-negative and add up to 100, and the record is of one of the three
    city types; [policy_mix_data] holds one record per city, in the order
    of the cities. *)
Theorem mix_percentages_sum_to_100 :
  (forall city,
     Int64.exact_sum (percentages (mix_of city)) = 100 /\
     Forall (fun pct => 0 <= pct) (percentages (mix_of city)) /\
     In (city_type (mix_of city)) ["Strong Market"; "Legacy City"; "Mixed"]%string) /\
  (forall cs, map mix_city (policy_mix_data_for cs) = cs).
Proof.
  split.
  - intros city. unfold mix_of.
    destruct (city_in city _); [|destruct (city_in city _)];
      (split; [reflexivity|]; split;
       [repeat constructor; discriminate | simpl; auto]).
  - intros cs. unfold policy_mix_data_for. rewrite map_map.
    induction cs as [|c cs IH]; simpl; [reflexivity|]. rewrite IH. f_equal.
    unfold mix_of. destruct (city_in c _); [|destruct (city_in c _)]; reflexivity.
Qed.

(** *** The expiring units *)

Definition event_key (e : Cumulative.expiration_event) : string * Z :=
  (Cumulative.city e, Cumulative.year e).

Lemma inner_loop_keys (g : rng) (f : nat -> nat) (c : string) (ys : list Z) (s : nat) :
  map event_key
      (map (fun jy => expiration_record g (f (fst jy)) c (snd jy))
           (combine (seq s (List.length ys)) ys))
  = map (fun y => (c, y)) ys.
Proof.
  revert s. induction ys as [|y ys IH]; intros s; simpl; [reflexivity|].
  now rewrite IH.
Qed.

Lemma outer_loop_keys (g : rng) (cs : list string) (ys : list Z) (s : nat) :
  map event_key
      (flat_map
         (fun ic =>
            map (fun jy =>
                   expiration_record g (fst ic * List.length ys + fst jy)
                     (snd ic) (snd jy))
                (combine (seq 0 (List.length ys)) ys))
         (combine (seq s (List.length cs)) cs))
  = list_prod cs ys.
Proof.
  revert s. induction cs as [|c cs IH]; intros s; simpl; [reflexivity|].
  rewrite map_app, IH. f_equal.
  apply (inner_loop_keys g (fun j => (s * List.length ys + j)%nat)).
Qed.

Lemma keys_of_expiration_data (cs : list string) (ys : list Z) (g : rng) :
  map event_key (expiration_data_for cs ys g) = list_prod cs ys.
Proof. apply outer_loop_keys. Qed.

Lemma nodup_map_injective {A B} (f : A -> B) (l : list A) :
  (forall x y, f x = f y -> x = y) -> NoDup l -> NoDup (map f l).
Proof.
  intros Inj N. induction N as [|a l Na N IH]; simpl; constructor; auto.
  rewrite in_map_iff. intros [y [E I]]. apply Inj in E. now subst.
Qed.

Lemma nodup_list_prod {A B} (l1 : list A) (l2 : list B) :
  NoDup l1 -> NoDup l2 -> NoDup (list_prod l1 l2).
Proof.
  intros N1 N2. induction N1 as [|a l1 Na N1 IH]; simpl; [constructor|].
  apply NoDup_app; auto.
  - apply nodup_map_injective; auto. intros x y E. now inversion E.
  - intros [a' b] I1 I2. apply in_map_iff in I1. destruct I1 as [y [E _]].
    inversion E; subst. apply in_prod_iff in I2. tauto.
Qed.

Lemma nodup_years : NoDup years.
Proof.
  unfold years. apply nodup_map_injective; [|apply seq_NoDup].
  intros i j E. lia.
Qed.

Lemma nodup_cities : NoDup cities.
Proof.
  unfold cities.
  repeat (constructor; [simpl; intros F; repeat (destruct F as [F|F]; [discriminate|]); exact F|]).
  constructor.
Qed.

Lemma in_years (y : Z) : In y years <-> 2025 <= y <= 2045.
Proof.
  unfold years. rewrite in_map_iff. split.
  - intros [i [<- I]]. apply in_seq in I. lia.
  - intros B. exists (Z.to_nat (y - 2025)). split; [lia|]. apply in_seq. lia.
Qed.

Lemma record_in_data (cs : list string) (ys : list Z) (g : rng)
    (e : Cumulative.expiration_event) :
  In e (expiration_data_for cs ys g) ->
  exists p, e = expiration_record g p (Cumulative.city e) (Cumulative.year e).
Proof.
  unfold expiration_data_for. rewrite in_flat_map.
  intros [[i c] [_ I]]. apply in_map_iff in I. destruct I as [[j y] [<- _]].
  simpl. eexists. reflexivity.
Qed.

(** The bracket of a year: what [randint] is asked for. *)
Definition bracket (year : Z) : Z * Z :=
  if year <? 2030 then (500, 3000)
  else if year <? 2035 then (1000, 5000)
  else (2000, 8000).

Lemma expiration_data_length (g : rng) :
  List.length (expiration_data g) = 168%nat.
Proof.
  rewrite <- (length_map event_key).
  unfold expiration_data. rewrite keys_of_expiration_data. reflexivity.
Qed.

Lemma expiration_data_nodup (g : rng) :
  NoDup (map event_key (expiration_data g)).
Proof.
  unfold expiration_data. rewrite keys_of_expiration_data.
  apply nodup_list_prod; [apply nodup_cities|apply nodup_years].
Qed.

Lemma expiration_units_bounded (g : rng) :
  within_bounds g ->
  Forall (fun e => 500 <= Cumulative.expiring_units e <= 8000) (expiration_data g).
Proof.
  intros W. apply Forall_forall. intros e I.
  destruct (record_in_data _ _ _ _ I) as [p E].
  rewrite E. unfold expiration_record. cbn [Cumulative.expiring_units].
  destruct (Cumulative.year e <? 2030); [|destruct (Cumulative.year e <? 2035)].
  - pose proof (W p 500 3000 ltac:(lia)). lia.
  - pose proof (W p 1000 5000 ltac:(lia)). lia.
  - pose proof (W p 2000 8000 ltac:(lia)). lia.
Qed.

(** X2. Whatever the random draws, [expiration_data] holds 168 records,
    one for each of the 8 cities and each year from 2025 to 2045, city
    after city and year after year, so no (city, year) pair occurs twice;
    when [randint] keeps to its bounds, the units of a record lie in the
    bracket of its year, hence between 500 and 8000, and its policy type
    is LIHTC or Section 8. *)
Theorem expiration_data_shape (g : rng) :
  map event_key (expiration_data g) = list_prod cities years /\
  List.length (expiration_data g) = 168%nat /\
  NoDup (map event_key (expiration_data g)) /\
  (within_bounds g ->
   Forall (fun e =>
             fst (bracket (Cumulative.year e)) <= Cumulative.expiring_units e
               <= snd (bracket (Cumulative.year e)) /\
             500 <= Cumulative.expiring_units e <= 8000 /\
             In (Cumulative.policy_type e) ["LIHTC"; "Section 8"]%string)
          (expiration_data g)).
Proof.
  assert (K : map event_key (expiration_data g) = list_prod cities years)
    by apply keys_of_expiration_data.
  split; [exact K|]. split; [apply expiration_data_length|].
  split; [apply expiration_data_nodup|].
  intros W. apply Forall_forall. intros e I.
  destruct (record_in_data _ _ _ _ I) as [p E].
  rewrite E. unfold expiration_record, bracket. cbn [Cumulative.year Cumulative.expiring_units Cumulative.policy_type].
  set (y := Cumulative.year e).
  assert (T : In (if B64.gtb (random g p) (B64.of_Q (3 # 10)) then "LIHTC" else "Section 8")%string
                 ["LIHTC"; "Section 8"]%string).
  { destruct (B64.gtb _ _); simpl; auto. }
  destruct (y <? 2030); [|destruct (y <? 2035)]; cbn [fst snd].
  - pose proof (W p 500 3000 ltac:(lia)). repeat split; try lia; exact T.
  - pose proof (W p 1000 5000 ltac:(lia)). repeat split; try lia; exact T.
  - pose proof (W p 2000 8000 ltac:(lia)). repeat split; try lia; exact T.
Qed.

(** A generator that always returns the middle of the bounds. *)
Definition midpoint_rng : rng :=
  {| randint := fun _ lo hi => (lo + hi) / 2;
     random := fun _ => B64.of_Q (1 # 2) |}.

Lemma midpoint_within_bounds : within_bounds midpoint_rng.
Proof.
  intros p lo hi L. simpl.
  pose proof (Z.div_le_lower_bound (lo + hi) 2 lo ltac:(lia) ltac:(lia)).
  pose proof (Z.div_le_upper_bound (lo + hi) 2 hi ltac:(lia) ltac:(lia)).
  lia.
Qed.

Lemma expiration_data_shape_witness :
  Forall (fun e => 500 <= Cumulative.expiring_units e <= 8000)
         (expiration_data midpoint_rng).
Proof.
  destruct (expiration_data_shape midpoint_rng) as [_ [_ [_ B]]].
  eapply Forall_impl; [|exact (B midpoint_within_bounds)].
  simpl. tauto.
Defined.

End Generate.

(** ** The coverage records of [generate_data_simple.py]

    Lines 24-56 with the table of the script: what the draws of
    [random.randint] can make of the stored ratio. *)

Module GenerateCoverage.

Import B64 B64Order Py Coverage.

(** The record the loop body builds. *)
Definition record_of (burden : dict Z) (city : string) (d : draws) : dict pyval :=
  [("city", VStr city);
   ("severe_cost_burden_renters", VInt (dict_get burden city 100 * 1000));
   ("public_housing_units", VInt (d_public_housing d * 1000));
   ("voucher_households", VInt (d_vouchers d * 1000));
   ("lihtc_units", VInt (d_lihtc d * 1000));
   ("section8_units", VInt (d_section8 d * 1000));
   ("total_subsidized", VInt (total_of d));
   ("coverage_ratio", stored_ratio (total_of d) (dict_get burden city 100 * 1000));
   ("subsidized_per_100_burdened",
    stored_ratio (total_of d) (dict_get burden city 100 * 1000))]%string.

(** [lo <= x <= hi] for a float [x] and two decimal literals. *)
Definition float_between (lo hi : Q) (x : float) : Prop :=
  match x with
  | Fin q => (rnd lo <= q <= rnd hi)%Q
  | _ => False
  end.

Lemma mapM_total {A B} (f : A -> result B) (g : A -> B) (l : list A) :
  (forall a, f a = Ok (g a)) -> mapM f l = Ok (map g l).
Proof.
  intros H. induction l as [|a l IH]; simpl; [reflexivity|].
  now rewrite H, IH.
Qed.

Lemma snd_combine_seq {A} (l : list A) (s : nat) :
  map snd (combine (seq s (List.length l)) l) = l.
Proof.
  revert s. induction l as [|a l IH]; intros s; simpl; [reflexivity|].
  now rewrite IH.
Qed.

(** Whatever the city, the table gives between 85 and 850 thousand
    renters: the default of [get] lies between the entries. *)
Lemma demand_of_any_city (city : string) :
  85 <= dict_get severe_cost_burden_renters city 100 <= 850.
Proof.
  unfold dict_get, severe_cost_burden_renters, field.
  repeat (destruct (String.eqb city _); [lia|]). lia.
Qed.

Lemma total_of_range (d : draws) :
  in_randint_range d -> 110000 <= total_of d <= 730000.
Proof. unfold in_randint_range, total_of. lia. Qed.

Local Open Scope Q_scope.

Lemma quotient_le (a b c e : Q) :
  0 < b -> 0 < e -> a * e <= c * b -> a / b <= c / e.
Proof.
  intros Pb Pe L. apply Qle_shift_div_l; [exact Pe|].
  setoid_replace (a / b * e) with (a * e / b) by (field; lra).
  now apply Qle_shift_div_r.
Qed.

Lemma round_decimal_2_mono (a b : Q) :
  a <= b ->
  exists a' b', round_decimal 2 (Fin a) = Fin a' /\
                round_decimal 2 (Fin b) = Fin b' /\ a' <= b'.
Proof.
  intros L. unfold round_decimal, of_Q. do 2 eexists.
  split; [reflexivity|]. split; [reflexivity|].
  apply rnd_mono. change (10 ^ 2) with 100.
  unfold Qdiv. apply Qmult_le_compat_r; [|discriminate].
  rewrite <- Zle_Qle. apply rne_mono. lra.
Qed.

(** The stored ratio grows with the supply and falls with the demand. *)
Lemma ratio_rounded_mono (s d s' d' : Z) :
  (0 < d)%Z -> (0 < d')%Z -> (s * d' <= s' * d)%Z ->
  exists q q', ratio_rounded 2 s d = Fin q /\ ratio_rounded 2 s' d' = Fin q' /\
               q <= q'.
Proof.
  intros Pd Pd' L. unfold ratio_rounded, of_Z, of_Q, mul.
  apply round_decimal_2_mono. apply rnd_mono.
  apply Qmult_le_compat_r.
  - apply rnd_mono. apply quotient_le.
    + change 0 with (inject_Z 0). now rewrite <- Zlt_Qlt.
    + change 0 with (inject_Z 0). now rewrite <- Zlt_Qlt.
    + rewrite <- !inject_Z_mult, <- Zle_Qle. exact L.
  - apply rnd_nonneg. discriminate.
Qed.

Lemma ratio_at_ends :
  ratio_rounded 2 110000 850000 = Fin (rnd (1294 # 100)) /\
  ratio_rounded 2 730000 85000 = Fin (rnd (85882 # 100)).
Proof. split; vm_compute; reflexivity. Qed.

Lemma Fin_eq (a b : Q) : Fin a = Fin b -> a = b.
Proof. intros E. now inversion E. Qed.

Lemma stored_ratio_range (s d : Z) :
  (110000 <= s <= 730000)%Z -> (85000 <= d <= 850000)%Z ->
  exists x, stored_ratio s d = VFloat x /\ float_between (1294 # 100) (85882 # 100) x.
Proof.
  intros Bs Bd. unfold stored_ratio.
  assert (G : (d >? 0)%Z = true) by (apply Z.gtb_lt; lia).
  rewrite G. eexists. split; [reflexivity|].
  destruct ratio_at_ends as [Elo Ehi].
  destruct (ratio_rounded_mono 110000 850000 s d) as [q1 [q [E1 [E L1]]]];
    [lia|lia|lia|].
  destruct (ratio_rounded_mono s d 730000 85000) as [q' [q2 [E' [E2 L2]]]];
    [lia|lia|lia|].
  rewrite Elo in E1. rewrite Ehi in E2. rewrite E in E'.
  apply Fin_eq in E1, E2, E'. subst q1 q2 q'.
  rewrite E. unfold float_between. split; assumption.
Qed.

(** What a record of the generated coverage table holds. *)
Definition generated_record (city : string) (r : dict pyval) : Prop :=
  field r "city" = Some (VStr city) /\
  exists s d x,
    int_field r "total_subsidized" s /\ (110000 <= s <= 730000)%Z /\
    int_field r "severe_cost_burden_renters" d /\ (85000 <= d <= 850000)%Z /\
    field r "coverage_ratio" = Some (VFloat x) /\
    field r "subsidized_per_100_burdened" = Some (VFloat x) /\
    float_between (1294 # 100) (85882 # 100) x.

Lemma policy_data_records (burden : dict Z) (cs : list string) (rand : nat -> draws) :
  policy_data_for burden cs rand =
  Ok (map (fun ic => record_of burden (snd ic) (rand (fst ic)))
          (combine (seq 0 (List.length cs)) cs)).
Proof.
  unfold policy_data_for. apply mapM_total. intros [i c]. apply policy_row_shape.
Qed.

(** X12. With the table of the script and draws within the bounds given
    to [randint], the loop raises nothing and yields one record per city,
    in the order of the cities: between 110000 and 730000 subsidized
    units, between 85000 and 850000 renters (the default of 100 thousand
    included), and a ratio that is a float, never the integer 0 of the
    guard, with [12.94 <= ratio <= 858.82]. *)
Theorem generated_ratios_bounded (cs : list string) (rand : nat -> draws) :
  (forall i, in_randint_range (rand i)) ->
  exists rows,
    policy_data_for severe_cost_burden_renters cs rand = Ok rows /\
    Forall2 generated_record cs rows.
Proof.
  intros R.
  exists (map (fun ic => record_of severe_cost_burden_renters (snd ic) (rand (fst ic)))
              (combine (seq 0 (List.length cs)) cs)).
  split.
  - apply policy_data_records.
  - generalize 0%nat as s.
    induction cs as [|c cs IH]; intros s; simpl; constructor; [|apply IH].
    unfold generated_record, int_field. split; [reflexivity|].
    pose proof (demand_of_any_city c) as D.
    pose proof (total_of_range _ (R s)) as T.
    destruct (stored_ratio_range (total_of (rand s))
                (dict_get severe_cost_burden_renters c 100 * 1000)%Z) as [x [E B]];
      [lia|lia|].
    exists (total_of (rand s)), (dict_get severe_cost_burden_renters c 100 * 1000)%Z, x.
    cbn [record_of field String.eqb Ascii.eqb Bool.eqb fst snd].
    rewrite E. repeat split; auto; lia.
Qed.

Lemma generated_ratios_bounded_witness :
  exists rows,
    policy_data (fun _ => lowest_draws) = Ok rows /\
    Forall2 generated_record cities rows.
Proof.
  apply (generated_ratios_bounded cities (fun _ => lowest_draws)).
  intros _. unfold in_randint_range, lowest_draws. simpl. lia.
Defined.

End GenerateCoverage.

(** ** More on the cumulative series

    [create_visualizations_altair.py], lines 164-192, and [app.py], lines
    385-430. *)

Module CumulativeFacts.

Import Py Cumulative.

Lemma exact_sum_perm (l l' : list Z) :
  Permutation l l' -> Int64.exact_sum l = Int64.exact_sum l'.
Proof. induction 1; simpl; lia. Qed.

Lemma exact_sum_app (l l' : list Z) :
  Int64.exact_sum (l ++ l') = Int64.exact_sum l + Int64.exact_sum l'.
Proof. induction l; simpl; lia. Qed.

(** The sum of a column does not depend on the order of its rows. *)
Lemma sum_perm (l l' : list Z) : Permutation l l' -> Int64.sum l = Int64.sum l'.
Proof. intros P. rewrite !Int64.sum_wrap. f_equal. now apply exact_sum_perm. Qed.

(** Summing group by group, then summing the sums, is summing all. *)
Lemma sum_of_sums (ls : list (list Z)) :
  Int64.sum (map Int64.sum ls) = Int64.sum (List.concat ls).
Proof.
  rewrite !Int64.sum_wrap. induction ls as [|l ls IH]; simpl; auto.
  rewrite exact_sum_app, Int64.sum_wrap.
  rewrite Int64.wrap_add_l.
  rewrite <- Int64.wrap_add_r, IH, Int64.wrap_add_r. reflexivity.
Qed.

(** [groupby(...).agg(sum)] keeps the total of the column. *)
Lemma sum_of_groups {K} `{Ord K} (rows : list (K * Z)) :
  Int64.sum (map snd (agg Int64.sum (groupby rows))) = Int64.sum (map snd rows).
Proof.
  unfold agg. rewrite map_map. cbn [snd].
  rewrite <- (map_map snd Int64.sum), sum_of_sums.
  apply sum_perm. rewrite <- flat_map_concat_map. apply groupby_perm.
Qed.

(** [df_summary] of [app.py], lines 402-404. *)
Definition df_summary (year_range : Z * Z) (rows : list expiration_event) : list triple :=
  agg Int64.sum (groupby (triples (df_filtered year_range rows))).

(** The slider's initial range, lines 388-393: the smallest and the
    largest year of the frame; there is none when the frame is empty, the
    page then stopping with an exception. *)
Definition full_range (rows : list expiration_event) : option (Z * Z) :=
  match rows with
  | [] => None
  | _ => Some (Rollup.column_min (map year rows), Rollup.column_max (map year rows))
  end.

(** The running [int64] totals of a column, from [acc]. *)
Fixpoint running_totals (acc : Z) (l : list Z) : list Z :=
  match l with
  | [] => []
  | v :: rest => Int64.add acc v :: running_totals (Int64.add acc v) rest
  end.

Lemma cumsum_from_city (c : string) (l : list triple) :
  forall tot,
    map c_cumulative (group_rows c (cumsum_from tot l)) =
    running_totals (tot c) (map c_expiring (group_rows c (cumsum_from tot l))).
Proof.
  unfold group_rows. induction l as [|[[c' y] v] l IH]; intros tot; simpl; auto.
  destruct (String.eqb c' c) eqn:E; simpl.
  - apply String.eqb_eq in E. subst c'. rewrite IH, set_total_same. reflexivity.
  - apply String.eqb_neq in E. rewrite IH, set_total_other by congruence.
    reflexivity.
Qed.

Lemma last_running_totals_cons (l : list Z) (v acc d : Z) :
  last (running_totals acc (v :: l)) d = fold_left Int64.add (v :: l) acc.
Proof.
  revert v acc. induction l as [|w l IH]; intros v acc; [reflexivity|].
  specialize (IH w (Int64.add acc v)). simpl in *. exact IH.
Qed.

Lemma last_running_totals (l : list Z) (acc : Z) :
  last (running_totals acc l) acc = fold_left Int64.add l acc.
Proof. destruct l; [reflexivity|apply last_running_totals_cons]. Qed.

Lemma triples_of_cumsum (tot : string -> Z) (l : list triple) :
  map (fun r => ((c_city r, c_year r), c_expiring r)) (cumsum_from tot l) = l.
Proof.
  revert tot. induction l as [|[[c y] v] l IH]; intros tot; simpl; auto.
  now rewrite IH.
Qed.

Definition in_city (c : string) (k : string * Z) : bool := String.eqb (fst k) c.

Lemma expiring_of_city (c : string) (tot : string -> Z) (l : list triple) :
  map c_expiring (group_rows c (cumsum_from tot l)) =
  map snd (filter (fun r => in_city c (fst r)) l).
Proof.
  rewrite <- (triples_of_cumsum tot l) at 2.
  unfold group_rows, in_city.
  induction (cumsum_from tot l) as [|r rs IH]; simpl; auto.
  destruct (String.eqb (c_city r) c); simpl; now rewrite IH.
Qed.

Lemma filter_agg {K A B} `{Ord K} (f : list A -> B) (p : K -> bool)
    (g : list (K * list A)) :
  filter (fun r => p (fst r)) (agg f g) = agg f (filter (fun r => p (fst r)) g).
Proof.
  unfold agg. induction g as [|[k l] g IH]; simpl; auto.
  destruct (p k); simpl; now rewrite IH.
Qed.

Lemma triples_filter (p : string * Z -> bool) (rows : list expiration_event) :
  triples (filter (fun e => p (city e, year e)) rows) =
  filter (fun r => p (fst r)) (triples rows).
Proof.
  unfold triples. induction rows as [|e rows IH]; simpl; auto.
  destruct (p (city e, year e)); simpl; now rewrite IH.
Qed.

(** The table both programs build from the triples [ts]. *)
Definition built (ts : list triple) : list cumulative_row :=
  groupby_cumsum (sort_values (agg Int64.sum (groupby ts))).

Lemma built_city_total (ts : list triple) (c : string) :
  map c_cumulative (group_rows c (built ts)) =
    running_totals 0 (map c_expiring (group_rows c (built ts))) /\
  last (map c_cumulative (group_rows c (built ts))) 0 =
    Int64.sum (map snd (filter (fun r => in_city c (fst r)) ts)).
Proof.
  unfold built, groupby_cumsum. split; [apply cumsum_from_city|].
  rewrite cumsum_from_city, last_running_totals. cbn beta.
  rewrite expiring_of_city.
  rewrite sort_values_id by apply summary_ascending.
  rewrite (filter_agg Int64.sum (in_city c)).
  rewrite <- (groupby_filter_key (in_city c)).
  apply (sum_of_groups (filter (fun r => in_city c (fst r)) ts)).
Qed.

Lemma expiring_of_records (c : string) (rs : list expiration_event) :
  map snd (filter (fun r => in_city c (fst r)) (triples rs)) =
  map expiring_units (filter (fun e => String.eqb (city e) c) rs).
Proof.
  unfold triples, in_city. induction rs as [|e rs IH]; simpl; auto.
  destruct (String.eqb (city e) c); simpl; now rewrite IH.
Qed.

Lemma table_city_total (rows : list expiration_event) (c : string) :
  map c_cumulative (group_rows c (cumulative_table rows)) =
    running_totals 0 (map c_expiring (group_rows c (cumulative_table rows))) /\
  last (map c_cumulative (group_rows c (cumulative_table rows))) 0 =
    Int64.sum (map expiring_units (filter (fun e => String.eqb (city e) c) rows)).
Proof.
  destruct (built_city_total (triples rows) c) as [R L].
  split; [exact R|]. rewrite <- expiring_of_records. exact L.
Qed.

(** X3. In the cumulative table of either program, the cumulative column
    of a city is the running [int64] total of that city's own per-year
    column, and its last value is the [int64] sum of all the units the
    input records of that city expire, within the selected years in the
    application. *)
Theorem cumulative_is_city_running_total (rows : list expiration_event) (c : string) :
  (forall out,
     expiring_cumulative rows = Ok out ->
     map c_cumulative (group_rows c out) =
       running_totals 0 (map c_expiring (group_rows c out)) /\
     last (map c_cumulative (group_rows c out)) 0 =
       Int64.sum (map expiring_units (filter (fun e => String.eqb (city e) c) rows))) /\
  (forall year_range out,
     df_cumulative year_range rows = Ok out ->
     map c_cumulative (group_rows c out) =
       running_totals 0 (map c_expiring (group_rows c out)) /\
     last (map c_cumulative (group_rows c out)) 0 =
       Int64.sum (map expiring_units
                    (filter (fun e => String.eqb (city e) c)
                            (df_filtered year_range rows)))).
Proof.
  split.
  - intros out E. destruct rows as [|e rows]; [discriminate|].
    inversion E; subst out. apply table_city_total.
  - intros yr out E. destruct rows as [|e rows]; [discriminate|].
    inversion E; subst out. apply table_city_total.
Qed.

(** *** The year slider of the application *)

Definition in_year_range (year_range : Z * Z) (k : string * Z) : bool :=
  (fst year_range <=? snd k) && (snd k <=? snd year_range).

Lemma summary_filtered (year_range : Z * Z) (rows : list expiration_event) :
  df_summary year_range rows =
  filter (fun r => in_year_range year_range (fst r)) (summary rows).
Proof.
  unfold df_summary, summary, df_filtered.
  rewrite (triples_filter (in_year_range year_range)).
  rewrite (groupby_filter_key (in_year_range year_range)).
  symmetry. apply (filter_agg Int64.sum (in_year_range year_range)).
Qed.

(** X4. Selecting a year range before the aggregation changes no
    per-year value: the summary of the selected rows consists of the rows
    of the summary of all rows whose year lies in the range, in the same
    order, each with the [int64] sum of the units of its city and year. *)
Theorem summary_of_year_range (year_range : Z * Z) (rows : list expiration_event) :
  df_summary year_range rows =
    filter (fun r => in_year_range year_range (fst r)) (summary rows) /\
  forall c y,
    get (c, y) (df_summary year_range rows) =
    if in_year_range year_range (c, y)
    then match values_of (c, y) (triples rows) with
         | [] => None
         | units => Some (Int64.sum units)
         end
    else None.
Proof.
  split; [apply summary_filtered|].
  intros c y. rewrite summary_filtered.
  rewrite (get_filter_key (in_year_range year_range)).
  destruct (in_year_range year_range (c, y)); [|reflexivity].
  unfold summary. rewrite get_agg, get_groupby.
  now destruct (values_of (c, y) (triples rows)).
Qed.

Lemma filter_all {A} (p : A -> bool) (l : list A) :
  (forall x, In x l -> p x = true) -> filter p l = l.
Proof.
  induction l as [|a l IH]; simpl; intros H; auto.
  rewrite (H a) by auto. f_equal. auto.
Qed.

(** X5. With the slider left at its initial range, from the smallest to
    the largest year of the (non-empty) data, no row is filtered out and
    the application's cumulative table is the table of
    [create_visualizations_altair.py]. *)
Theorem full_range_gives_altair_table (rows : list expiration_event) :
  rows <> [] ->
  exists year_range table,
    full_range rows = Some year_range /\
    df_filtered year_range rows = rows /\
    df_cumulative year_range rows = Ok table /\
    expiring_cumulative rows = Ok table.
Proof.
  intros Ne.
  exists (Rollup.column_min (map year rows), Rollup.column_max (map year rows)).
  exists (cumulative_table rows).
  split; [destruct rows; [congruence|reflexivity]|].
  assert (F : df_filtered (Rollup.column_min (map year rows),
                           Rollup.column_max (map year rows)) rows = rows).
  { unfold df_filtered. apply filter_all. intros e I. cbn [fst snd].
    apply (in_map year) in I.
    destruct (Rollup.column_min_spec _ _ I) as [L _].
    destruct (Rollup.column_max_spec _ _ I) as [U _].
    apply andb_true_iff. split; apply Z.leb_le; assumption. }
  split; [exact F|]. split.
  - unfold df_cumulative. rewrite F. destruct rows; [congruence|reflexivity].
  - destruct rows; [congruence|reflexivity].
Qed.

Lemma full_range_gives_altair_table_witness :
  exists year_range table,
    full_range two_large_years = Some year_range /\
    df_filtered year_range two_large_years = two_large_years /\
    df_cumulative year_range two_large_years = Ok table /\
    expiring_cumulative two_large_years = Ok table.
Proof.
  apply full_range_gives_altair_table. discriminate.
Defined.

(** *** The cumulative table of the generated data *)

(** A frame in which no key is repeated is summarized row by row. *)
Lemma summary_of_distinct (ts : list triple) :
  NoDup (keys ts) ->
  Forall (fun r => Int64.in_range (snd r)) ts ->
  agg Int64.sum (groupby ts) = sort_values ts.
Proof.
  intros N R. apply ascending_ext.
  - apply summary_ascending.
  - now apply sort_values_ascending.
  - intros k. rewrite get_agg, get_groupby.
    rewrite (get_perm _ _ k (sort_values_perm ts)).
    2:{ eapply Permutation_NoDup; [|exact N].
        unfold keys. now rewrite sort_values_perm. }
    destruct (get k ts) as [v|] eqn:G.
    + apply get_some_in in G. rewrite (values_of_unique k v ts N G). simpl.
      f_equal. unfold Int64.sum. simpl. unfold Int64.add. simpl.
      apply Int64.wrap_id. rewrite Forall_forall in R. exact (R _ G).
    + assert (V : values_of k ts = []).
      { apply values_of_nil_iff. intros I. apply get_in_keys in I. congruence. }
      now rewrite V.
Qed.

Lemma exact_sum_bound (l : list Z) (b : Z) :
  Forall (fun v => 0 <= v <= b) l ->
  0 <= Int64.exact_sum l <= b * Z.of_nat (List.length l).
Proof.
  induction 1 as [|v l [L U] F IH]; simpl List.length; simpl Int64.exact_sum; [lia|].
  rewrite Nat2Z.inj_succ. nia.
Qed.

(** The cumulative table of a frame in which no (city, year) pair occurs
    twice and every value lies between [lo] and [hi]. *)
Lemma distinct_cumulative_grows (rows : list expiration_event) (lo hi : Z) :
  NoDup (map (fun e => (city e, year e)) rows) ->
  Forall (fun e => lo <= expiring_units e <= hi) rows ->
  0 <= lo -> hi * Z.of_nat (List.length rows) <= Int64.max_int ->
  Permutation (map (fun r => ((c_city r, c_year r), c_expiring r))
                   (cumulative_table rows))
              (triples rows) /\
  List.length (cumulative_table rows) = List.length rows /\
  Forall (fun r => lo <= c_expiring r <= hi) (cumulative_table rows) /\
  forall c, years_ascend c (cumulative_table rows) /\
            nondecreasing c (cumulative_table rows).
Proof.
  intros N B Lo Hi.
  assert (Nk : NoDup (keys (triples rows))).
  { unfold keys, triples. rewrite map_map. exact N. }
  assert (R : Forall (fun r : triple => lo <= snd r <= hi) (triples rows)).
  { unfold triples. apply Forall_map. exact B. }
  assert (Hl : rows <> [] -> 0 <= hi <= Int64.max_int).
  { destruct rows as [|e rows]; [congruence|]. intros _.
    inversion B; subst. simpl List.length in Hi. nia. }
  assert (S : summary rows = sort_values (triples rows)).
  { apply summary_of_distinct; auto. apply Forall_forall. intros r I.
    rewrite Forall_forall in R. specialize (R _ I).
    assert (rows <> []) as Ne.
    { intros ->. destruct I. }
    specialize (Hl Ne).
    unfold Int64.in_range, Int64.min_int, Int64.max_int in *. lia. }
  assert (T : map (fun r => ((c_city r, c_year r), c_expiring r))
                  (cumulative_table rows)
              = sort_values (triples rows)).
  { unfold cumulative_table, groupby_cumsum.
    rewrite triples_of_cumsum, S. apply sort_values_id.
    now apply sort_values_ascending. }
  assert (P : Permutation (map (fun r => ((c_city r, c_year r), c_expiring r))
                               (cumulative_table rows))
                          (triples rows)).
  { rewrite T. apply sort_values_perm. }
  assert (L : List.length (cumulative_table rows) = List.length rows).
  { rewrite <- (length_map (fun r => ((c_city r, c_year r), c_expiring r))).
    rewrite (Permutation_length P). unfold triples. now rewrite length_map. }
  assert (V : Forall (fun r => lo <= c_expiring r <= hi) (cumulative_table rows)).
  { apply Forall_forall. intros r I.
    apply (in_map (fun r => ((c_city r, c_year r), c_expiring r))) in I.
    apply (Permutation_in _ P) in I. rewrite Forall_forall in R.
    exact (R _ I). }
  split; [exact P|]. split; [exact L|]. split; [exact V|].
  intros c. apply (builder_grows (triples rows) c).
  - apply Forall_forall. intros r I. apply filter_In in I. destruct I as [I _].
    rewrite Forall_forall in V. specialize (V _ I). lia.
  - unfold total_fits.
    assert (Fg : Forall (fun v => 0 <= v <= hi)
                        (map c_expiring (group_rows c (cumulative_table rows)))).
    { apply Forall_map. apply Forall_forall. intros r I. unfold group_rows in I.
      apply filter_In in I. destruct I as [I _].
      rewrite Forall_forall in V. specialize (V _ I). lia. }
    pose proof (exact_sum_bound _ _ Fg) as Bd. rewrite length_map in Bd.
    assert (List.length (group_rows c (cumulative_table rows))
            <= List.length (cumulative_table rows))%nat
      by apply filter_length_le.
    rewrite L in *.
    destruct (Z_le_gt_dec 0 hi) as [Hp|Hn].
    + pose proof (Z.mul_le_mono_nonneg_l
                    (Z.of_nat (List.length (group_rows c (cumulative_table rows))))
                    (Z.of_nat (List.length rows)) hi Hp ltac:(lia)).
      unfold cumulative_table, summary in *. lia.
    + assert (hi * Z.of_nat (List.length (group_rows c (cumulative_table rows))) <= 0)
        by nia.
      unfold cumulative_table, summary, Int64.max_int in *. lia.
Qed.

(** X6. For every random source whose [randint] keeps to its bounds, the
    generated expiration data has no two records of the same city and
    year, so the cumulative table is made and has one row per record, 168
    in all, each with the units of its record, between 500 and 8000; in
    every city the years ascend and the cumulative column never decreases,
    no overflow being possible. *)
Theorem generated_cumulative_grows (g : Generate.rng) :
  Generate.within_bounds g ->
  exists table,
    expiring_cumulative (Generate.expiration_data g) = Ok table /\
    Permutation (map (fun r => ((c_city r, c_year r), c_expiring r)) table)
                (triples (Generate.expiration_data g)) /\
    List.length table = 168%nat /\
    Forall (fun r => 500 <= c_expiring r <= 8000) table /\
    forall c, years_ascend c table /\ nondecreasing c table.
Proof.
  intros W.
  pose proof (Generate.expiration_data_length g) as Len.
  pose proof (Generate.expiration_data_nodup g) as N.
  pose proof (Generate.expiration_units_bounded g W) as B.
  generalize dependent (Generate.expiration_data g). intros rows Len N B.
  exists (cumulative_table rows).
  split; [destruct rows; [discriminate Len|reflexivity]|].
  destruct (distinct_cumulative_grows rows 500 8000) as [P [L [V G]]].
  - exact N.
  - exact B.
  - lia.
  - rewrite Len. unfold Int64.max_int, Int64.modulus. simpl. lia.
  - rewrite Len in L. auto.
Qed.

Lemma generated_cumulative_grows_witness :
  exists table,
    expiring_cumulative (Generate.expiration_data Generate.midpoint_rng) = Ok table /\
    nondecreasing "Detroit, MI" table.
Proof.
  destruct (generated_cumulative_grows Generate.midpoint_rng
              Generate.midpoint_within_bounds) as [table [E [_ [_ [_ G]]]]].
  exists table. split; [exact E|]. exact (proj2 (G "Detroit, MI"%string)).
Defined.

End CumulativeFacts.

(** ** More on the roll-up

    [partner_template.py], lines 34-38 and 99-121. *)

Module RollupFacts.

Import B64 Rollup.

(** *** The left merge *)

Definition matches (mix : list mix_row) (city : string) : list mix_row :=
  filter (fun m => String.eqb (mix_city m) city) mix.

Definition typed_as (c : coverage_row) (t : option string) : merged_row :=
  {| m_city := cov_city c; m_severe := cov_severe c;
     m_subsidized := cov_subsidized c; m_city_type := t |}.

(** The city type the mix table gives a city that it lists once. *)
Definition type_of (mix : list mix_row) (city : string) : option string :=
  match matches mix city with
  | m :: _ => mix_city_type m
  | [] => None
  end.

Lemma matches_at_most_one (mix : list mix_row) (city : string) :
  NoDup (map mix_city mix) -> (List.length (matches mix city) <= 1)%nat.
Proof.
  unfold matches. induction mix as [|m mix IH]; simpl; intros N; [lia|].
  inversion N as [|? ? Nm N']; subst.
  destruct (String.eqb (mix_city m) city) eqn:E; simpl; auto.
  apply String.eqb_eq in E.
  assert (Z0 : filter (fun m0 => String.eqb (mix_city m0) city) mix = []).
  { clear IH N N'. induction mix as [|m' mix IH]; simpl; auto.
    destruct (String.eqb (mix_city m') city) eqn:E'.
    - apply String.eqb_eq in E'. exfalso. apply Nm. left. congruence.
    - apply IH. intros I. apply Nm. now right. }
  rewrite Z0. simpl. lia.
Qed.

(** The merged rows of one coverage row. *)
Definition merge_block (mix : list mix_row) (c : coverage_row) : list merged_row :=
  match matches mix (cov_city c) with
  | [] => [typed_as c None]
  | ms => map (fun m => typed_as c (mix_city_type m)) ms
  end.

Lemma merge_left_cons (c : coverage_row) (coverage : list coverage_row)
    (mix : list mix_row) :
  merge_left (c :: coverage) mix = merge_block mix c ++ merge_left coverage mix.
Proof. reflexivity. Qed.

Lemma merge_block_length (c : coverage_row) (mix : list mix_row) :
  List.length (merge_block mix c)
  = Nat.max 1 (List.length (matches mix (cov_city c))).
Proof.
  unfold merge_block.
  destruct (matches mix (cov_city c)) as [|m ms]; simpl; [reflexivity|].
  now rewrite length_map.
Qed.

Lemma merge_block_cities (c : coverage_row) (mix : list mix_row) (r : merged_row) :
  In r (merge_block mix c) ->
  m_city r = cov_city c /\ m_severe r = cov_severe c /\
  m_subsidized r = cov_subsidized c.
Proof.
  unfold merge_block.
  destruct (matches mix (cov_city c)) as [|m ms].
  - intros [<-|[]]. auto.
  - intros I. apply in_map_iff in I. destruct I as [m' [<- _]]. auto.
Qed.

Lemma filter_all_or_none {A} (p : A -> bool) (l : list A) (b : bool) :
  (forall x, In x l -> p x = b) -> filter p l = if b then l else [].
Proof.
  induction l as [|a l IH]; simpl; intros H; [now destruct b|].
  rewrite (H a) by auto. rewrite IH by auto. now destruct b.
Qed.

(** When the mix table lists no city twice, every coverage row is merged
    into one row. *)
Lemma merge_left_unique (coverage : list coverage_row) (mix : list mix_row) :
  NoDup (map mix_city mix) ->
  merge_left coverage mix =
  map (fun c => typed_as c (type_of mix (cov_city c))) coverage.
Proof.
  intros N.
  induction coverage as [|c coverage IH]; [reflexivity|].
  rewrite merge_left_cons, IH. clear IH. simpl map.
  change (typed_as c (type_of mix (cov_city c))
          :: map (fun c0 => typed_as c0 (type_of mix (cov_city c0))) coverage)
    with ([typed_as c (type_of mix (cov_city c))]
          ++ map (fun c0 => typed_as c0 (type_of mix (cov_city c0))) coverage).
  f_equal. unfold merge_block, type_of.
  pose proof (matches_at_most_one mix (cov_city c) N) as L.
  destruct (matches mix (cov_city c)) as [|m [|m' ms]]; simpl in *; auto; lia.
Qed.

(** X7. The left merge keeps the coverage rows in their order and gives a
    coverage row as many copies as the mix table has rows of its city, one
    copy when it has none: for every city, the number of merged rows is
    the number of its coverage rows times the larger of 1 and the number
    of its mix rows.  When the mix table lists no city twice, the merged
    frame is the coverage frame, row for row, each with the type of its
    city or with a missing type. *)
Theorem merge_left_rows (coverage : list coverage_row) (mix : list mix_row) :
  (forall city,
     List.length (filter (fun r => String.eqb (m_city r) city) (merge_left coverage mix))
     = (List.length (filter (fun c => String.eqb (cov_city c) city) coverage)
        * Nat.max 1 (List.length (matches mix city)))%nat) /\
  (NoDup (map mix_city mix) ->
   merge_left coverage mix =
   map (fun c => typed_as c (type_of mix (cov_city c))) coverage).
Proof.
  split; [|apply merge_left_unique].
  intros city.
  induction coverage as [|c coverage IH]; [reflexivity|].
  rewrite merge_left_cons, filter_app, length_app, IH. clear IH.
  rewrite (filter_all_or_none _ (merge_block mix c) (String.eqb (cov_city c) city)).
  2:{ intros r I. apply merge_block_cities in I. destruct I as [-> _]. reflexivity. }
  simpl filter.
  destruct (String.eqb (cov_city c) city) eqn:E.
  - apply String.eqb_eq in E. subst city.
    rewrite merge_block_length. simpl List.length. lia.
  - reflexivity.
Qed.

Lemma merge_left_rows_witness :
  merge_left two_cities two_types =
  map (fun c => typed_as c (type_of two_types (cov_city c))) two_cities.
Proof.
  apply merge_left_rows.
  repeat (constructor; [simpl; intros F; repeat (destruct F as [F|F]; [discriminate|]); exact F|]).
  constructor.
Defined.

(** *** Totals of the groups *)

(** The merged rows that carry a city type. *)
Definition typed_rows (merged : list merged_row) : list merged_row :=
  filter (fun r => match m_city_type r with Some _ => true | None => false end) merged.

Lemma keyed_typed_rows (merged : list merged_row) :
  map snd (keyed merged) =
  map (fun r => (m_severe r, m_subsidized r)) (typed_rows merged).
Proof.
  unfold keyed, typed_rows. induction merged as [|r merged IH]; simpl; auto.
  destruct (m_city_type r); simpl; now rewrite ?IH.
Qed.

Lemma group_column_sum {K A} `{Ord K} (f : A -> Z) (rows : list (K * A)) :
  Int64.sum (map (fun g => Int64.sum (map f (snd g))) (groupby rows))
  = Int64.sum (map f (map snd rows)).
Proof.
  rewrite <- (map_map (fun g => map f (snd g)) Int64.sum).
  rewrite CumulativeFacts.sum_of_sums. apply CumulativeFacts.sum_perm.
  rewrite <- (map_map snd (map f)), <- concat_map.
  apply Permutation_map. rewrite <- flat_map_concat_map. apply groupby_perm.
Qed.

(** X8. The roll-up keeps the totals: the [total_severe] of the groups
    add up, in the column's 64-bit arithmetic, to the sum of the severely
    burdened renters of the merged rows that have a city type, and
    likewise [total_subsidized]; only rows without a city type are left
    out.  When the mix table lists every coverage city exactly once, with
    a type, the groups add up to the totals of the coverage table. *)
Theorem rollup_keeps_totals :
  (forall merged,
     Int64.sum (map total_severe (by_type merged))
       = Int64.sum (map m_severe (typed_rows merged)) /\
     Int64.sum (map total_subsidized (by_type merged))
       = Int64.sum (map m_subsidized (typed_rows merged))) /\
  (forall coverage mix,
     NoDup (map mix_city mix) ->
     (forall c, In c coverage -> type_of mix (cov_city c) <> None) ->
     Int64.sum (map total_severe (by_type (merge_left coverage mix)))
       = Int64.sum (map cov_severe coverage) /\
     Int64.sum (map total_subsidized (by_type (merge_left coverage mix)))
       = Int64.sum (map cov_subsidized coverage)).
Proof.
  assert (G : forall merged,
     Int64.sum (map total_severe (by_type merged))
       = Int64.sum (map m_severe (typed_rows merged)) /\
     Int64.sum (map total_subsidized (by_type merged))
       = Int64.sum (map m_subsidized (typed_rows merged))).
  { intros merged. unfold by_type, group_totals, agg.
    rewrite !map_map. cbn [total_severe total_subsidized fst snd].
    rewrite (group_column_sum fst), (group_column_sum snd).
    rewrite keyed_typed_rows, !map_map. split; reflexivity. }
  split; [exact G|].
  intros coverage mix N T. destruct (G (merge_left coverage mix)) as [G1 G2].
  rewrite G1, G2.
  rewrite (merge_left_unique coverage mix N).
  assert (F : typed_rows (map (fun c => typed_as c (type_of mix (cov_city c))) coverage)
              = map (fun c => typed_as c (type_of mix (cov_city c))) coverage).
  { unfold typed_rows. apply CumulativeFacts.filter_all. intros r I.
    apply in_map_iff in I. destruct I as [c [<- I]]. simpl.
    specialize (T c I). destruct (type_of mix (cov_city c)); congruence. }
  rewrite F, !map_map. split; reflexivity.
Qed.

Lemma rollup_keeps_totals_witness :
  Int64.sum (map total_severe (by_type (merge_left two_cities two_types)))
  = Int64.sum (map cov_severe two_cities).
Proof.
  destruct rollup_keeps_totals as [_ T].
  apply T.
  - repeat (constructor; [simpl; intros F; repeat (destruct F as [F|F]; [discriminate|]); exact F|]).
    constructor.
  - intros c I. simpl in I. destruct I as [<-|[<-|[]]]; vm_compute; discriminate.
Defined.

(** *** Coverage of a group without demand *)

Lemma percent_of_cases (part whole : Z) :
  0 <= part -> 0 <= whole ->
  (0 < whole -> exists q, percent_of part whole = Fin q /\ (0 <= q)%Q) /\
  (whole = 0 -> 0 < part -> percent_of part whole = Inf false) /\
  (whole = 0 -> part = 0 -> percent_of part whole = NaN).
Proof.
  intros Np Nw. split; [|split].
  - intros P. rewrite percent_of_finite by assumption.
    eexists. split; [reflexivity|]. unfold share_value.
    apply rnd_nonneg. apply Qmult_le_0_compat; [|discriminate].
    apply rnd_nonneg. apply Qle_shift_div_l.
    + apply rnd_pos. change 0%Q with (inject_Z 0). now rewrite <- Zlt_Qlt.
    + rewrite Qmult_0_l. apply rnd_nonneg.
      change 0%Q with (inject_Z 0). now rewrite <- Zle_Qle.
  - intros -> P. unfold percent_of, of_Z, of_Q, div, mul.
    change (Qis_zero (rnd (inject_Z 0))) with true. cbn iota.
    assert (Pq : (0 < rnd (inject_Z part))%Q).
    { apply rnd_pos. change 0%Q with (inject_Z 0). now rewrite <- Zlt_Qlt. }
    rewrite (Qis_zero_pos _ Pq).
    assert (Nn : Qis_neg (rnd (inject_Z part)) = false).
    { destruct (Qis_neg (rnd (inject_Z part))) eqn:E; auto.
      apply Qis_neg_iff in E. lra. }
    rewrite Nn. reflexivity.
  - intros -> ->. reflexivity.
Qed.

(** X9. A group's coverage is computed without a guard: for a group
    with positive demand it is a finite, non-negative float; for a group
    with no demand it is positive infinity when the group has subsidized
    units and NaN when it has none.  Nothing is raised. *)
Theorem group_coverage_cases (merged : list merged_row) (r : rollup_row) :
  In r (by_type merged) ->
  0 <= total_severe r -> 0 <= total_subsidized r ->
  subsidized_per_100_burdened r = percent_of (total_subsidized r) (total_severe r) /\
  (0 < total_severe r ->
   exists q, subsidized_per_100_burdened r = Fin q /\ (0 <= q)%Q) /\
  (total_severe r = 0 -> 0 < total_subsidized r ->
   subsidized_per_100_burdened r = Inf false) /\
  (total_severe r = 0 -> total_subsidized r = 0 ->
   subsidized_per_100_burdened r = NaN).
Proof.
  intros I Nd Ns.
  assert (E : subsidized_per_100_burdened r
              = percent_of (total_subsidized r) (total_severe r)).
  { unfold by_type in I. apply in_map_iff in I. destruct I as [g [<- _]].
    reflexivity. }
  split; [exact E|]. rewrite E. apply percent_of_cases; assumption.
Qed.

Definition no_renters : list coverage_row :=
  [ {| cov_city := "New York, NY"; cov_severe := 0; cov_subsidized := 110000 |};
    {| cov_city := "Detroit, MI"; cov_severe := 120000; cov_subsidized := 0 |} ].

Lemma group_coverage_cases_witness :
  map subsidized_per_100_burdened (by_type (merge_left no_renters two_types))
  = [Fin 0; Inf false].
Proof.
  assert (R : exists r1 r2, by_type (merge_left no_renters two_types) = [r1; r2] /\
                            total_severe r1 = 120000 /\ total_subsidized r1 = 0 /\
                            total_severe r2 = 0 /\ total_subsidized r2 = 110000).
  { do 2 eexists. split; [vm_compute; reflexivity|]. repeat split. }
  destruct R as [r1 [r2 [E [D1 [S1 [D2 S2]]]]]]. rewrite E. simpl. f_equal.
  - destruct (group_coverage_cases (merge_left no_renters two_types) r1) as [P _];
      [rewrite E; simpl; auto|lia|lia|].
    rewrite P, D1, S1. vm_compute. reflexivity.
  - f_equal.
    destruct (group_coverage_cases (merge_left no_renters two_types) r2)
      as [_ [_ [P _]]]; [rewrite E; simpl; auto|lia|lia|].
    apply P; lia.
Defined.

End RollupFacts.

(** ** Ranges of the roll-up's columns

    [partner_template.py], lines 112-143: the shares and the label
    offsets stay within the ranges the arithmetic suggests, rounding
    included. *)

Module RollupRanges.

Import B64 B64Order Rollup.
Local Open Scope Q_scope.

(** A value between two floats is rounded to a value between them. *)
Lemma rnd_between (lo hi x : Q) :
  rnd lo = lo -> rnd hi = hi -> lo <= x <= hi -> lo <= rnd x <= hi.
Proof.
  intros El Eh [L U]. split.
  - apply Qle_trans with (rnd lo); [rewrite El; apply Qle_refl|now apply rnd_mono].
  - apply Qle_trans with (rnd hi); [now apply rnd_mono|rewrite Eh; apply Qle_refl].
Qed.

Lemma rnd_1 : rnd 1 = 1.
Proof. vm_compute. reflexivity. Qed.

Lemma rnd_half : rnd (1 # 2) = 1 # 2.
Proof. vm_compute. reflexivity. Qed.

Lemma rnd_3_2 : rnd (3 # 2) = 3 # 2.
Proof. vm_compute. reflexivity. Qed.

Lemma rnd_2 : rnd 2 = 2.
Proof. vm_compute. reflexivity. Qed.

Lemma rnd_35 : rnd 35 = 35.
Proof. vm_compute. reflexivity. Qed.

(** The size factor is a float between 0 and 1: 0 for the smallest size
    and 1 for the largest. *)
Lemma size_factor_unit (min_size max_size size : Z) :
  is_count min_size -> is_count max_size -> is_count size ->
  (min_size <= size <= max_size)%Z -> (min_size < max_size)%Z ->
  exists q, size_factor min_size max_size size = Fin q /\ 0 <= q <= 1 /\
            (size = min_size -> q = 0) /\ (size = max_size -> q = 1).
Proof.
  intros C1 C2 C3 [L U] D.
  destruct (size_factor_finite _ _ _ C1 C2 C3 L D) as [E P].
  eexists. split; [exact E|].
  assert (Pb : 0 < rnd (inject_Z (max_size - min_size))).
  { apply rnd_pos. change 0 with (inject_Z 0). rewrite <- Zlt_Qlt. lia. }
  split; [split; [exact P|]|split].
  - apply Qle_trans with (rnd 1); [|rewrite rnd_1; apply Qle_refl].
    apply rnd_mono.
    apply Qle_shift_div_r; [exact Pb|]. rewrite Qmult_1_l.
    apply rnd_mono. rewrite <- Zle_Qle. lia.
  - intros ->. rewrite Z.sub_diag. change (rnd (inject_Z 0)) with 0.
    transitivity (rnd 0); [|exact rnd_0].
    apply rnd_proper. unfold Qdiv. ring.
  - intros ->. transitivity (rnd 1); [|exact rnd_1]. apply rnd_proper.
    field. intros Z0. rewrite Z0 in Pb. discriminate.
Qed.

(** The horizontal offset for a size factor [q]. *)
Lemma dx_of_factor (q : Q) :
  0 <= q <= 1 ->
  exists dx, add (of_Q (3 # 2)) (mul (Fin q) (of_Q (1 # 2))) = Fin dx /\
             3 # 2 <= dx <= 2.
Proof.
  intros [L U]. unfold of_Q, add, mul. rewrite rnd_3_2, rnd_half.
  eexists. split; [reflexivity|].
  assert (H : 0 <= rnd (q * (1 # 2)) <= 1 # 2).
  { apply rnd_between; [reflexivity|exact rnd_half|lra]. }
  apply rnd_between; [exact rnd_3_2|exact rnd_2|lra].
Qed.

(** The magnitude of the vertical offset for a size factor [q]. *)
Lemma dy_of_factor (q : Q) :
  0 <= q <= 1 ->
  exists dy, add (of_Z 25) (mul (Fin q) (of_Z 10)) = Fin dy /\ 25 <= dy <= 35.
Proof.
  intros [L U]. unfold of_Z, of_Q, add, mul. rewrite rnd_25, rnd_10.
  eexists. split; [reflexivity|].
  assert (H : 0 <= rnd (q * inject_Z 10) <= 10).
  { apply rnd_between; [reflexivity|exact rnd_10|].
    change (inject_Z 10) with 10. lra. }
  change (inject_Z 25) with 25.
  apply rnd_between; [exact rnd_25|exact rnd_35|lra].
Qed.

Lemma offsets_at_ends :
  add (of_Q (3 # 2)) (mul (Fin 0) (of_Q (1 # 2))) = Fin (3 # 2) /\
  add (of_Q (3 # 2)) (mul (Fin 1) (of_Q (1 # 2))) = Fin 2 /\
  add (of_Z 25) (mul (Fin 0) (of_Z 10)) = Fin 25 /\
  add (of_Z 25) (mul (Fin 1) (of_Z 10)) = Fin 35.
Proof. repeat split; vm_compute; reflexivity. Qed.

(** The offsets of a label: [dx] from 1.5 to 2, [dy] from 25 to 35 on
    either side. *)
Definition offsets_within (dx dy : float) : Prop :=
  exists x y, dx = Fin x /\ dy = Fin y /\
              3 # 2 <= x <= 2 /\ 25 <= Qabs y <= 35.

(** The offsets are exactly [x] and, on either side, [y]. *)
Definition offsets_at (x y : Q) (dx dy : float) : Prop :=
  dx = Fin x /\ (dy = Fin y \/ dy = Fin (- y)).

Lemma offsets_of_size (median_y y : float) (min_size max_size size : Z) :
  is_count min_size -> is_count max_size -> is_count size ->
  (min_size <= size <= max_size)%Z -> (min_size < max_size)%Z ->
  offsets_within (label_dx_of min_size max_size size)
                 (label_dy_of median_y min_size max_size y size) /\
  (size = min_size ->
   offsets_at (3 # 2) 25 (label_dx_of min_size max_size size)
                (label_dy_of median_y min_size max_size y size)) /\
  (size = max_size ->
   offsets_at 2 35 (label_dx_of min_size max_size size)
                (label_dy_of median_y min_size max_size y size)).
Proof.
  intros C1 C2 C3 B D.
  destruct (size_factor_unit _ _ _ C1 C2 C3 B D) as [q [E [R [Q0 Q1]]]].
  rewrite label_dy_signed. unfold label_dx_of, dy_magnitude. rewrite E.
  destruct offsets_at_ends as [X0 [X1 [Y0 Y1]]].
  split; [|split].
  - destruct (dx_of_factor q R) as [dx [Ex Bx]].
    destruct (dy_of_factor q R) as [dy [Ey By]].
    rewrite Ex, Ey. exists dx.
    destruct (gtb y median_y); cbn [neg].
    + exists (- dy). repeat split; try tauto; rewrite Qabs_opp, Qabs_pos; lra.
    + exists dy. repeat split; try tauto; rewrite Qabs_pos; lra.
  - intros S. rewrite (Q0 S), X0, Y0. split; [reflexivity|].
    destruct (gtb y median_y); [right|left]; reflexivity.
  - intros S. rewrite (Q1 S), X1, Y1. split; [reflexivity|].
    destruct (gtb y median_y); [right|left]; reflexivity.
Qed.

(** The offsets of the rows of [by_type]. *)
Lemma offsets_of_rows (merged : list merged_row) :
  Forall is_count (map total_severe (by_type merged)) ->
  column_min (map total_severe (by_type merged))
    <> column_max (map total_severe (by_type merged)) ->
  Forall (fun r =>
            offsets_within (label_dx r) (label_dy r) /\
            (total_severe r = column_min (map total_severe (by_type merged)) ->
             offsets_at (3 # 2) 25 (label_dx r) (label_dy r)) /\
            (total_severe r = column_max (map total_severe (by_type merged)) ->
             offsets_at 2 35 (label_dx r) (label_dy r)))
         (by_type merged).
Proof.
  intros C N. apply Forall_forall. intros r I.
  assert (S : map total_severe (by_type merged)
              = map (fun g => fst (snd g)) (group_totals merged)).
  { unfold by_type. rewrite map_map. reflexivity. }
  assert (Ir : In (total_severe r) (map total_severe (by_type merged)))
    by now apply in_map.
  destruct (column_min_spec _ _ Ir) as [L Imin].
  destruct (column_max_spec _ _ Ir) as [U Imax].
  rewrite Forall_forall in C.
  pose proof (C _ Ir) as Cr. pose proof (C _ Imin) as Cmin.
  pose proof (C _ Imax) as Cmax.
  rewrite S in *.
  set (lo := column_min (map (fun g => fst (snd g)) (group_totals merged))) in *.
  set (hi := column_max (map (fun g => fst (snd g)) (group_totals merged))) in *.
  unfold by_type in I. apply in_map_iff in I. destruct I as [g [<- _]].
  cbn [label_dx label_dy total_severe] in *.
  fold lo. fold hi.
  apply offsets_of_size; auto; lia.
Qed.

(** X10. When the group sizes are counts that are not all equal, every
    row of [by_type] gets a horizontal label offset between 1.5 and 2 and
    a vertical one between 25 and 35 in magnitude, rounding included; the
    group of the smallest size gets exactly 1.5 and 25, that of the largest
    exactly 2 and 35. *)
Theorem label_offsets_in_range (merged : list merged_row) :
  Forall is_count (map total_severe (by_type merged)) ->
  column_min (map total_severe (by_type merged))
    <> column_max (map total_severe (by_type merged)) ->
  Forall (fun r =>
            offsets_within (label_dx r) (label_dy r) /\
            (total_severe r = column_min (map total_severe (by_type merged)) ->
             offsets_at (3 # 2) 25 (label_dx r) (label_dy r)) /\
            (total_severe r = column_max (map total_severe (by_type merged)) ->
             offsets_at 2 35 (label_dx r) (label_dy r)))
         (by_type merged).
Proof. exact (offsets_of_rows merged). Qed.

Lemma label_offsets_in_range_witness :
  Forall (fun r => offsets_within (label_dx r) (label_dy r))
         (by_type (merge_left two_cities two_types)).
Proof.
  eapply Forall_impl;
    [|apply (label_offsets_in_range (merge_left two_cities two_types))].
  - intros r H. exact (proj1 H).
  - apply Forall_forall. intros z I. vm_compute in I.
    destruct I as [<-|[<-|[]]]; unfold is_count, Int64.max_int; lia.
  - vm_compute. discriminate.
Defined.

(** *** The shares *)

Lemma exact_sum_member (l : list Z) (x : Z) :
  Forall (fun v => (0 <= v)%Z) l -> In x l -> (x <= Int64.exact_sum l)%Z.
Proof.
  intros F. induction F as [|v l Pv F IH]; simpl; [tauto|].
  pose proof (Int64.exact_sum_nonneg l F).
  intros [->|I]; [lia|]. specialize (IH I). lia.
Qed.

Lemma share_value_range (whole part : Z) :
  (0 <= part <= whole)%Z -> (0 < whole)%Z ->
  0 <= share_value whole part <= 100.
Proof.
  intros [L U] P. unfold share_value.
  assert (Pw : 0 < rnd (inject_Z whole)).
  { apply rnd_pos. change 0 with (inject_Z 0). now rewrite <- Zlt_Qlt. }
  assert (Pp : 0 <= rnd (inject_Z part)).
  { apply rnd_nonneg. change 0 with (inject_Z 0). now rewrite <- Zle_Qle. }
  assert (M : rnd (inject_Z part) <= rnd (inject_Z whole)).
  { apply rnd_mono. now rewrite <- Zle_Qle. }
  assert (R : 0 <= rnd (rnd (inject_Z part) / rnd (inject_Z whole)) <= 1).
  { apply rnd_between; [reflexivity|exact rnd_1|]. split.
    - apply Qle_shift_div_l; [exact Pw|]. now rewrite Qmult_0_l.
    - apply Qle_shift_div_r; [exact Pw|]. now rewrite Qmult_1_l. }
  apply rnd_between; [reflexivity|exact rnd_100|lra].
Qed.

(** X11. When the summed demands of the groups are non-negative and
    their exact grand total is positive and fits a signed 64-bit integer,
    every percentage share of the roll-up is a finite float between 0 and
    100, rounding included. *)
Theorem shares_between_0_and_100 (merged : list merged_row) :
  Forall (fun r => (0 <= total_severe r)%Z) (by_type merged) ->
  (0 < Int64.exact_sum (map total_severe (by_type merged)) <= Int64.max_int)%Z ->
  Forall (fun r => exists q, severely_burdened_pct r = Fin q /\ 0 <= q <= 100)
         (by_type merged).
Proof.
  intros N [P M].
  assert (Nm : Forall (fun v => (0 <= v)%Z) (map total_severe (by_type merged))).
  { apply Forall_map. exact N. }
  assert (W : Int64.sum (map total_severe (by_type merged))
              = Int64.exact_sum (map total_severe (by_type merged))).
  { apply Int64.sum_exact. unfold Int64.in_range, Int64.min_int. lia. }
  assert (S : forall r, In r (by_type merged) ->
                severely_burdened_pct r =
                percent_of (total_severe r)
                           (Int64.sum (map total_severe (by_type merged)))).
  { assert (T : map total_severe (by_type merged)
                = map (fun g => fst (snd g)) (group_totals merged)).
    { unfold by_type. rewrite map_map. reflexivity. }
    rewrite T. intros r I. unfold by_type in I. apply in_map_iff in I.
    destruct I as [g [<- _]]. reflexivity. }
  apply Forall_forall. intros r I.
  rewrite (S r I), W, percent_of_finite by exact P.
  eexists. split; [reflexivity|]. apply share_value_range; [|exact P].
  rewrite Forall_forall in N. split; [now apply N|].
  apply exact_sum_member; [exact Nm|now apply in_map].
Qed.

Lemma shares_between_0_and_100_witness :
  Forall (fun r => exists q, severely_burdened_pct r = Fin q /\ 0 <= q <= 100)
         (by_type (merge_left two_cities two_types)).
Proof.
  apply shares_between_0_and_100.
  - apply Forall_forall. intros r I. apply (in_map total_severe) in I.
    remember (total_severe r) as z eqn:E. clear E. vm_compute in I.
    destruct I as [<-|[<-|[]]]; lia.
  - vm_compute. split; [reflexivity|discriminate].
Defined.

End RollupRanges.

(** ** Outcomes of the chart of the two price indices

    [partner_template.py], lines 293-383: when the block saves a chart,
    when it stops, and what it saves when the two sources share no
    year. *)

Module TrendsFacts.

Import B64 Py Trends.

Lemma mapM_raise {A B} (g : A -> result B) (l : list A) (e : exception) :
  mapM g l = Raise e -> exists a, In a l /\ g a = Raise e.
Proof.
  induction l as [|a l IH]; simpl; [discriminate|].
  destruct (g a) as [b|e'] eqn:Ea; simpl.
  - destruct (mapM g l) as [bs|e'']; simpl; [discriminate|].
    intros E. inversion E; subst e''. destruct (IH eq_refl) as [a' [I Ea']].
    exists a'. auto.
  - intros E. inversion E; subst e'. exists a. auto.
Qed.

Lemma mapM_cases {A B} (g : A -> result B) (l : list A) :
  (exists bs, mapM g l = Ok bs) \/ (exists e, mapM g l = Raise e).
Proof. destruct (mapM g l) as [bs|e]; [left; now exists bs|right; now exists e]. Qed.

Lemma read_all {A B} (g : A -> option B) (l : list A) (bs : list B) :
  map Some bs = map g l -> Forall (fun a => g a <> None) l.
Proof.
  revert bs. induction l as [|a l IH]; intros [|b bs] E; simpl in E;
    try discriminate; constructor.
  - inversion E as [[Ea El]]. congruence.
  - inversion E as [[Ea El]]. now apply (IH bs).
Qed.

Section Outcomes.

Context {date_format : Type}.
Variable guess_format : string -> option date_format.
Variable strptime : date_format -> string -> option Z.
Variable parse_one : string -> option Z.
Variable out_of_range_cast : Q -> Z.

(** The date strings of line 302 for the national monthly rows and their
    months. *)
Definition hpi_dates (hpi : list hpi_row) (months : list Z) : list string :=
  map hpi_date_string (combine (hpi_us hpi) months).

(** Every string of a column is read as a date. *)
Definition all_read (column : list string) : Prop :=
  Forall (fun d => reader guess_format strptime parse_one column d <> None) column.

Definition saved : list line := [Text "Saved: visualizations/covid_trends.html"].

Definition stopped (e : exception) : list line * option (list trend_row) :=
  ([ErrorLine "ERROR creating chart 3: " e], None).

(** A cell from which the cast makes no month. *)
Lemma hpi_month_raise (r : hpi_row) (e : exception) :
  hpi_month out_of_range_cast r = Raise e ->
  (e = ValueError /\
   (period r = PText \/ period r = PFloat NaN \/ exists s, period r = PFloat (Inf s))) \/
  (e = OverflowError /\ exists m, period r = PInt m /\ ~ Int64.in_range m).
Proof.
  unfold hpi_month. destruct (period r) as [m|[|s|q]|] eqn:P.
  - destruct (in_int64 m) eqn:R; [discriminate|]. intros E. inversion E.
    right. split; [reflexivity|]. exists m. split; [reflexivity|].
    unfold in_int64 in R. unfold Int64.in_range. intros [L U].
    apply Z.leb_le in L, U. rewrite L, U in R. discriminate.
  - intros E. inversion E. left. auto.
  - intros E. inversion E. left. split; [reflexivity|]. right. right. now exists s.
  - discriminate.
  - intros E. inversion E. left. auto.
Qed.

Lemma to_datetime_raise_cases (column : list string) :
  (all_read column <->
   exists ys, to_datetime_raise guess_format strptime parse_one column = Ok ys) /\
  (forall e, to_datetime_raise guess_format strptime parse_one column = Raise e ->
             e = ValueError \/ e = DateParseError).
Proof.
  split; [split|].
  - apply to_datetime_raise_all.
  - intros [ys E]. apply to_datetime_raise_ok in E.
    unfold to_datetime_coerce in E. exact (read_all _ _ _ E).
  - intros e. unfold to_datetime_raise.
    destruct (format_source column) as [s|]; [destruct (guess_format s)|];
      intros E; apply mapM_raise in E; destruct E as [x [_ E]];
      match type of E with
      | match ?x with _ => _ end = _ => destruct x
      end; inversion E; auto.
Qed.

Lemma chart3_of_observations (hpi : list hpi_row) (f : zhvi_frame) :
  chart3 guess_format strptime parse_one out_of_range_cast hpi f =
  match hpi_observations guess_format strptime parse_one out_of_range_cast hpi with
  | Ok a => (saved, Some (merged_series a
                            (zhvi_observations guess_format strptime parse_one f)))
  | Raise e => stopped e
  end.
Proof.
  unfold chart3, covid_trends, hpi_year, zhvi_year, merged_series.
  destruct (hpi_observations _ _ _ _ hpi); reflexivity.
Qed.

Lemma observations_cases (hpi : list hpi_row) :
  (forall e, mapM (hpi_month out_of_range_cast) (hpi_us hpi) = Raise e ->
     hpi_observations guess_format strptime parse_one out_of_range_cast hpi = Raise e) /\
  (forall months,
     mapM (hpi_month out_of_range_cast) (hpi_us hpi) = Ok months ->
     (all_read (hpi_dates hpi months) ->
      exists a, hpi_observations guess_format strptime parse_one out_of_range_cast hpi
                = Ok a) /\
     (~ all_read (hpi_dates hpi months) ->
      hpi_observations guess_format strptime parse_one out_of_range_cast hpi
        = Raise ValueError \/
      hpi_observations guess_format strptime parse_one out_of_range_cast hpi
        = Raise DateParseError)).
Proof.
  unfold hpi_observations. split.
  - intros e E. now rewrite E.
  - intros months E. rewrite E. cbn [bind]. fold (hpi_dates hpi months).
    destruct (to_datetime_raise_cases (hpi_dates hpi months)) as [[A1 A2] Ex].
    split.
    + intros R. destruct (A1 R) as [ys Ey]. rewrite Ey. cbn [bind]. eexists. reflexivity.
    + intros N.
      destruct (to_datetime_raise guess_format strptime parse_one (hpi_dates hpi months))
        as [ys|e] eqn:Ey.
      * exfalso. apply N. apply A2. now exists ys.
      * cbn [bind]. destruct (Ex e eq_refl) as [->| ->]; auto.
Qed.

(** X13. The block saves a chart exactly when the cast gives a month for
    every national monthly row of the index file and every date string
    made of a year and a month is read as a date, under the format
    inferred from the first of them or one by one.  Otherwise it stops:
    with the error of the cast, a [ValueError] for a missing or an
    infinite period or for text that is no integer and an [OverflowError]
    for an integer beyond 64 bits, or else with the error of the first
    date string that is not read.  What is printed does not depend on the
    Zillow file. *)
Theorem chart3_outcome (hpi : list hpi_row) (f : zhvi_frame) :
  ((exists rows, chart3 guess_format strptime parse_one out_of_range_cast hpi f
                 = (saved, Some rows)) <->
   exists months, mapM (hpi_month out_of_range_cast) (hpi_us hpi) = Ok months /\
                  all_read (hpi_dates hpi months)) /\
  (forall e,
     mapM (hpi_month out_of_range_cast) (hpi_us hpi) = Raise e ->
     chart3 guess_format strptime parse_one out_of_range_cast hpi f = stopped e /\
     exists r, In r (hpi_us hpi) /\
       ((e = ValueError /\
         (period r = PText \/ period r = PFloat NaN \/
          exists s, period r = PFloat (Inf s))) \/
        (e = OverflowError /\ exists m, period r = PInt m /\ ~ Int64.in_range m))) /\
  (forall months,
     mapM (hpi_month out_of_range_cast) (hpi_us hpi) = Ok months ->
     ~ all_read (hpi_dates hpi months) ->
     chart3 guess_format strptime parse_one out_of_range_cast hpi f = stopped ValueError \/
     chart3 guess_format strptime parse_one out_of_range_cast hpi f
       = stopped DateParseError) /\
  (forall f', fst (chart3 guess_format strptime parse_one out_of_range_cast hpi f)
              = fst (chart3 guess_format strptime parse_one out_of_range_cast hpi f')).
Proof.
  destruct (observations_cases hpi) as [CM CD].
  split; [|split; [|split]].
  - rewrite chart3_of_observations. split.
    + intros [rows E].
      destruct (mapM_cases (hpi_month out_of_range_cast) (hpi_us hpi))
        as [[months Em]|[e Em]].
      * exists months. split; [exact Em|].
        destruct (CD months Em) as [_ N].
        destruct (to_datetime_raise_cases (hpi_dates hpi months)) as [[_ A2] _].
        apply A2. unfold hpi_observations in E. rewrite Em in E. cbn [bind] in E.
        fold (hpi_dates hpi months) in E.
        destruct (to_datetime_raise guess_format strptime parse_one
                    (hpi_dates hpi months)) as [ys|e']; [now exists ys|].
        cbn [bind] in E. discriminate.
      * rewrite (CM e Em) in E. discriminate.
    + intros [months [Em R]]. destruct (proj1 (CD months Em) R) as [a Ea].
      rewrite Ea. eexists. reflexivity.
  - intros e Em. rewrite chart3_of_observations, (CM e Em).
    split; [reflexivity|].
    apply mapM_raise in Em. destruct Em as [r [I Er]].
    exists r. split; [exact I|]. now apply hpi_month_raise.
  - intros months Em N. rewrite chart3_of_observations.
    destruct (proj2 (CD months Em) N) as [-> | ->]; auto.
  - intros f'. rewrite !chart3_of_observations.
    destruct (hpi_observations _ _ _ _ hpi); reflexivity.
Qed.


End Outcomes.

(** A Zillow file without a single column. *)
Definition zhvi_empty : zhvi_frame := {| columns := []; regions := [] |}.

Lemma chart3_outcome_witness :
  chart3 guess_example strptime_example parse_one_example indefinite_cast
         hpi_with_bad_period zhvi_with_note = stopped ValueError.
Proof.
  apply (chart3_outcome guess_example strptime_example parse_one_example
           indefinite_cast hpi_with_bad_period zhvi_with_note).
  vm_compute. reflexivity.
Defined.


End TrendsFacts.

(** ** The long tables of the two bar charts

    [create_visualizations_altair.py], lines 35-45 and 101-114, melts the
    coverage table and the policy mix and labels the rows through a
    dictionary; [app.py], lines 232-246 and 318-336, builds the same
    tables row by row. *)

Module LongTables.

Import Rollup Generate.

(** [DataFrame.melt]: one row per value column and input row, column
    after column. *)
Definition melt {R V : Type} (value_vars : list string) (cell : R -> string -> V)
    (rows : list R) : list (R * string * V) :=
  flat_map (fun v => map (fun r => (r, v, cell r v)) rows) value_vars.

(** *** Demand and supply *)

Record long_row := {
  l_city : string;
  l_type : string;
  l_count : Z;
  l_label : option string
}.

Definition coverage_value_vars : list string :=
  ["severe_cost_burden_renters"; "total_subsidized"]%string.

(** The dictionary of lines 42-45. *)
Definition type_labels : Coverage.dict string :=
  [("severe_cost_burden_renters", "Severely Cost-Burdened Renters (Demand)");
   ("total_subsidized", "Subsidized Housing Units (Supply)")]%string.

(** The two columns the melt asks for. *)
Definition coverage_cell (r : coverage_row) (column : string) : Z :=
  if String.eqb column "severe_cost_burden_renters" then cov_severe r
  else if String.eqb column "total_subsidized" then cov_subsidized r
  else 0.

(** [coverage_viz_data]; [Series.map] leaves a type without an entry in
    the dictionary without a label. *)
Definition coverage_viz_data (rows : list coverage_row) : list long_row :=
  map (fun t =>
         {| l_city := cov_city (fst (fst t));
            l_type := snd (fst t);
            l_count := snd t;
            l_label := Coverage.field type_labels (snd (fst t)) |})
      (melt coverage_value_vars coverage_cell rows).

Record compare_row := {
  cmp_city : string;
  cmp_type : string;
  cmp_count : Z
}.

(** [comparison_data] of the application, lines 233-244. *)
Definition comparison_data (rows : list coverage_row) : list compare_row :=
  flat_map
    (fun r =>
       [ {| cmp_city := cov_city r;
            cmp_type := "Severely Cost-Burdened Renters (Demand)";
            cmp_count := cov_severe r |};
         {| cmp_city := cov_city r;
            cmp_type := "Subsidized Housing Units (Supply)";
            cmp_count := cov_subsidized r |} ])
    rows.

Lemma blocks_interleaved {A B} (f g : A -> B) (l : list A) :
  Permutation (map f l ++ map g l) (flat_map (fun a => [f a; g a]) l).
Proof.
  induction l as [|a l IH]; simpl; [apply perm_nil|].
  apply perm_skip. rewrite <- Permutation_middle. apply perm_skip, IH.
Qed.

(** X15. Every row of the melted coverage table gets a label, the
    dictionary having an entry for both melted columns; the table has two
    rows per city, all demand rows before all supply rows, and holds the
    rows of the application's [comparison_data], which lists them city by
    city, with the same labels and counts. *)
Theorem coverage_long_tables_agree (rows : list coverage_row) :
  Forall (fun l => exists s, l_label l = Some s) (coverage_viz_data rows) /\
  map l_count (coverage_viz_data rows)
    = map cov_severe rows ++ map cov_subsidized rows /\
  Permutation
    (map (fun l => (l_city l, l_label l, l_count l)) (coverage_viz_data rows))
    (map (fun c => (cmp_city c, Some (cmp_type c), cmp_count c))
         (comparison_data rows)).
Proof.
  assert (E : coverage_viz_data rows =
              map (fun r => {| l_city := cov_city r;
                               l_type := "severe_cost_burden_renters";
                               l_count := cov_severe r;
                               l_label := Some "Severely Cost-Burdened Renters (Demand)"%string |})
                  rows
              ++ map (fun r => {| l_city := cov_city r;
                                  l_type := "total_subsidized";
                                  l_count := cov_subsidized r;
                                  l_label := Some "Subsidized Housing Units (Supply)"%string |})
                     rows).
  { unfold coverage_viz_data, melt, coverage_value_vars. simpl flat_map.
    rewrite app_nil_r, map_app, !map_map. reflexivity. }
  rewrite E. split; [|split].
  - apply Forall_app. split; apply Forall_map, Forall_forall; intros r _;
      eexists; reflexivity.
  - rewrite map_app, !map_map. reflexivity.
  - rewrite map_app, !map_map. unfold comparison_data.
    rewrite (blocks_interleaved
               (fun r => (cov_city r,
                          Some "Severely Cost-Burdened Renters (Demand)"%string,
                          cov_severe r))
               (fun r => (cov_city r,
                          Some "Subsidized Housing Units (Supply)"%string,
                          cov_subsidized r))).
    clear E. induction rows as [|r rows IH]; simpl; [apply perm_nil|].
    apply perm_skip, perm_skip, IH.
Qed.

(** *** The policy mix *)

Definition tools : list string :=
  ["public_housing_pct"; "voucher_pct"; "lihtc_pct"; "section8_pct"; "iz_pct"]%string.

(** The dictionary of lines 108-114. *)
Definition policy_labels : Coverage.dict string :=
  [("public_housing_pct", "Public Housing");
   ("voucher_pct", "Housing Vouchers");
   ("lihtc_pct", "LIHTC");
   ("section8_pct", "Section 8 Project-Based");
   ("iz_pct", "Inclusionary Zoning (IZ)")]%string.

(** The dictionary of the application, lines 322-328. *)
Definition policy_names : Coverage.dict string :=
  [("public_housing_pct", "Public Housing");
   ("voucher_pct", "Housing Vouchers");
   ("lihtc_pct", "LIHTC");
   ("section8_pct", "Section 8");
   ("iz_pct", "Inclusionary Zoning")]%string.

(** [row[policy]] for the five columns. *)
Definition mix_cell (m : mix_record) (tool : string) : Z :=
  if String.eqb tool "public_housing_pct" then public_housing_pct m
  else if String.eqb tool "voucher_pct" then voucher_pct m
  else if String.eqb tool "lihtc_pct" then lihtc_pct m
  else if String.eqb tool "section8_pct" then section8_pct m
  else if String.eqb tool "iz_pct" then iz_pct m
  else 0.

Record mix_long_row := {
  ml_city : string;
  ml_city_type : string;
  ml_tool : string;
  ml_percentage : Z;
  ml_label : option string
}.

(** [policy_mix_long] *)
Definition policy_mix_long (rows : list mix_record) : list mix_long_row :=
  map (fun t =>
         {| ml_city := mix_city (fst (fst t));
            ml_city_type := city_type (fst (fst t));
            ml_tool := snd (fst t);
            ml_percentage := snd t;
            ml_label := Coverage.field policy_labels (snd (fst t)) |})
      (melt tools mix_cell rows).

Record mix_data_row := {
  md_city : string;
  md_city_type : string;
  md_policy : string;
  md_percentage : Z
}.

(** [df_mix[df_mix['city'].isin(selected_cities)]] *)
Definition df_selected (selected_cities : list string) (rows : list mix_record)
  : list mix_record :=
  filter (fun m => city_in (mix_city m) selected_cities) rows.

Fixpoint all_present {A} (l : list (option A)) : option (list A) :=
  match l with
  | [] => Some []
  | Some a :: rest =>
      match all_present rest with
      | Some l' => Some (a :: l')
      | None => None
      end
  | None :: _ => None
  end.

(** [mix_data] of the application: the rows of the two nested loops, or
    nothing when the dictionary lacks a tool (a [KeyError]). *)
Definition mix_data (selected : list mix_record) : option (list mix_data_row) :=
  all_present
    (flat_map
       (fun m =>
          map (fun tool =>
                 match Coverage.field policy_names tool with
                 | Some name =>
                     Some {| md_city := mix_city m;
                             md_city_type := city_type m;
                             md_policy := name;
                             md_percentage := mix_cell m tool |}
                 | None => None
                 end)
              tools)
       selected).

(** The rows of one record in the application's table. *)
Definition mix_rows_of (m : mix_record) : list mix_data_row :=
  [ {| md_city := mix_city m; md_city_type := city_type m;
       md_policy := "Public Housing"; md_percentage := public_housing_pct m |};
    {| md_city := mix_city m; md_city_type := city_type m;
       md_policy := "Housing Vouchers"; md_percentage := voucher_pct m |};
    {| md_city := mix_city m; md_city_type := city_type m;
       md_policy := "LIHTC"; md_percentage := lihtc_pct m |};
    {| md_city := mix_city m; md_city_type := city_type m;
       md_policy := "Section 8"; md_percentage := section8_pct m |};
    {| md_city := mix_city m; md_city_type := city_type m;
       md_policy := "Inclusionary Zoning"; md_percentage := iz_pct m |} ].

Lemma all_present_app {A} (l : list A) (rest : list (option A)) :
  all_present (map Some l ++ rest) =
  match all_present rest with
  | Some l' => Some (l ++ l')
  | None => None
  end.
Proof.
  induction l as [|a l IH]; simpl.
  - now destruct (all_present rest).
  - rewrite IH. now destruct (all_present rest).
Qed.

Lemma named_rows_of (m : mix_record) :
  map (fun tool =>
         match Coverage.field policy_names tool with
         | Some name =>
             Some {| md_city := mix_city m;
                     md_city_type := city_type m;
                     md_policy := name;
                     md_percentage := mix_cell m tool |}
         | None => None
         end)
      tools
  = map Some (mix_rows_of m).
Proof. reflexivity. Qed.

Lemma mix_data_rows (selected : list mix_record) :
  mix_data selected = Some (flat_map mix_rows_of selected).
Proof.
  unfold mix_data. induction selected as [|m ms IH]; [reflexivity|].
  cbn [flat_map]. rewrite named_rows_of, all_present_app, IH. reflexivity.
Qed.

(** A row of the melted table as the application writes it. *)
Definition as_named (l : mix_long_row) : string * string * option string * Z :=
  (ml_city l, ml_city_type l, Coverage.field policy_names (ml_tool l),
   ml_percentage l).

Definition as_tuple (d : mix_data_row) : string * string * option string * Z :=
  (md_city d, md_city_type d, Some (md_policy d), md_percentage d).

Lemma five_blocks_interleaved {A B} (f1 f2 f3 f4 f5 : A -> B) (l : list A) :
  Permutation (map f1 l ++ map f2 l ++ map f3 l ++ map f4 l ++ map f5 l)
              (flat_map (fun a => [f1 a; f2 a; f3 a; f4 a; f5 a]) l).
Proof.
  induction l as [|a l IH]; simpl; [apply perm_nil|].
  apply perm_skip.
  rewrite <- Permutation_middle. apply perm_skip.
  rewrite (app_assoc (map f1 l)), <- Permutation_middle, <- app_assoc.
  apply perm_skip.
  rewrite (app_assoc (map f1 l)), (app_assoc (map f1 l ++ map f2 l)),
    <- Permutation_middle, <- !app_assoc. apply perm_skip.
  rewrite (app_assoc (map f1 l)), (app_assoc (map f1 l ++ map f2 l)),
    (app_assoc ((map f1 l ++ map f2 l) ++ map f3 l)),
    <- Permutation_middle, <- !app_assoc. apply perm_skip.
  exact IH.
Qed.

Lemma policy_mix_long_blocks (rows : list mix_record) :
  policy_mix_long rows =
  flat_map (fun tool =>
              map (fun m => {| ml_city := mix_city m;
                               ml_city_type := city_type m;
                               ml_tool := tool;
                               ml_percentage := mix_cell m tool;
                               ml_label := Coverage.field policy_labels tool |})
                  rows)
           tools.
Proof.
  unfold policy_mix_long, melt. rewrite flat_map_concat_map, concat_map, map_map.
  rewrite <- flat_map_concat_map. apply flat_map_ext. intros tool.
  now rewrite map_map.
Qed.

Lemma filter_blocks (p : string -> bool) (ts : list string) (rows : list mix_record) :
  filter (fun l => p (ml_city l))
         (flat_map (fun tool =>
                      map (fun m => {| ml_city := mix_city m;
                                       ml_city_type := city_type m;
                                       ml_tool := tool;
                                       ml_percentage := mix_cell m tool;
                                       ml_label := Coverage.field policy_labels tool |})
                          rows)
                   ts)
  = flat_map (fun tool =>
                map (fun m => {| ml_city := mix_city m;
                                 ml_city_type := city_type m;
                                 ml_tool := tool;
                                 ml_percentage := mix_cell m tool;
                                 ml_label := Coverage.field policy_labels tool |})
                    (filter (fun m => p (mix_city m)) rows))
             ts.
Proof.
  induction ts as [|tool ts IH]; [reflexivity|].
  cbn [flat_map]. rewrite filter_app, IH. f_equal. clear IH.
  induction rows as [|m ms IHm]; [reflexivity|].
  cbn [map filter ml_city]. destruct (p (mix_city m)); cbn [map]; now rewrite IHm.
Qed.

(** X16. Every row of the melted policy mix gets a label, and the
    application's dictionary lookup never fails: both dictionaries have an
    entry for each of the five melted columns.  For every selection of
    cities the application's table holds the melted rows of the selected
    cities, record by record instead of tool by tool, under the
    application's names, which differ from the script's labels for
    [section8_pct] and [iz_pct] only. *)
Theorem mix_long_tables_agree (selected_cities : list string) (rows : list mix_record) :
  Forall (fun l => exists s, ml_label l = Some s) (policy_mix_long rows) /\
  (exists data,
     mix_data (df_selected selected_cities rows) = Some data /\
     Permutation
       (map as_named
            (filter (fun l => city_in (ml_city l) selected_cities)
                    (policy_mix_long rows)))
       (map as_tuple data)) /\
  (forall tool, In tool tools ->
     (Coverage.field policy_labels tool = Coverage.field policy_names tool <->
      ~ In tool ["section8_pct"; "iz_pct"]%string)).
Proof.
  split; [|split].
  - rewrite policy_mix_long_blocks. unfold tools. simpl flat_map.
    repeat (apply Forall_app; split);
      try (apply Forall_map, Forall_forall; intros m _; eexists; reflexivity).
    constructor.
  - exists (flat_map mix_rows_of (df_selected selected_cities rows)).
    split; [apply mix_data_rows|].
    assert (F : filter (fun l => city_in (ml_city l) selected_cities)
                       (policy_mix_long rows)
                = policy_mix_long (df_selected selected_cities rows)).
    { rewrite !policy_mix_long_blocks. unfold df_selected.
      apply (filter_blocks (fun c => city_in c selected_cities)). }
    rewrite F, policy_mix_long_blocks. unfold tools. simpl flat_map.
    rewrite app_nil_r, !map_app, !map_map.
    rewrite five_blocks_interleaved. clear F.
    induction (df_selected selected_cities rows) as [|m ms IH]; simpl;
      [apply perm_nil|].
    apply perm_skip, perm_skip, perm_skip, perm_skip, perm_skip, IH.
  - intros tool I. unfold tools in I. simpl in I.
    destruct I as [<-|[<-|[<-|[<-|[<-|[]]]]]]; simpl;
      (split; [intros E; try discriminate E; intros F;
               repeat (destruct F as [F|F]; [discriminate F|]); exact F
              |intros N; try reflexivity; exfalso; apply N; auto]).
Qed.

(** *** Percentages of a city *)

Lemma mix_of_percentages (city : string) :
  public_housing_pct (mix_of city) + voucher_pct (mix_of city)
  + lihtc_pct (mix_of city) + section8_pct (mix_of city) + iz_pct (mix_of city) = 100.
Proof.
  unfold mix_of.
  destruct (city_in city _); [|destruct (city_in city _)]; reflexivity.
Qed.

Lemma exact_sum_cons (x : Z) (l : list Z) :
  Int64.exact_sum (x :: l) = x + Int64.exact_sum l.
Proof. reflexivity. Qed.

Lemma sum_of_block (tool : string) (c : string) (rows : list mix_record) :
  Int64.exact_sum
    (map ml_percentage
         (filter (fun l => String.eqb (ml_city l) c)
                 (map (fun m => {| ml_city := mix_city m;
                                   ml_city_type := city_type m;
                                   ml_tool := tool;
                                   ml_percentage := mix_cell m tool;
                                   ml_label := Coverage.field policy_labels tool |})
                      rows)))
  = Int64.exact_sum
      (map (fun m => mix_cell m tool)
           (filter (fun m => String.eqb (mix_city m) c) rows)).
Proof.
  induction rows as [|m ms IH]; [reflexivity|].
  cbn [map filter ml_city].
  destruct (String.eqb (mix_city m) c); cbn [map ml_percentage];
    rewrite ?exact_sum_cons, IH; reflexivity.
Qed.

Lemma mix_city_of (city : string) : mix_city (mix_of city) = city.
Proof.
  unfold mix_of. destruct (city_in city _); [|destruct (city_in city _)]; reflexivity.
Qed.

Lemma sum_of_tools (cs : list string) (c : string) :
  Int64.exact_sum (map public_housing_pct
                       (filter (fun m => String.eqb (mix_city m) c) (map mix_of cs)))
  + Int64.exact_sum (map voucher_pct
                       (filter (fun m => String.eqb (mix_city m) c) (map mix_of cs)))
  + Int64.exact_sum (map lihtc_pct
                       (filter (fun m => String.eqb (mix_city m) c) (map mix_of cs)))
  + Int64.exact_sum (map section8_pct
                       (filter (fun m => String.eqb (mix_city m) c) (map mix_of cs)))
  + Int64.exact_sum (map iz_pct
                       (filter (fun m => String.eqb (mix_city m) c) (map mix_of cs)))
  = 100 * Z.of_nat (count_occ string_dec cs c).
Proof.
  induction cs as [|c' cs IH]; [reflexivity|].
  cbn [map filter count_occ]. rewrite mix_city_of.
  destruct (string_dec c' c) as [->|N].
  - rewrite String.eqb_refl. cbn [map]. rewrite !exact_sum_cons.
    pose proof (mix_of_percentages c) as P. rewrite Nat2Z.inj_succ. lia.
  - apply String.eqb_neq in N. rewrite N. exact IH.
Qed.

(** X17. In the melted policy mix of the generated table, the
    percentages of the rows of a city add up to 100 for each record of
    that city: the stacked bar of a city listed once is complete. *)
Theorem generated_mix_bars_complete (cs : list string) (c : string) :
  Int64.exact_sum
    (map ml_percentage
         (filter (fun l => String.eqb (ml_city l) c)
                 (policy_mix_long (policy_mix_data_for cs))))
  = 100 * Z.of_nat (count_occ string_dec cs c).
Proof.
  rewrite policy_mix_long_blocks. unfold tools. cbn [flat_map].
  rewrite app_nil_r, !filter_app, !map_app.
  rewrite !CumulativeFacts.exact_sum_app, !sum_of_block.
  unfold policy_mix_data_for.
  rewrite <- (sum_of_tools cs c).
  change (fun m => mix_cell m "public_housing_pct") with public_housing_pct.
  change (fun m => mix_cell m "voucher_pct") with voucher_pct.
  change (fun m => mix_cell m "lihtc_pct") with lihtc_pct.
  change (fun m => mix_cell m "section8_pct") with section8_pct.
  change (fun m => mix_cell m "iz_pct") with iz_pct.
  lia.
Qed.

End LongTables.

(** ** The pivots and the city selector of the application

    [app.py], lines 248-251, 340, 410-418 and 427-430: [DataFrame.pivot]
    raises a [ValueError] when an (index, column) pair occurs twice, and
    otherwise gives one cell per pair, the others missing. *)

Section KeyLists.
Context {K : Type} `{Ord K}.

(** Some key occurs twice. *)
Fixpoint has_duplicates (l : list K) : bool :=
  match l with
  | [] => false
  | k :: rest => existsb (eqb_key k) rest || has_duplicates rest
  end.

(** The distinct values of a column in ascending order. *)
Definition sorted_unique (l : list K) : list K :=
  keys (groupby (map (fun k => (k, tt)) l)).

Lemma has_duplicates_false (l : list K) : has_duplicates l = false <-> NoDup l.
Proof.
  induction l as [|a l IH]; simpl.
  - split; [constructor|reflexivity].
  - rewrite orb_false_iff, IH. split.
    + intros [E N]. constructor; auto. intros I.
      assert (X : existsb (eqb_key a) l = true).
      { apply existsb_exists. exists a. split; [exact I|apply eqb_key_refl]. }
      congruence.
    + intros N. inversion N as [|? ? Na N']; subst. split; auto.
      destruct (existsb (eqb_key a) l) eqn:E; auto.
      apply existsb_exists in E. destruct E as [x [I E]].
      apply eqb_key_true in E. subst. contradiction.
Qed.

Lemma sorted_unique_sorted (l : list K) : StronglySorted lt (sorted_unique l).
Proof. unfold sorted_unique. apply (ascending_groupby (map (fun k => (k, tt)) l)). Qed.

Lemma sorted_unique_in (l : list K) (k : K) : In k (sorted_unique l) <-> In k l.
Proof.
  unfold sorted_unique. rewrite keys_groupby. unfold keys.
  rewrite map_map. cbn [fst]. now rewrite map_id.
Qed.

Lemma sorted_before {A} (R : A -> A -> Prop) (l1 l2 : list A) :
  StronglySorted R (l1 ++ l2) -> forall x y, In x l1 -> In y l2 -> R x y.
Proof.
  induction l1 as [|a l1 IH]; simpl; intros S x y Ix Iy; [contradiction|].
  inversion S as [|? ? S' F]; subst. destruct Ix as [->|Ix].
  - rewrite Forall_forall in F. apply F, in_or_app. now right.
  - now apply IH.
Qed.

End KeyLists.

Module Pivots.

Import Cumulative CumulativeFacts Rollup Generate LongTables.

Record pivoted (I C V : Type) := {
  p_index : list I;
  p_columns : list C;
  p_cell : I -> C -> option V
}.
Arguments p_index {I C V} _.
Arguments p_columns {I C V} _.
Arguments p_cell {I C V} _ _ _.

(** [DataFrame.pivot(index, columns, values)] on the rows of a frame;
    [None] stands for the [ValueError] of a repeated (index, column)
    pair. *)
Definition pivot {I C V : Type} `{Ord I} `{Ord C} (rows : list ((I * C) * V))
  : option (pivoted I C V) :=
  if has_duplicates (keys rows) then None
  else Some {| p_index := sorted_unique (map (fun r => fst (fst r)) rows);
               p_columns := sorted_unique (map (fun r => snd (fst r)) rows);
               p_cell := fun i c => get (i, c) rows |}.

(** The frame with year as index and city as column. *)
Definition by_year {V : Type} (rows : list ((string * Z) * V)) : list ((Z * string) * V) :=
  map (fun r => ((snd (fst r), fst (fst r)), snd r)) rows.

(** [df_summary[df_summary['city'].isin(cities_to_show)]] *)
Definition df_chart (cities_to_show : list string) (summary : list triple) : list triple :=
  filter (fun r => city_in (fst (fst r)) cities_to_show) summary.

(** [pivot_chart], lines 417-418, of a page that has records. *)
Definition pivot_chart (year_range : Z * Z) (cities_to_show : list string)
    (rows : list expiration_event) : option (pivoted Z string Z) :=
  pivot (by_year (df_chart cities_to_show (df_summary year_range rows))).

(** The (city, year) and the cumulative value of each row. *)
Definition cumulative_cells (out : list cumulative_row) : list ((string * Z) * Z) :=
  map (fun r => ((c_city r, c_year r), c_cumulative r)) out.

(** [pivot_cumulative], lines 428-429, of a page that has records. *)
Definition pivot_cumulative (year_range : Z * Z) (cities_to_show : list string)
    (rows : list expiration_event) : option (pivoted Z string Z) :=
  pivot (by_year
           (cumulative_cells
              (filter (fun r => city_in (c_city r) cities_to_show)
                      (cumulative_table (df_filtered year_range rows))))).

(** The pivot of [df_compare], lines 249-250. *)
Definition compare_pivot (rows : list coverage_row) : option (pivoted string string Z) :=
  pivot (map (fun c => ((cmp_city c, cmp_type c), cmp_count c)) (comparison_data rows)).

(** The pivot of [df_mix_long], line 340. *)
Definition mix_pivot (selected_cities : list string) (rows : list mix_record)
  : option (pivoted string string Z) :=
  match mix_data (df_selected selected_cities rows) with
  | Some data => pivot (map (fun d => ((md_city d, md_policy d), md_percentage d)) data)
  | None => None
  end.

(** [df_summary['city'].unique().tolist()], the options of the selector
    on a page that has records. *)
Definition city_options (year_range : Z * Z) (rows : list expiration_event) : list string :=
  first_seen (map (fun r => fst (fst r)) (df_summary year_range rows)).

(** The selector's default: the first five options. *)
Definition default_cities (year_range : Z * Z) (rows : list expiration_event) : list string :=
  firstn 5 (city_options year_range rows).

(** *** Pivots *)

Section PivotFacts.
Context {I C V : Type} `{Ord I} `{Ord C}.

Lemma pivot_none (rows : list ((I * C) * V)) :
  pivot rows = None <-> ~ NoDup (keys rows).
Proof.
  unfold pivot. destruct (has_duplicates (keys rows)) eqn:E.
  - split; [|reflexivity]. intros _ N. apply has_duplicates_false in N. congruence.
  - apply has_duplicates_false in E. split; [discriminate|]. intros N. contradiction.
Qed.

Lemma pivot_cells (rows : list ((I * C) * V)) :
  NoDup (keys rows) ->
  exists t, pivot rows = Some t /\ forall i c, p_cell t i c = get (i, c) rows.
Proof.
  intros N. apply has_duplicates_false in N. unfold pivot. rewrite N.
  eexists. split; [reflexivity|]. reflexivity.
Qed.

End PivotFacts.

Lemma eqb_key_swap {A B} `{Ord A} `{Ord B} (a a' : A) (b b' : B) :
  eqb_key (a, b) (a', b') = eqb_key (b, a) (b', a').
Proof.
  destruct (eqb_key (a, b) (a', b')) eqn:E; symmetry.
  - apply eqb_key_true in E. inversion E; subst. apply eqb_key_refl.
  - apply eqb_key_false in E. apply eqb_key_false. intros X. apply E.
    inversion X; subst. reflexivity.
Qed.

Lemma get_by_year {V} (rows : list ((string * Z) * V)) (c : string) (y : Z) :
  get (y, c) (by_year rows) = get (c, y) rows.
Proof.
  unfold by_year. induction rows as [|[[c' y'] v] rows IH]; simpl; [reflexivity|].
  rewrite (eqb_key_swap y y' c c'), IH. reflexivity.
Qed.

Lemma keys_by_year {V} (rows : list ((string * Z) * V)) :
  NoDup (keys rows) -> NoDup (keys (by_year rows)).
Proof.
  intros N. unfold keys, by_year. rewrite map_map. cbn [fst].
  rewrite <- (map_map fst (fun k => (snd k, fst k))).
  apply nodup_map_injective; [|exact N].
  intros [a b] [a' b'] E. inversion E; subst. reflexivity.
Qed.

Lemma nodup_filter_keys {A K} (key : A -> K) (p : A -> bool) (l : list A) :
  NoDup (map key l) -> NoDup (map key (filter p l)).
Proof.
  induction l as [|a l IH]; simpl; intros N; [constructor|].
  inversion N as [|? ? Na N']; subst.
  destruct (p a); simpl; auto. constructor; auto.
  intros I. apply Na. apply in_map_iff in I. destruct I as [x [E I]].
  apply filter_In in I. rewrite <- E. apply in_map. tauto.
Qed.

Lemma keys_of_cumsum (tot : string -> Z) (l : list triple) :
  map (fun r => (c_city r, c_year r)) (cumsum_from tot l) = keys l.
Proof.
  unfold keys. rewrite <- (triples_of_cumsum tot l) at 2.
  rewrite map_map. reflexivity.
Qed.

Lemma cumulative_keys_nodup (rows : list expiration_event) :
  NoDup (map (fun r => (c_city r, c_year r)) (cumulative_table rows)).
Proof.
  unfold cumulative_table, groupby_cumsum. rewrite keys_of_cumsum.
  rewrite sort_values_id by apply summary_ascending.
  apply ascending_nodup, summary_ascending.
Qed.



(** *** Pivots that can fail *)

Lemma nodup_app_inv {A} (l1 l2 : list A) :
  NoDup (l1 ++ l2) -> NoDup l1 /\ NoDup l2 /\ forall x, In x l1 -> ~ In x l2.
Proof.
  induction l1 as [|a l1 IH]; simpl; intros N.
  - split; [constructor|]. split; [exact N|]. intros x [].
  - inversion N as [|? ? Na N']; subst. destruct (IH N') as [N1 [N2 D]].
    split; [|split; [exact N2|]].
    + constructor; auto. intros I. apply Na, in_or_app. now left.
    + intros x [->|I] I2; [apply Na, in_or_app; now right|exact (D x I I2)].
Qed.

(** Rows tagged with each of a non-empty list of distinct tags repeat no
    (row, tag) pair exactly when no row is repeated. *)
Lemma nodup_tagged {A T} (l : list A) (tags : list T) :
  NoDup tags -> tags <> [] -> (NoDup (list_prod l tags) <-> NoDup l).
Proof.
  intros Nt Ne. split; [|intros N; now apply nodup_list_prod].
  destruct tags as [|t0 tags]; [congruence|].
  induction l as [|a l IH]; intros N; [constructor|].
  simpl in N. inversion N as [|? ? Na N']; subst.
  change ((a, t0) :: map (fun y => (a, y)) tags ++ list_prod l (t0 :: tags))
    with (((a, t0) :: map (fun y => (a, y)) tags) ++ list_prod l (t0 :: tags)) in N.
  apply nodup_app_inv in N. destruct N as [_ [N2 D]].
  constructor; [|now apply IH].
  intros I. apply (D (a, t0)); [now left|]. apply in_prod; [exact I|now left].
Qed.

Lemma comparison_keys (rows : list coverage_row) :
  keys (map (fun c => ((cmp_city c, cmp_type c), cmp_count c)) (comparison_data rows))
  = list_prod (map cov_city rows)
      ["Severely Cost-Burdened Renters (Demand)";
       "Subsidized Housing Units (Supply)"]%string.
Proof.
  unfold keys, comparison_data. induction rows as [|r rows IH]; [reflexivity|].
  cbn [flat_map map list_prod app fst cmp_city cmp_type]. now rewrite <- IH.
Qed.

Lemma mix_keys (selected : list mix_record) :
  keys (map (fun d => ((md_city d, md_policy d), md_percentage d))
            (flat_map mix_rows_of selected))
  = list_prod (map mix_city selected)
      ["Public Housing"; "Housing Vouchers"; "LIHTC"; "Section 8";
       "Inclusionary Zoning"]%string.
Proof.
  unfold keys. induction selected as [|m ms IH]; [reflexivity|].
  cbn [flat_map map list_prod app fst md_city md_policy mix_rows_of].
  now rewrite <- IH.
Qed.

Lemma distinct_strings_2 :
  NoDup ["Severely Cost-Burdened Renters (Demand)";
         "Subsidized Housing Units (Supply)"]%string.
Proof.
  repeat (constructor; [simpl; intros F; repeat (destruct F as [F|F]; [discriminate|]); exact F|]).
  constructor.
Qed.

Lemma distinct_strings_5 :
  NoDup ["Public Housing"; "Housing Vouchers"; "LIHTC"; "Section 8";
         "Inclusionary Zoning"]%string.
Proof.
  repeat (constructor; [simpl; intros F; repeat (destruct F as [F|F]; [discriminate|]); exact F|]).
  constructor.
Qed.



(** *** The city selector *)

Lemma pair_lt_fst {A B} `{Ord A} `{Ord B} (a a' : A) (b b' : B) :
  lt (a, b) (a', b') -> a = a' \/ lt a a'.
Proof.
  unfold lt. cbn [cmp Ord_pair]. unfold cmp_pair. cbn [fst snd].
  destruct (cmp a a') eqn:E; intros L; try discriminate; auto.
  left. now apply cmp_eq.
Qed.

Lemma filter_sorted {K} `{Ord K} (p : K -> bool) (l : list K) :
  StronglySorted lt l -> StronglySorted lt (filter p l).
Proof.
  induction 1 as [|a l S IH F]; simpl; [constructor|].
  destruct (p a); auto. constructor; auto.
  rewrite Forall_forall in *. intros x I. apply filter_In in I. apply F. tauto.
Qed.

(** The first components of rows in ascending (first, second) order,
    each once: they come out in ascending order. *)
Lemma first_seen_of_sorted {A B V} `{Ord A} `{Ord B} (l : list ((A * B) * V)) :
  ascending l -> StronglySorted lt (first_seen (map (fun r => fst (fst r)) l)).
Proof.
  induction l as [|[[a b] v] l IH]; intros S; [constructor|].
  apply ascending_cons in S. destruct S as [S F].
  cbn [map first_seen fst]. constructor.
  - apply filter_sorted. now apply IH.
  - apply Forall_forall. intros x I. apply filter_In in I. destruct I as [I N].
    apply (proj1 (first_seen_in _ _)) in I. apply in_map_iff in I.
    destruct I as [[[a' b'] v'] [E I]]. cbn [fst] in E. subst a'.
    rewrite Forall_forall in F.
    assert (L : lt (a, b) (x, b')).
    { apply F. change (x, b') with (fst ((x, b'), v')). unfold keys. now apply in_map. }
    apply pair_lt_fst in L. destruct L as [->|L]; [|exact L].
    rewrite eqb_key_refl in N. discriminate.
Qed.

Lemma options_are_cities (year_range : Z * Z) (rows : list expiration_event) (c : string) :
  In c (city_options year_range rows) <->
  In c (map city (df_filtered year_range rows)).
Proof.
  unfold city_options, df_summary. rewrite first_seen_in.
  rewrite <- (map_map fst fst).
  change (map fst (agg Int64.sum (groupby (triples (df_filtered year_range rows)))))
    with (keys (agg Int64.sum (groupby (triples (df_filtered year_range rows))))).
  rewrite keys_agg. split.
  - intros I. apply in_map_iff in I. destruct I as [[c' y] [E I]]. cbn [fst] in E.
    subst c'. apply (proj1 (keys_groupby _ _)) in I. unfold keys, triples in I.
    rewrite map_map in I. cbn [fst] in I. apply in_map_iff in I.
    destruct I as [e [E I]]. inversion E; subst. now apply in_map.
  - intros I. apply in_map_iff in I. destruct I as [e [<- I]].
    apply in_map_iff. exists (city e, year e). split; [reflexivity|].
    apply (proj2 (keys_groupby _ _)). unfold keys, triples. rewrite map_map. cbn [fst].
    apply in_map_iff. exists e. auto.
Qed.

Definition five_first : list string :=
  ["Boston, MA"; "Chicago, IL"; "Cleveland, OH"; "Detroit, MI"; "Los Angeles, CA"]%string.

Definition cities_in_order : list string :=
  five_first ++ ["New York, NY"; "Philadelphia, PA"; "San Francisco, CA"]%string.

Lemma cities_in_order_sorted : StronglySorted lt cities_in_order.
Proof.
  unfold cities_in_order, five_first. cbn [app].
  repeat (apply SSorted_cons;
          [|repeat (apply Forall_cons; [vm_compute; reflexivity|]); apply Forall_nil]).
  apply SSorted_nil.
Qed.

Lemma cities_in_order_spec (c : string) : In c cities_in_order <-> In c Coverage.cities.
Proof.
  unfold cities_in_order, five_first, Coverage.cities. simpl. tauto.
Qed.

(** X20. The options of the city selector are the cities that have a
    record in the selected year range, each once, in ascending order; the
    default selection is made of the first five, so every city left out
    comes after every city shown.  When the records in range are those of
    the eight cities of the generator, the page shows Boston, Chicago,
    Cleveland, Detroit and Los Angeles until the reader selects
    otherwise. *)
Theorem selector_offers_cities_in_order (year_range : Z * Z)
    (rows : list expiration_event) :
  city_options year_range rows
    = sorted_unique (map city (df_filtered year_range rows)) /\
  StronglySorted lt (city_options year_range rows) /\
  (forall c, In c (city_options year_range rows) <->
             In c (map city (df_filtered year_range rows))) /\
  (forall shown hidden,
     In shown (default_cities year_range rows) ->
     In hidden (city_options year_range rows) ->
     ~ In hidden (default_cities year_range rows) ->
     lt shown hidden) /\
  ((forall c, In c (map city (df_filtered year_range rows)) <-> In c Coverage.cities) ->
   default_cities year_range rows = five_first).
Proof.
  assert (S : StronglySorted lt (city_options year_range rows)).
  { unfold city_options. apply first_seen_of_sorted, summary_ascending. }
  pose proof (options_are_cities year_range rows) as M.
  split; [|split; [exact S|split; [exact M|split]]].
  - apply ascending_keys_unique; [exact S|apply sorted_unique_sorted|].
    intros c. now rewrite sorted_unique_in.
  - intros shown hidden Is Ih Nh. unfold default_cities in *.
    rewrite <- (firstn_skipn 5 (city_options year_range rows)) in S, Ih.
    apply in_app_or in Ih. destruct Ih as [Ih|Ih]; [contradiction|].
    exact (sorted_before lt _ _ S shown hidden Is Ih).
  - intros G. unfold default_cities.
    assert (E : city_options year_range rows = cities_in_order).
    { apply ascending_keys_unique; [exact S|exact cities_in_order_sorted|].
      intros c. now rewrite M, G, cities_in_order_spec. }
    rewrite E. reflexivity.
Qed.

Lemma selector_offers_cities_in_order_witness :
  default_cities (2025, 2045) (expiration_data midpoint_rng) = five_first.
Proof.
  apply selector_offers_cities_in_order. unfold expiration_data.
  assert (F : df_filtered (2025, 2045) (expiration_data_for Coverage.cities years midpoint_rng)
              = expiration_data_for Coverage.cities years midpoint_rng).
  { unfold df_filtered. apply filter_all. intros e I. cbn [fst snd].
    assert (Y : In (year e) years).
    { apply (in_map event_key) in I. rewrite keys_of_expiration_data in I.
      unfold event_key in I. apply in_prod_iff in I. tauto. }
    apply in_years in Y. apply andb_true_iff. split; apply Z.leb_le; lia. }
  rewrite F. intros c.
  assert (K : map city (expiration_data_for Coverage.cities years midpoint_rng)
              = map fst (list_prod Coverage.cities years)).
  { rewrite <- (keys_of_expiration_data Coverage.cities years midpoint_rng).
    rewrite map_map. reflexivity. }
  rewrite K. split.
  - intros I. apply in_map_iff in I. destruct I as [[c' y] [E I]].
    cbn [fst] in E. subst c'. apply in_prod_iff in I. tauto.
  - intros I. apply in_map_iff. exists (c, 2025). split; [reflexivity|].
    apply in_prod_iff. split; [exact I|]. apply in_years. lia.
Defined.

End Pivots.

(** ** From the generator to the roll-up

    [generate_data_simple.py] writes the coverage and the mix tables that
    [partner_template.py], lines 99-143, reads back, merges and rolls up
    by city type. *)

Module Pipeline.

Import B64 Py Coverage GenerateCoverage Rollup RollupRanges.

(** The columns of a generated record that the roll-up reads. *)
Definition coverage_of_record (r : dict pyval) : option coverage_row :=
  match field r "city", field r "severe_cost_burden_renters",
        field r "total_subsidized" with
  | Some (VStr c), Some (VInt d), Some (VInt s) =>
      Some {| cov_city := c; cov_severe := d; cov_subsidized := s |}
  | _, _, _ => None
  end.

(** The coverage table for the subsidized totals [s 0], [s 1], ... of the
    cities. *)
Definition generated_coverage (s : nat -> Z) : list coverage_row :=
  map (fun ic => {| cov_city := snd ic;
                    cov_severe := dict_get severe_cost_burden_renters (snd ic) 100 * 1000;
                    cov_subsidized := s (fst ic) |})
      (combine (seq 0 (List.length cities)) cities).

(** The two columns of the generated mix table that the roll-up reads. *)
Definition generated_mix : list mix_row :=
  map (fun m => {| mix_city := Generate.mix_city m;
                   mix_city_type := Some (Generate.city_type m) |})
      Generate.policy_mix_data.

(** [by_type] on the generated tables. *)
Definition generated_by_type (rand : nat -> draws) : list rollup_row :=
  by_type (merge_left (generated_coverage (fun i => total_of (rand i))) generated_mix).

Lemma generated_groups (s : nat -> Z) :
  groupby (keyed (merge_left (generated_coverage s) generated_mix)) =
  [("Legacy City", [(120000, s 3%nat); (85000, s 4%nat)]);
   ("Mixed", [(720000, s 1%nat); (380000, s 2%nat); (220000, s 5%nat)]);
   ("Strong Market", [(850000, s 0%nat); (180000, s 6%nat); (150000, s 7%nat)])]%string.
Proof. vm_compute. reflexivity. Qed.

Lemma generated_sizes (s : nat -> Z) :
  map total_severe (by_type (merge_left (generated_coverage s) generated_mix))
  = [205000; 1320000; 1180000].
Proof.
  unfold by_type. rewrite map_map. cbn [total_severe].
  unfold group_totals. rewrite generated_groups. reflexivity.
Qed.

Lemma generated_supplies (s : nat -> Z) :
  map total_subsidized (by_type (merge_left (generated_coverage s) generated_mix))
  = [Int64.sum [s 3%nat; s 4%nat];
     Int64.sum [s 1%nat; s 2%nat; s 5%nat];
     Int64.sum [s 0%nat; s 6%nat; s 7%nat]].
Proof.
  unfold by_type. rewrite map_map. cbn [total_subsidized].
  unfold group_totals. rewrite generated_groups. reflexivity.
Qed.

Lemma generated_per_100 (s : nat -> Z) :
  map subsidized_per_100_burdened
      (by_type (merge_left (generated_coverage s) generated_mix))
  = [percent_of (Int64.sum [s 3%nat; s 4%nat]) 205000;
     percent_of (Int64.sum [s 1%nat; s 2%nat; s 5%nat]) 1320000;
     percent_of (Int64.sum [s 0%nat; s 6%nat; s 7%nat]) 1180000].
Proof.
  unfold by_type. rewrite map_map. cbn [subsidized_per_100_burdened].
  unfold group_totals. rewrite generated_groups. reflexivity.
Qed.

Lemma records_give_coverage (rand : nat -> draws) :
  map coverage_of_record
      (map (fun ic => record_of severe_cost_burden_renters (snd ic) (rand (fst ic)))
           (combine (seq 0 (List.length cities)) cities))
  = map Some (generated_coverage (fun i => total_of (rand i))).
Proof.
  unfold generated_coverage. rewrite !map_map. apply map_ext. intros [i c].
  reflexivity.
Qed.

Lemma in_range_of_bounds (z : Z) : 0 <= z <= 10000000 -> Int64.in_range z.
Proof.
  intros [L U]. unfold Int64.in_range, Int64.min_int, Int64.max_int. split.
  - apply Z.le_trans with 0; [vm_compute; discriminate|exact L].
  - apply Z.le_trans with 10000000; [exact U|vm_compute; discriminate].
Qed.

Local Open Scope Q_scope.

Lemma percent_positive (part whole : Z) :
  (0 < part)%Z -> (0 < whole)%Z ->
  exists q, percent_of part whole = Fin q /\ 0 < q.
Proof.
  intros Pp Pw. rewrite percent_of_finite by exact Pw.
  eexists. split; [reflexivity|]. unfold share_value.
  apply rnd_pos. apply Qmult_lt_0_compat; [|reflexivity].
  apply rnd_pos. apply Qlt_shift_div_l.
  - apply rnd_pos. change 0 with (inject_Z 0). now rewrite <- Zlt_Qlt.
  - rewrite Qmult_0_l. apply rnd_pos.
    change 0 with (inject_Z 0). now rewrite <- Zlt_Qlt.
Qed.

Local Close Scope Q_scope.

(** The roll-up of the generated tables for subsidized totals within
    the bounds of the generator. *)
Lemma roll_up_of_totals (s : nat -> Z) :
  (forall i, 110000 <= s i <= 730000) ->
  let rows := by_type (merge_left (generated_coverage s) generated_mix) in
  map income_group rows = ["Legacy City"; "Mixed"; "Strong Market"]%string /\
  map total_severe rows = [205000; 1320000; 1180000] /\
  map total_subsidized rows
    = [s 3%nat + s 4%nat; s 1%nat + s 2%nat + s 5%nat; s 0%nat + s 6%nat + s 7%nat] /\
  near_100 (share_total rows) /\
  Forall (fun r => exists q, subsidized_per_100_burdened r = Fin q /\ (0 < q)%Q) rows /\
  Forall (fun r => offsets_within (label_dx r) (label_dy r)) rows.
Proof.
  intros B rows. unfold rows. clear rows.
  assert (Sz := generated_sizes s).
  assert (Su : map total_subsidized
                   (by_type (merge_left (generated_coverage s) generated_mix))
               = [s 3%nat + s 4%nat; s 1%nat + s 2%nat + s 5%nat;
                  s 0%nat + s 6%nat + s 7%nat]).
  { rewrite generated_supplies.
    pose proof (B 0%nat). pose proof (B 1%nat). pose proof (B 2%nat).
    pose proof (B 3%nat). pose proof (B 4%nat). pose proof (B 5%nat).
    pose proof (B 6%nat). pose proof (B 7%nat).
    rewrite !Int64.sum_exact
      by (apply in_range_of_bounds; unfold Int64.exact_sum; cbn [fold_right]; lia).
    unfold Int64.exact_sum. cbn [fold_right]. rewrite !Z.add_0_r, !Z.add_assoc.
    reflexivity. }
  split; [|split; [exact Sz|split; [exact Su|split; [|split]]]].
  - rewrite groups_of_by_type, generated_groups. reflexivity.
  - unfold share_total. rewrite shares_of_by_type, Sz.
    apply share_column_near_100.
    + repeat constructor; discriminate.
    + split; [reflexivity|discriminate].
    + discriminate.
  - apply Forall_forall. intros r I.
    assert (E : subsidized_per_100_burdened r
                = percent_of (total_subsidized r) (total_severe r)).
    { unfold by_type in I. apply in_map_iff in I. destruct I as [g [<- _]].
      reflexivity. }
    rewrite E. apply percent_positive.
    + apply (in_map total_subsidized) in I. rewrite Su in I.
      pose proof (B 0%nat). pose proof (B 1%nat). pose proof (B 2%nat).
      pose proof (B 3%nat). pose proof (B 4%nat). pose proof (B 5%nat).
      pose proof (B 6%nat). pose proof (B 7%nat).
      destruct I as [<-|[<-|[<-|[]]]]; lia.
    + apply (in_map total_severe) in I. rewrite Sz in I.
      destruct I as [<-|[<-|[<-|[]]]]; lia.
  - eapply Forall_impl; [|apply offsets_of_rows].
    + intros r H. exact (proj1 H).
    + rewrite Sz. repeat constructor; unfold Int64.max_int; lia.
    + rewrite Sz. discriminate.
Qed.

(** X21. Whatever the draws within the bounds given to [randint], the
    roll-up of the generated tables has the three groups Legacy City, Mixed
    and Strong Market, in this order, with 205000, 1320000 and 1180000
    severely burdened renters and with the sums of the subsidized units of
    their cities; no sum overflows, the shares add up to 100 within 1e-6,
    every group has a finite positive coverage, and the label offsets are
    finite and within their ranges: the conditions under which the shares
    and the offsets are well defined hold for the data the repository
    generates. *)
Theorem generated_roll_up (rand : nat -> draws) :
  (forall i, in_randint_range (rand i)) ->
  (exists records,
     policy_data rand = Ok records /\
     map coverage_of_record records
       = map Some (generated_coverage (fun i => total_of (rand i)))) /\
  map income_group (generated_by_type rand)
    = ["Legacy City"; "Mixed"; "Strong Market"]%string /\
  map total_severe (generated_by_type rand) = [205000; 1320000; 1180000] /\
  map total_subsidized (generated_by_type rand)
    = [total_of (rand 3%nat) + total_of (rand 4%nat);
       total_of (rand 1%nat) + total_of (rand 2%nat) + total_of (rand 5%nat);
       total_of (rand 0%nat) + total_of (rand 6%nat) + total_of (rand 7%nat)] /\
  near_100 (share_total (generated_by_type rand)) /\
  Forall (fun r => exists q, subsidized_per_100_burdened r = Fin q /\ (0 < q)%Q)
         (generated_by_type rand) /\
  Forall (fun r => offsets_within (label_dx r) (label_dy r))
         (generated_by_type rand).
Proof.
  intros R. split.
  { eexists. split; [apply policy_data_records|]. apply records_give_coverage. }
  apply (roll_up_of_totals (fun i => total_of (rand i))).
  intros i. apply total_of_range, R.
Qed.

Lemma generated_roll_up_witness :
  map total_severe (generated_by_type (fun _ => lowest_draws))
    = [205000; 1320000; 1180000] /\
  near_100 (share_total (generated_by_type (fun _ => lowest_draws))).
Proof.
  destruct (generated_roll_up (fun _ => lowest_draws)) as [_ [_ [S [_ [N _]]]]].
  - intros _. unfold in_randint_range, lowest_draws. simpl. lia.
  - split; [exact S|exact N].
Defined.

End Pipeline.
